(** * VIFF runtime: a shallow embedding of [viff/runtime.py]

    The development follows the layout of the Python sources:
    - [Field]: the field elements of [field.py] ([IntegerFieldElement],
      [GF256Element]);
    - [ActiveMul]: the arithmetic of [ActiveRuntime.mul]'s [finish_mul];
    - later modules: the program counter, the share exchanger, share
      lists, the Bracha broadcast, and the runtime protocols.

    Python integers are unbounded, so they are [Z].  Dictionaries are
    stdpp [gmap]s, lists are [list]s, tuples used as keys are lists. *)

From Stdlib Require Import ZArith Lia Ring List Bool.
From Stdlib Require Import Zmod.ZmodInv.
From stdpp Require Import base decidable option list gmap strings fin_maps.

Open Scope Z_scope.

(** ** Field elements ([field.py]) *)

Module Field.

(** [IntegerFieldElement]: an element of Z_modulus.  The class keeps the
      invariant that [value] is reduced, because [__init__] stores
      [value % modulus]; the record keeps that invariant as a boolean
      equation. *)
Record IntegerFieldElement (modulus : Z) : Type := MkInt {
    value : Z;
    value_reduced : (value mod modulus =? value) = true
  }.
Arguments MkInt {modulus} _ _.
Arguments value {modulus} _.
Arguments value_reduced {modulus} _.

Lemma init_reduced (modulus v : Z) :
    ((v mod modulus) mod modulus =? v mod modulus) = true.
Proof. apply Z.eqb_eq, Zmod_mod. Qed.

(** [IntegerFieldElement.__init__]: [self.value = value % self.modulus]. *)
Definition init {modulus : Z} (v : Z) : IntegerFieldElement modulus :=
    MkInt (v mod modulus) (init_reduced modulus v).

Section Ops.
Context {modulus : Z}.
Abbreviation elt := (IntegerFieldElement modulus).

(** [__add__], [__sub__], [__mul__], [__neg__] on two elements:
        [other = other.value] and the constructor reduces the result. *)
Definition add (a other : elt) : elt := init (value a + value other).
Definition sub (a other : elt) : elt := init (value a - value other).
Definition mul (a other : elt) : elt := init (value a * value other).
Definition neg (a : elt) : elt := init (- value a).

(** The reflected operators with a plain integer on the left:
        [__rmul__ = __mul__] with [other] an [int], and [__rsub__]. *)
Definition rmul (other : Z) (a : elt) : elt := init (value a * other).
Definition rsub (other : Z) (a : elt) : elt := init (other - value a).
Definition radd (other : Z) (a : elt) : elt := init (value a + other).

(** [__eq__] . *)
Definition eqb (a other : elt) : bool := value a =? value other.

Lemma elt_eq (a b : elt) : value a = value b -> a = b.
Proof.
      destruct a as [va pa], b as [vb pb]; simpl; intros ->.
      f_equal. apply (proof_irrel pa pb).
Qed.

Lemma value_mod (a : elt) : value a mod modulus = value a.
Proof. apply Z.eqb_eq, value_reduced. Qed.

Lemma value_init (v : Z) : value (init (modulus := modulus) v) = v mod modulus.
Proof. reflexivity. Qed.

Lemma eqb_eq (a b : elt) : eqb a b = true <-> a = b.
Proof.
      unfold eqb; rewrite Z.eqb_eq; split; [apply elt_eq | now intros ->].
Qed.

(** The operations form a commutative ring on the reduced values. *)
Lemma ring_laws :
      ring_theory (init 0) (init 1) add mul sub neg (@eq elt).
Proof.
      constructor; intros; apply elt_eq; unfold add, mul, sub, neg;
        rewrite ?value_init.
      - rewrite Zplus_mod_idemp_l. simpl. apply value_mod.
      - f_equal; lia.
      - rewrite Zplus_mod_idemp_l, Zplus_mod_idemp_r. f_equal; lia.
      - rewrite Zmult_mod_idemp_l, Z.mul_1_l. apply value_mod.
      - f_equal; lia.
      - rewrite Zmult_mod_idemp_l, Zmult_mod_idemp_r. f_equal; lia.
      - rewrite Zmult_mod_idemp_l, <- Zplus_mod. f_equal; lia.
      - rewrite Zplus_mod_idemp_r. f_equal; lia.
      - rewrite Zplus_mod_idemp_r. f_equal; lia.
Qed.
End Ops.

(** [GF256Element]: an element of GF(2^8); only the part of the class
      that the runtime's [xor] relies on ([__init__] and [__add__], which
      is the bitwise exclusive or of the two values). *)
Module GF256.
Definition modulus : Z := 256.

Record GF256Element : Type := MkGF256 { value : Z }.

Definition init (v : Z) : GF256Element := MkGF256 (v mod modulus).

(** [__add__]: [GF256Element(self.value ^ other)];
        [__sub__ = __add__]. *)
Definition add (a other : GF256Element) : GF256Element :=
      init (Z.lxor (value a) (value other)).
Definition sub := add.
End GF256.

End Field.

(** ** [ActiveRuntime.mul]: the value computed by [finish_mul] *)

Module ActiveMul.
Section AnyField.
(** Any field: a carrier with the operators the runtime uses on
        [FieldElement]s, and the ring laws. *)
Context {F : Type} (zero one : F) (add mul sub : F -> F -> F) (opp : F -> F).

(** [lambda (d,e): d*e + d*b + e*a + c], with Python's left-associative
        [+]. *)
Definition finish_mul (a b c : F) (de : F * F) : F :=
      let '(d, e) := de in
      add (add (add (mul d e) (mul d b)) (mul e a)) c.

Hypothesis Fth : ring_theory zero one add mul sub opp (@eq F).
Add Ring Fring : Fth.

Lemma finish_mul_cancel (x y a b : F) :
      finish_mul a b (mul a b) (sub x a, sub y b) = mul x y.
Proof. unfold finish_mul. ring. Qed.
End AnyField.
End ActiveMul.

(** ** Exceptions, outcomes and the runtime monad

    The runtime's methods mutate [self] and may raise.  A method is a
    function from the runtime state to an outcome and a new state; an
    exception keeps the state reached when it was raised, as in Python. *)

Inductive exn : Type :=
| AssertionError (msg : string)
| IndexError
| KeyError
| OtherError (tag : nat).

Inductive outcome (A : Type) : Type :=
| Return (a : A)
| Raise (e : exn).
Arguments Return {A} a.
Arguments Raise {A} e.

(** The two fields of [viff.field] that the runtime tells apart:
    the class [GF256] and the classes made by [GF(modulus)]. *)
Inductive FieldType : Type :=
| GF256
| GF (modulus : Z).

#[global] Instance FieldType_eq_dec : EqDecision FieldType.
Proof. solve_decision. Defined.

#[global] Instance FieldType_countable : Countable FieldType.
Proof.
  refine (inj_countable'
            (fun f => match f with GF256 => None | GF m => Some m end)
            (fun o => match o with None => GF256 | Some m => GF m end) _).
  intros []; reflexivity.
Defined.

(** A [Deferred] (or [Share]) object is known by its identity. *)
Definition Deferred : Type := nat.

(** What travels on the wire after [marshal]: an integer (the [value] of a
    field element) or a string. *)
Inductive data : Type :=
| DInt (z : Z)
| DStr (s : string).

(** An element of a [deque] of [incoming_data]: a waiting [Deferred] or a
    received payload ([isinstance(deq[0], Deferred)] tells them apart). *)
Inductive entry : Type :=
| Waiter (d : Deferred)
| Payload (x : data).

(** Keys of [incoming_data]: [(program_counter, data_type)]. *)
Abbreviation key := (list Z * string)%type.

(** [ShareExchanger]: the peer's id, the queues of expected and received
    data, and the frames written to the transport by [sendData]. *)
Record ShareExchanger : Type := mkShareExchanger {
  peer_id : option Z;
  incoming_data : gmap key (list entry);
  transport : list (list Z * string * data)
}.

(** What a [Deferred] holds once it has a result: an integer (the value of
    a field element) or a pair [(id, share)]. *)
Inductive value : Type :=
| VInt (z : Z)
| VPair (x y : Z).

(** The functions of [runtime.py] that [schedule_callback] wraps. *)
Inductive scheduled : Type :=
| SExchange (receivers : list Z) (threshold : Z)
| SPairWithId (peer : Z).

(** The callbacks that [runtime.py] adds to [Deferred]s:
    [lambda value: field(value)] of [_expect_share];
    [lambda c, s: s + c] of [prss_share];
    [split_result] of [Share.clone];
    [callback_wrapper] of [schedule_callback];
    [_callback_fired] of [ShareList], as callback and as errback;
    [filter_good_shares] and [shamir.recombine] of [_recombine]. *)
Inductive callback : Type :=
| CbField (field : FieldType)
| CbAddShare (field : FieldType) (s : Z)
| CbSplitResult (clone : Deferred)
| CbWrapper (saved_pc : nat) (f : scheduled)
| CbCallbackFired (share_list : Deferred) (index : nat)
| CbFilterGoodShares (threshold : Z)
| CbRecombine.

(** What the runtime does to [Deferred] objects (Twisted's, outside the
    runtime): it creates them, with or without a value, adds callbacks to
    them, and calls [callback(data)] on them. *)
Inductive deferred_op : Type :=
| NewShare (d : Deferred) (field : FieldType) (v : option value)
| AddCallback (d : Deferred) (cb : callback)
| Callback (d : Deferred) (x : data).

(** [BasicRuntime] and its subclasses.  [program_counter] is a reference to
    a list object; [objects] is the store of those list objects, so that the
    copy made by [schedule_callback] and the in-place updates of
    [increment_pc] are told apart.  A reference that is not allocated (this
    cannot happen in Python) reads as the empty list.  [players] lists the
    keys of the dictionary [self.players] in iteration order, and
    [next_deferred] is the identity the next [Deferred] object gets, and
    [deferred_log] what the runtime has done to [Deferred] objects, in
    order. *)
Record Runtime : Type := mkRuntime {
  id : Z;
  threshold : Z;
  objects : gmap nat (list Z);
  program_counter : nat;
  _pool : gmap (list Z) Deferred;
  _needed_data : gmap (string * list FieldType) (list (list Z));
  num_players : Z;
  players : list Z;
  protocols : gmap Z ShareExchanger;
  next_deferred : Deferred;
  deferred_log : list deferred_op
}.

Definition M (A : Type) : Type := Runtime -> outcome A * Runtime.

Definition ret {A} (a : A) : M A := fun s => (Return a, s).
Definition raise {A} (e : exn) : M A := fun s => (Raise e, s).
Definition bind {A B} (m : M A) (k : A -> M B) : M B :=
  fun s => match m s with
           | (Return a, s') => k a s'
           | (Raise e, s') => (Raise e, s')
           end.

Notation "x <- m ;; k" := (bind m (fun x => k))
  (at level 100, m at next level, right associativity).
Notation "m ;;; k" := (bind m (fun _ => k))
  (at level 100, right associativity).

(** [try: body finally: fin].  The [finally] clause runs on every exit of
    [body]; if it raises, its exception replaces the outcome of [body]. *)
Definition try_finally {A} (body : M A) (fin : M unit) : M A :=
  fun s => match body s with
           | (o, s') =>
               match fin s' with
               | (Return _, s'') => (o, s'')
               | (Raise e, s'') => (Raise e, s'')
               end
           end.

(** [assert cond, msg]. *)
Definition assert (cond : bool) (msg : string) : M unit :=
  if cond then ret tt else raise (AssertionError msg).

(** ** The program counter *)

Definition set_objects (o : gmap nat (list Z)) (s : Runtime) : Runtime :=
  mkRuntime (id s) (threshold s) o (program_counter s) (_pool s)
            (_needed_data s) (num_players s) (players s) (protocols s) (next_deferred s)
            (deferred_log s).

Definition set_program_counter (l : nat) (s : Runtime) : Runtime :=
  mkRuntime (id s) (threshold s) (objects s) l (_pool s)
            (_needed_data s) (num_players s) (players s) (protocols s) (next_deferred s)
            (deferred_log s).

Definition set_needed_data
  (n : gmap (string * list FieldType) (list (list Z))) (s : Runtime) : Runtime :=
  mkRuntime (id s) (threshold s) (objects s) (program_counter s) (_pool s)
            n (num_players s) (players s) (protocols s) (next_deferred s)
            (deferred_log s).

Definition set_protocols (p : gmap Z ShareExchanger) (s : Runtime) : Runtime :=
  mkRuntime (id s) (threshold s) (objects s) (program_counter s) (_pool s)
            (_needed_data s) (num_players s) (players s) p (next_deferred s)
            (deferred_log s).

Definition set_next_deferred (d : Deferred) (s : Runtime) : Runtime :=
  mkRuntime (id s) (threshold s) (objects s) (program_counter s) (_pool s)
            (_needed_data s) (num_players s) (players s) (protocols s) d
            (deferred_log s).

Definition set_deferred_log (l : list deferred_op) (s : Runtime) : Runtime :=
  mkRuntime (id s) (threshold s) (objects s) (program_counter s) (_pool s)
            (_needed_data s) (num_players s) (players s) (protocols s)
            (next_deferred s) l.

(** The list that a reference designates. *)
Definition deref (s : Runtime) (l : nat) : list Z :=
  default [] (objects s !! l).

(** The value of [self.program_counter] (what [tuple(self.program_counter)]
    and [self.program_counter[:]] read). *)
Definition read_pc (s : Runtime) : list Z := deref s (program_counter s).

(** In-place update of the list object [self.program_counter] refers to. *)
Definition write_pc (pc : list Z) (s : Runtime) : Runtime :=
  set_objects (<[program_counter s := pc]> (objects s)) s.

(** [self.program_counter[-1] += 1]: [IndexError] on an empty list. *)
Definition pc_increment_last : M unit :=
  fun s => match last (read_pc s) with
           | None => (Raise IndexError, s)
           | Some n => (Return tt, write_pc (removelast (read_pc s) ++ [n + 1]) s)
           end.

(** [self.program_counter.append(0)]. *)
Definition pc_append (n : Z) : M unit :=
  fun s => (Return tt, write_pc (read_pc s ++ [n]) s).

(** [self.program_counter.pop()]: [IndexError] on an empty list. *)
Definition pc_pop : M unit :=
  fun s => match last (read_pc s) with
           | None => (Raise IndexError, s)
           | Some _ => (Return tt, write_pc (removelast (read_pc s)) s)
           end.

(** [increment_pc(method)]: the wrapper [inc_pc_wrapper]. *)
Definition inc_pc_wrapper {A} (method : M A) : M A :=
  try_finally (pc_increment_last ;;; pc_append 0 ;;; method) pc_pop.

(** [schedule_callback]: the closure [callback_wrapper] captures the copy
    [saved_pc] and the function [func]; the [Deferred] passes it the result
    of the previous callback. *)
Record callback_wrapper (V A : Type) : Type := mkWrapper {
  saved_pc : nat;
  func : V -> M A
}.
Arguments mkWrapper {V A} _ _.
Arguments saved_pc {V A} _.
Arguments func {V A} _.

(** [saved_pc = self.program_counter[:]]: a new list object with the
    current contents. *)
Definition save_pc : M nat :=
  fun s =>
    let l := fresh (dom (objects s)) in
    (Return l, set_objects (<[l := read_pc s]> (objects s)) s).

(** [schedule_callback], for any function: the wrapper is what is passed
    to [deferred.addCallback]. *)
Definition schedule_callback {V A} (f : V -> M A) : M (callback_wrapper V A) :=
  l <- save_pc ;; ret (mkWrapper l f).

(** The body of [callback_wrapper], run when the [Deferred] fires. *)
Definition run_callback_wrapper {V A} (w : callback_wrapper V A) (v : V) : M A :=
  fun s =>
    let current_pc := program_counter s in
    try_finally
      (fun s1 => func w v (set_program_counter (saved_pc w) s1))
      (fun s2 => (Return tt, set_program_counter current_pc s2))
      s.

(** A method is balanced when it returns (or raises) with
    [self.program_counter] referring to the same list object, of which it
    changed at most the last entry.  Every method of the runtime is: the
    program counter is only changed through [increment_pc] and
    [schedule_callback]. *)
Definition balanced {A} (method : M A) : Prop :=
  forall s q k,
    read_pc s = q ++ [k] ->
    program_counter (snd (method s)) = program_counter s /\
    exists k', read_pc (snd (method s)) = q ++ [k'].

Lemma read_write_pc pc s : read_pc (write_pc pc s) = pc.
Proof. unfold read_pc, write_pc, deref; simpl. by rewrite lookup_insert_eq. Qed.

Lemma write_write_pc pc pc' s : write_pc pc (write_pc pc' s) = write_pc pc s.
Proof.
  unfold write_pc, set_objects; simpl. by rewrite insert_insert_eq.
Qed.

Lemma program_counter_write_pc pc s :
  program_counter (write_pc pc s) = program_counter s.
Proof. reflexivity. Qed.

Lemma last_snoc_Z (q : list Z) k : last (q ++ [k]) = Some k.
Proof. apply last_snoc. Qed.

Lemma removelast_snoc (q : list Z) k : removelast (q ++ [k]) = q.
Proof. apply removelast_last. Qed.

Lemma pc_increment_last_snoc s q k :
  read_pc s = q ++ [k] ->
  pc_increment_last s = (Return tt, write_pc (q ++ [k + 1]) s).
Proof.
  intros H. unfold pc_increment_last.
  by rewrite H, last_snoc_Z, removelast_snoc.
Qed.

Lemma pc_pop_snoc s q k :
  read_pc s = q ++ [k] -> pc_pop s = (Return tt, write_pc q s).
Proof.
  intros H. unfold pc_pop. by rewrite H, last_snoc_Z, removelast_snoc.
Qed.

Lemma pc_pop_empty s : read_pc s = [] -> pc_pop s = (Raise IndexError, s).
Proof. intros H. unfold pc_pop. by rewrite H. Qed.

(** The state in which the wrapped method starts. *)
Lemma inc_pc_wrapper_unfold {A} (method : M A) s q k :
  read_pc s = q ++ [k] ->
  inc_pc_wrapper method s =
    let s1 := write_pc (q ++ [k + 1] ++ [0]) s in
    let r := method s1 in
    match pc_pop (snd r) with
    | (Return _, s') => (fst r, s')
    | (Raise e, s') => (Raise e, s')
    end.
Proof.
  intros H. unfold inc_pc_wrapper, try_finally, bind.
  rewrite (pc_increment_last_snoc s q k H). unfold pc_append.
  rewrite read_write_pc, write_write_pc, <- app_assoc.
  cbn zeta. by destruct (method _) as [[a|e] s'].
Qed.

(** The run of the wrapper around a balanced method. *)
Lemma inc_pc_wrapper_run {A} (method : M A) s q k :
  balanced method ->
  read_pc s = q ++ [k] ->
  inc_pc_wrapper method s =
    (fst (method (write_pc (q ++ [k + 1; 0]) s)),
     write_pc (q ++ [k + 1]) (snd (method (write_pc (q ++ [k + 1; 0]) s)))).
Proof.
  intros Hbal Hpc.
  rewrite (inc_pc_wrapper_unfold method s q k Hpc). cbn zeta.
  change (q ++ [k + 1] ++ [0]) with (q ++ [k + 1; 0]).
  destruct (Hbal (write_pc (q ++ [k + 1; 0]) s) (q ++ [k + 1]) 0)
    as [Href [k' Hk']].
  { rewrite read_write_pc. by rewrite <- app_assoc. }
  by rewrite (pc_pop_snoc _ _ _ Hk').
Qed.

Lemma balanced_program_counter {A} (method : M A) s q k :
  balanced method -> read_pc s = q ++ [k] ->
  program_counter (snd (method s)) = program_counter s.
Proof. intros Hbal H. by destruct (Hbal s q k H). Qed.

(** With an empty program counter (never the case: [__init__] sets it to
    [[0]] and the wrappers keep it non-empty) the increment raises, and so
    does the [pop] of the [finally] clause. *)
Lemma inc_pc_wrapper_empty {A} (method : M A) s :
  read_pc s = [] -> inc_pc_wrapper method s = (Raise IndexError, s).
Proof.
  intros H. unfold inc_pc_wrapper, try_finally, bind, pc_increment_last.
  rewrite H. simpl. by rewrite (pc_pop_empty s H).
Qed.

Lemma balanced_ret {A} (a : A) : balanced (ret a).
Proof. intros s q k H. simpl. eauto. Qed.

Lemma balanced_raise {A} e : balanced (@raise A e).
Proof. intros s q k H. simpl. eauto. Qed.

Lemma balanced_bind {A B} (m : M A) (f : A -> M B) :
  balanced m -> (forall a, balanced (f a)) -> balanced (bind m f).
Proof.
  intros Hm Hf s q k H. unfold bind.
  destruct (Hm s q k H) as [Hr [k' Hk']].
  destruct (m s) as [[a|e] s']; simpl in *; [|eauto].
  destruct (Hf a s' q k' Hk') as [Hr' Hk'']. rewrite Hr'. eauto.
Qed.

(** Nested counted operations: the wrapper of a balanced method is
    balanced. *)
Lemma balanced_inc_pc_wrapper {A} (method : M A) :
  balanced method -> balanced (inc_pc_wrapper method).
Proof.
  intros Hbal s q k H.
  rewrite (inc_pc_wrapper_run method s q k Hbal H). cbn [fst snd].
  rewrite program_counter_write_pc, read_write_pc.
  rewrite (balanced_program_counter method _ (q ++ [k + 1]) 0 Hbal).
  - eauto.
  - rewrite read_write_pc. by rewrite <- app_assoc.
Qed.

(** ** [BasicRuntime.__init__] and [add_player]

    [__init__] checks the threshold, then sets the fields; [add_player]
    records the owner with no protocol.  The options play no part in what
    follows and are left out. *)
Definition BasicRuntime_init (player_id : Z) (threshold : Z) : outcome Runtime :=
  if 0 <? threshold then
    Return (mkRuntime player_id threshold {[ 0%nat := [0] ]} 0%nat ∅ ∅
                      1 [player_id] ∅ 0%nat [])
  else Raise (AssertionError "Must use a positive threshold.").

(** [add_player(player, protocol)] for another player, with its
    [ShareExchanger]. *)
Definition add_player (player_id : Z) (protocol : ShareExchanger) (s : Runtime) : Runtime :=
  let ps := if decide (player_id ∈ players s) then players s
            else players s ++ [player_id] in
  mkRuntime (id s) (threshold s) (objects s) (program_counter s) (_pool s)
            (_needed_data s) (Z.of_nat (length ps)) ps
            (<[player_id := protocol]> (protocols s)) (next_deferred s)
            (deferred_log s).

(** ** [preprocess(generator)]: the proxy [preprocess_wrapper]

    [self._pool[pc]] is returned when it exists; on [KeyError] the demand
    is appended to [self._needed_data[(generator, args)]] and the original
    method is called. *)
Definition needed_data_append (key : string * list FieldType) (pc : list Z)
    (s : Runtime) : Runtime :=
  let pcs := default [] (_needed_data s !! key) in
  set_needed_data (<[key := pcs ++ [pc]]> (_needed_data s)) s.

Definition preprocess_wrapper (generator : string)
    (method : list FieldType -> M Deferred) (args : list FieldType) : M Deferred :=
  fun s =>
    let pc := read_pc s in
    match _pool s !! pc with
    | Some d => (Return d, s)
    | None =>
        let key := (generator, args) in
        method args (needed_data_append key pc s)
    end.

(** [ActiveRuntime.get_triple]: [@increment_pc @preprocess("generate_triples")]
    around a body that calls [generate_triples] and keeps the [Deferred]
    (to which it adds the callback taking the first triple).  The triple
    generation protocol itself is a parameter here. *)
Definition get_triple_method (generate_triples : FieldType -> M (Z * Deferred))
    (args : list FieldType) : M Deferred :=
  match args with
  | [field] => r <- generate_triples field ;; ret (snd r)
  | _ => raise (OtherError 0)
  end.

Definition get_triple (generate_triples : FieldType -> M (Z * Deferred))
    (field : FieldType) : M Deferred :=
  inc_pc_wrapper
    (preprocess_wrapper "generate_triples" (get_triple_method generate_triples) [field]).

(** The runtime of player 1 with threshold 1, as [__init__] leaves it. *)
Definition example_runtime : Runtime :=
  mkRuntime 1 1 {[ 0%nat := [0] ]} 0%nat ∅ ∅ 1 [1] ∅ 0%nat [].

Lemma example_runtime_init : BasicRuntime_init 1 1 = Return example_runtime.
Proof. reflexivity. Qed.

Lemma deref_set_program_counter l l' s :
  deref (set_program_counter l s) l' = deref s l'.
Proof. reflexivity. Qed.

Lemma read_pc_set_program_counter l s :
  read_pc (set_program_counter l s) = deref s l.
Proof. reflexivity. Qed.


Lemma run_callback_wrapper_unfold {V A} (w : callback_wrapper V A) v s :
  run_callback_wrapper w v s =
    (fst (func w v (set_program_counter (saved_pc w) s)),
     set_program_counter (program_counter s)
       (snd (func w v (set_program_counter (saved_pc w) s)))).
Proof.
  unfold run_callback_wrapper, try_finally.
  by destruct (func w v _).
Qed.

Lemma pool_write_pc pc s : _pool (write_pc pc s) = _pool s.
Proof. reflexivity. Qed.

Lemma read_pc_needed_data_append key pc s :
  read_pc (needed_data_append key pc s) = read_pc s.
Proof. reflexivity. Qed.

(** ** [ShareExchanger]: the queues of [incoming_data] *)

Definition set_incoming_data (i : gmap key (list entry)) (p : ShareExchanger) : ShareExchanger :=
  mkShareExchanger (peer_id p) i (transport p).

Definition set_peer_id (n : Z) (p : ShareExchanger) : ShareExchanger :=
  mkShareExchanger (Some n) (incoming_data p) (transport p).

(** A string from the peer, as decoded: the peer's id ([int(string)]) or a
    marshalled triple [(program_counter, data_type, data)]. *)
Inductive wire : Type :=
| WId (n : Z)
| WData (program_counter : list Z) (data_type : string) (d : data).

(** [deq.popleft()] followed by [if not deq: del incoming_data[key]]. *)
Definition popleft_at (k : key) (rest : list entry) (p : ShareExchanger) : ShareExchanger :=
  match rest with
  | [] => set_incoming_data (delete k (incoming_data p)) p
  | _ :: _ => set_incoming_data (<[k := rest]> (incoming_data p)) p
  end.

(** [deq.append(x)] on the deque that [setdefault(key, deque())] gave. *)
Definition append_at (k : key) (deq : list entry) (x : entry) (p : ShareExchanger) : ShareExchanger :=
  set_incoming_data (<[k := deq ++ [x]]> (incoming_data p)) p.

(** [stringReceived].  The first string identifies the peer; every later
    one is unmarshalled and either handed to the [Deferred] waiting at the
    head of the key's deque, or appended to the deque.  The result tells
    which [Deferred] gets its [callback(data)], if any; that call is the
    last statement, so whatever the callbacks do to [incoming_data] comes
    after this update, as further events.  A string of the wrong kind
    makes [int] or [marshal.loads] raise. *)
Definition stringReceived (str : wire) (p : ShareExchanger)
    : outcome (option (Deferred * data)) * ShareExchanger :=
  match peer_id p with
  | None =>
      match str with
      | WId n => (Return None, set_peer_id n p)
      | WData _ _ _ => (Raise (OtherError 0), p)
      end
  | Some _ =>
      match str with
      | WId _ => (Raise (OtherError 1), p)
      | WData program_counter data_type d =>
          let k := (program_counter, data_type) in
          let deq := default [] (incoming_data p !! k) in
          match deq with
          | Waiter deferred :: rest =>
              (Return (Some (deferred, d)), popleft_at k rest p)
          | _ => (Return None, append_at k deq (Payload d) p)
          end
      end
  end.

(** The part of [BasicRuntime._expect_data] that works on the peer's
    [ShareExchanger]: received data at the head of the deque is handed to
    [deferred], otherwise [deferred] is appended. *)
Definition expect_data_at (k : key) (deferred : Deferred) (p : ShareExchanger)
    : option (Deferred * data) * ShareExchanger :=
  let deq := default [] (incoming_data p !! k) in
  match deq with
  | Payload d :: rest => (Some (deferred, d), popleft_at k rest p)
  | _ => (None, append_at k deq (Waiter deferred) p)
  end.

(** [BasicRuntime._expect_data(peer_id, data_type, deferred)]. *)
Definition _expect_data (peer : Z) (data_type : string) (deferred : Deferred)
    : M (option (Deferred * data)) :=
  fun s =>
    if decide (peer = id s) then
      (Raise (AssertionError "Do not expect data from yourself!"), s)
    else
      let pc := read_pc s in
      match protocols s !! peer with
      | None => (Raise KeyError, s)
      | Some p =>
          let '(fired, p') := expect_data_at (pc, data_type) deferred p in
          (Return fired, set_protocols (<[peer := p']> (protocols s)) s)
      end.

(** The events on one connection: a data string arrives, or the runtime
    registers a waiter for a key. *)
Inductive event : Type :=
| Received (program_counter : list Z) (data_type : string) (d : data)
| Expected (k : key) (deferred : Deferred).

Definition step (p : ShareExchanger) (e : event) : ShareExchanger :=
  match e with
  | Received pc ty d => snd (stringReceived (WData pc ty d) p)
  | Expected k deferred => snd (expect_data_at k deferred p)
  end.

Definition run (events : list event) (p : ShareExchanger) : ShareExchanger :=
  fold_left step events p.

(** A connection whose peer has been identified, with nothing received
    and nothing expected. *)
Definition connected (n : Z) : ShareExchanger := mkShareExchanger (Some n) ∅ [].

Definition is_waiter (x : entry) : bool :=
  match x with Waiter _ => true | Payload _ => false end.

Definition is_payload (x : entry) : bool :=
  match x with Waiter _ => false | Payload _ => true end.

(** The discipline of the queues: a key that is present has a non-empty
    deque, holding only waiters or only payloads. *)
Definition queue_ok (deq : list entry) : Prop :=
  deq <> [] /\ (forallb is_waiter deq = true \/ forallb is_payload deq = true).

Definition queues_ok (p : ShareExchanger) : Prop :=
  forall k deq, incoming_data p !! k = Some deq -> queue_ok deq.

(** The property as the specification words it: one entry per key. *)
Definition one_entry_per_key (p : ShareExchanger) : Prop :=
  forall k deq, incoming_data p !! k = Some deq -> length deq = 1%nat.

Lemma queues_ok_delete k p :
  queues_ok p -> queues_ok (set_incoming_data (delete k (incoming_data p)) p).
Proof.
  intros H k' deq. simpl. rewrite lookup_delete.
  case_decide; [done | apply H].
Qed.

Lemma queues_ok_insert k deq p :
  queues_ok p -> queue_ok deq ->
  queues_ok (set_incoming_data (<[k := deq]> (incoming_data p)) p).
Proof.
  intros H Hd k' deq'. simpl. rewrite lookup_insert.
  case_decide; [by intros [= <-] | apply H].
Qed.

Lemma queue_ok_tail x y rest : queue_ok (x :: y :: rest) -> queue_ok (y :: rest).
Proof.
  intros [_ [H|H]]; (split; [done|]); simpl in H;
    apply andb_true_iff in H as [_ H]; auto.
Qed.

Lemma queue_ok_snoc_waiter deq d :
  (deq = [] \/ (queue_ok deq /\ exists w rest, deq = Waiter w :: rest)) ->
  queue_ok (deq ++ [Waiter d]).
Proof.
  intros [-> | [[_ H] (w & rest & ->)]].
  - split; [done | by left].
  - split; [done|]. left. rewrite forallb_app. destruct H as [H|H].
    + by rewrite H.
    + simpl in H. discriminate.
Qed.

Lemma queue_ok_snoc_payload deq d :
  (deq = [] \/ (queue_ok deq /\ exists x rest, deq = Payload x :: rest)) ->
  queue_ok (deq ++ [Payload d]).
Proof.
  intros [-> | [[_ H] (w & rest & ->)]].
  - split; [done | by right].
  - split; [done|]. right. rewrite forallb_app. destruct H as [H|H].
    + simpl in H. discriminate.
    + by rewrite H.
Qed.

Lemma queues_ok_popleft k x rest p :
  queues_ok p -> incoming_data p !! k = Some (x :: rest) ->
  queues_ok (popleft_at k rest p).
Proof.
  intros H Hk. unfold popleft_at. destruct rest as [|y rest].
  - by apply queues_ok_delete.
  - apply queues_ok_insert; [done|].
    apply (queue_ok_tail x). by apply (H k).
Qed.

Lemma default_lookup_cons (k : key) (x : entry) (rest : list entry)
    (m : gmap key (list entry)) :
  default [] (m !! k) = x :: rest -> m !! k = Some (x :: rest).
Proof. destruct (m !! k); simpl; intros H; [by rewrite H | discriminate]. Qed.

Lemma queues_ok_default k p :
  queues_ok p ->
  default [] (incoming_data p !! k) = [] \/
  queue_ok (default [] (incoming_data p !! k)).
Proof.
  intros H. destruct (incoming_data p !! k) as [deq|] eqn:E; simpl; [|by left].
  right. by apply (H k).
Qed.

Lemma queues_ok_stringReceived str p :
  queues_ok p -> queues_ok (snd (stringReceived str p)).
Proof.
  intros H. unfold stringReceived.
  destruct (peer_id p); destruct str as [n|pc ty d]; simpl; try done.
  destruct (default [] (incoming_data p !! (pc, ty))) as [|[w|x] rest] eqn:E; simpl.
  - apply queues_ok_insert; [done|]. apply (queue_ok_snoc_payload []). by left.
  - apply (queues_ok_popleft _ (Waiter w)); [done|]. by apply default_lookup_cons.
  - apply queues_ok_insert; [done|]. apply queue_ok_snoc_payload. right.
    split; [|eauto]. apply (H (pc, ty)). by apply default_lookup_cons.
Qed.

Lemma queues_ok_expect_data_at k deferred p :
  queues_ok p -> queues_ok (snd (expect_data_at k deferred p)).
Proof.
  intros H. unfold expect_data_at.
  destruct (default [] (incoming_data p !! k)) as [|[w|x] rest] eqn:E; simpl.
  - apply queues_ok_insert; [done|]. apply (queue_ok_snoc_waiter []). by left.
  - apply queues_ok_insert; [done|]. apply queue_ok_snoc_waiter. right.
    split; [|eauto]. apply (H k). by apply default_lookup_cons.
  - apply (queues_ok_popleft _ (Payload x)); [done|]. by apply default_lookup_cons.
Qed.

Lemma queues_ok_step p e : queues_ok p -> queues_ok (step p e).
Proof.
  destruct e; simpl;
    [apply queues_ok_stringReceived | apply queues_ok_expect_data_at].
Qed.

Lemma queues_ok_run events p : queues_ok p -> queues_ok (run events p).
Proof.
  revert p. induction events as [|e events IH]; intros p H; simpl; [done|].
  apply IH. by apply queues_ok_step.
Qed.

Lemma queues_ok_connected n : queues_ok (connected n).
Proof. intros k deq. simpl. by rewrite lookup_empty. Qed.

(** ** [ShareList]

    A [ShareList] waits on a list of shares.  Its own state is the list
    [results], the counter [missing_shares] and the flag [called] it has
    as a [Deferred]. *)

Section ShareList.
Context {V : Type}.

Record ShareList : Type := mkShareList {
  results : list (option (bool * V));
  missing_shares : Z;
  called : bool
}.

(** [ShareList.__init__(shares, threshold=None)]: the two assertions, then
    the fields.  The constructor registers [_callback_fired] on each share
    with its index, and with [True] as callback and [False] as errback. *)
Definition ShareList_init (shares : list Deferred) (threshold : option Z)
    : outcome ShareList :=
  let len := Z.of_nat (length shares) in
  if negb (0 <? len) then Raise (AssertionError "Cannot create empty ShareList")
  else
    match threshold with
    | None => Return (mkShareList (replicate (length shares) None) len false)
    | Some t =>
        if (0 <? t) && (t <=? len)
        then Return (mkShareList (replicate (length shares) None) t false)
        else Raise (AssertionError "Threshold out of range")
    end.

(** [_callback_fired(result, index, success)].  The value returned is the
    list given to [self.callback] when the share list fires at this call.
    [self.results[index] = ...] raises [IndexError] out of range (the
    indices registered by [__init__] come from [enumerate(shares)]). *)
Definition _callback_fired (result : V) (index : nat) (success : bool)
    (sl : ShareList) : outcome (option (list (option (bool * V)))) * ShareList :=
  if decide (index < length (results sl))%nat then
    let results' := <[index := Some (success, result)]> (results sl) in
    let missing' := missing_shares sl - 1 in
    if negb (called sl) && (missing' =? 0)
    then (Return (Some results'), mkShareList results' missing' true)
    else (Return None, mkShareList results' missing' (called sl))
  else (Raise IndexError, sl).

(** A constituent share resolves: its index in the list, whether it got
    [callback] or [errback], and the value. *)
Record resolution : Type := mkResolution {
  res_index : nat;
  res_success : bool;
  res_value : V
}.

(** The shares resolve one after the other; for each resolution, what the
    share list fires with, if it fires. *)
Fixpoint resolve_all (rs : list resolution) (sl : ShareList)
    : list (outcome (option (list (option (bool * V))))) * ShareList :=
  match rs with
  | [] => ([], sl)
  | r :: rs' =>
      let '(out, sl') := _callback_fired (res_value r) (res_index r) (res_success r) sl in
      let '(outs, sl'') := resolve_all rs' sl' in
      (out :: outs, sl'')
  end.

(** The list of pairs for the shares that have resolved, in the order of
    the original list: position [i] has the pair of share [i] if it is
    among [rs], and [None] otherwise. *)
Definition pairs_of (n : nat) (rs : list resolution) : list (option (bool * V)) :=
  map (fun i => (fun r => (res_success r, res_value r)) <$>
                  find (fun r => Nat.eqb (res_index r) i) rs)
      (seq 0 n).

End ShareList.
Arguments ShareList V : clear implicits.
Arguments resolution V : clear implicits.

Section ShareListFacts.
Context {V : Type}.
Implicit Types (sl : ShareList V) (rs : list (resolution V)).

(** The contents of [results] after some resolutions. *)
Definition store_all rs (acc : list (option (bool * V))) : list (option (bool * V)) :=
  fold_left (fun acc r => <[res_index r := Some (res_success r, res_value r)]> acc) rs acc.

Definition fires_at sl (j : nat) : Prop :=
  called sl = false /\ Z.of_nat (S j) = missing_shares sl.

#[local] Instance fires_at_dec sl j : Decision (fires_at sl j).
Proof. unfold fires_at. apply _. Defined.

Lemma resolve_all_outputs rs sl :
  Forall (fun r => (res_index r < length (results sl))%nat) rs ->
  fst (resolve_all rs sl) =
    map (fun j => Return (if decide (fires_at sl j)
                          then Some (store_all (take (S j) rs) (results sl))
                          else None))
        (seq 0 (length rs)).
Proof.
  revert sl. induction rs as [|r rs IH]; intros sl Hin; [reflexivity|].
  apply Forall_cons in Hin as [Hr Hin].
  cbn [resolve_all]. unfold _callback_fired. rewrite decide_True by done.
  destruct (negb (called sl) && (missing_shares sl - 1 =? 0)) eqn:E;
    destruct (resolve_all rs _) as [outs sl''] eqn:R;
    apply (f_equal fst) in R;
    rewrite IH in R by (simpl; by rewrite length_insert);
    cbn [fst] in R |- *;
    cbn [length seq map]; rewrite <- R, <- fmap_S_seq;
    change (map ?f (S <$> ?l)) with (map f (map S l)); rewrite map_map.
  - apply andb_true_iff in E as [Ec Em].
    apply negb_true_iff in Ec. apply Z.eqb_eq in Em.
    rewrite decide_True by (unfold fires_at; split; [done | lia]).
    f_equal. apply map_ext. intros j.
    rewrite !decide_False; [done | |]; unfold fires_at; simpl; intros [? ?];
      [lia | done].
  - assert (Hno : ~ fires_at sl 0).
    { unfold fires_at. intros [Hc Hm]. rewrite Hc in E. simpl in E.
      apply Z.eqb_neq in E. lia. }
    rewrite decide_False by done. f_equal. apply map_ext. intros j.
    destruct (decide (fires_at sl (S j))) as [[Hc Hm]|Hn].
    + rewrite decide_True; [done|]. unfold fires_at; simpl. split; [done|lia].
    + rewrite decide_False; [done|]. unfold fires_at in *; simpl.
      intros [Hc Hm]. apply Hn. split; [done|lia].
Qed.

Lemma store_all_length rs acc : length (store_all rs acc) = length acc.
Proof.
  revert acc. induction rs as [|r rs IH]; intros acc; simpl; [done|].
  unfold store_all in IH. by rewrite IH, length_insert.
Qed.

Lemma find_absent (f : resolution V -> bool) rs :
  (forall r, In r rs -> f r = false) -> find f rs = None.
Proof.
  induction rs as [|r rs IH]; intros H; simpl; [done|].
  rewrite (H r) by (by left). apply IH. intros x Hx. apply H. by right.
Qed.

Lemma store_all_lookup rs acc (i : nat) :
  NoDup (map res_index rs) ->
  (i < length acc)%nat ->
  store_all rs acc !! i =
    match find (fun r => Nat.eqb (res_index r) i) rs with
    | Some r => Some (Some (res_success r, res_value r))
    | None => acc !! i
    end.
Proof.
  revert acc. induction rs as [|r rs IH]; intros acc Hnd Hi; [done|].
  apply NoDup_cons in Hnd as [Hnotin Hnd].
  cbn [store_all fold_left find]. fold (store_all rs).
  rewrite IH by (by rewrite ?length_insert).
  destruct (Nat.eqb_spec (res_index r) i) as [<-|Hne].
  - assert (find (fun r0 => Nat.eqb (res_index r0) (res_index r)) rs = None) as ->.
    { apply find_absent. intros x Hx. apply Nat.eqb_neq. intros E.
      apply Hnotin. rewrite <- E. apply list_elem_of_In. by apply in_map. }
    by apply list_lookup_insert_eq.
  - destruct (find _ rs); [done|]. by apply list_lookup_insert_ne.
Qed.

Lemma store_all_pairs_of n rs :
  NoDup (map res_index rs) ->
  store_all rs (replicate n None) = pairs_of n rs.
Proof.
  intros Hnd. apply list_eq. intros i. unfold pairs_of.
  destruct (decide (i < n)%nat) as [Hi|Hi].
  - rewrite store_all_lookup by (by rewrite ?length_replicate).
    change (map ?f ?l) with (f <$> l). rewrite list_lookup_fmap.
    rewrite lookup_seq_lt by done. simpl.
    destruct (find _ rs); simpl; [done|].
    by rewrite lookup_replicate_2.
  - rewrite !lookup_ge_None_2; [done | |].
    + rewrite length_map, length_seq. lia.
    + rewrite store_all_length, length_replicate. lia.
Qed.

End ShareListFacts.

Lemma NoDup_res_index_take {V} (n : nat) (rs : list (resolution V)) :
  NoDup (map res_index rs) -> NoDup (map res_index (take n rs)).
Proof.
  intros H. change (map ?f ?l) with (f <$> l) in *. rewrite fmap_take.
  exact (sublist_NoDup _ _ H (sublist_take _ _)).
Qed.

(** ** [ActiveRuntime._broadcast]: the Bracha broadcast

    The closures [echo_received], [ready_received] and [send_received]
    share four dictionaries keyed by message.  [unsafe_broadcast] writes
    to every peer; [sent] records its calls, and [delivered_calls] the
    calls of [result.callback] (a [Deferred] accepts the first and raises
    [AlreadyCalledError] on a later one, after the flag is set). *)




Section Bracha.
Variables (n t self_id : Z).








End Bracha.

(** *** What the player knows about one message

    The four dictionaries and the two logs, read at one message. *)





Section BrachaViews.
Variables (n t self_id : Z).




End BrachaViews.


































(** ** [Runtime.xor]

    The method works on [Share] objects through their overloaded
    operators, which call back [runtime.add], [runtime.sub] and
    [runtime.mul].  It is written here over any type [S] of shares with
    those operations; [cmul z s] is the product [z * s] of an integer and
    a share ([Share.__rmul__], the local branch of [mul]).  An operand is
    a share, a field element or an integer; [mk_share] is the constructor
    [Share(self, field, value)] and [field_call] the call [field(value)]. *)

Inductive operand (S E : Type) : Type :=
| OShare (field : FieldType) (s : S)
| OElement (field : FieldType) (e : E)
| OInt (z : Z).
Arguments OShare {S E} field s.
Arguments OElement {S E} field e.
Arguments OInt {S E} z.

Section Xor.
Context {S E : Type}.
Variables (add sub mul : S -> S -> S) (cmul : Z -> S -> S).
Variables (mk_share : FieldType -> E -> S) (field_call : FieldType -> Z -> E).

(** [getattr(x, "field", default)]. *)
Definition getattr_field (x : operand S E) (default : option FieldType)
    : option FieldType :=
  match x with
  | OShare f _ => Some f
  | OElement f _ => Some f
  | OInt _ => default
  end.

(** The coercion of an operand that is not a [Share]; [field(value)] with
    no field at hand raises ([None] is not callable). *)
Definition to_share (field : option FieldType) (x : operand S E) : outcome S :=
  match x with
  | OShare _ s => Return s
  | OElement _ e =>
      match field with
      | Some f => Return (mk_share f e)
      | None => Raise (AssertionError "Cannot construct share without a field.")
      end
  | OInt z =>
      match field with
      | Some f => Return (mk_share f (field_call f z))
      | None => Raise (OtherError 2)
      end
  end.

Definition xor (share_a share_b : operand S E) : outcome S :=
  let field := getattr_field share_a (getattr_field share_b None) in
  match to_share field share_a with
  | Raise e => Raise e
  | Return a =>
      match to_share field share_b with
      | Raise e => Raise e
      | Return b =>
          if decide (field = Some GF256) then Return (add a b)
          else Return (sub (add a b) (mul (cmul 2 a) b))
      end
  end.

End Xor.

(** The logical exclusive or of two bits, as integers. *)
Definition bit_xor (a b : Z) : Z := if Z.eqb a b then 0 else 1.

(** The value of [a + b - 2 * a * b] computed with the operators of
    [IntegerFieldElement]. *)
Lemma integer_xor_value (m a b : Z) :
  Field.sub (Field.add (Field.init a) (Field.init b))
            (Field.mul (Field.rmul 2 (Field.init a)) (Field.init b))
  = Field.init (modulus := m) (a + b - 2 * a * b).
Proof.
  apply Field.elt_eq. unfold Field.sub, Field.add, Field.mul, Field.rmul.
  rewrite !Field.value_init.
  rewrite <- Zplus_mod, Zmult_mod_idemp_l, Zmult_mod_idemp_r.
  rewrite <- Z.mul_assoc, Zmult_mod_idemp_l, <- Zminus_mod.
  f_equal. lia.
Qed.

(** ** The runtime at work: shares, sending and expecting

    Field elements inside the runtime are kept by their [value], with the
    field they belong to. *)

Definition modulus_of (f : FieldType) : Z :=
  match f with GF256 => 256 | GF m => m end.

(** [field(value)] . *)
Definition field_call (f : FieldType) (v : Z) : Z := v mod modulus_of f.

Definition fe_add (f : FieldType) (a b : Z) : Z :=
  match f with
  | GF256 => field_call f (Z.lxor a b)
  | GF _ => field_call f (a + b)
  end.

Definition fe_sub (f : FieldType) (a b : Z) : Z :=
  match f with
  | GF256 => field_call f (Z.lxor a b)
  | GF _ => field_call f (a - b)
  end.

Lemma fe_add_value m (a b : Field.IntegerFieldElement m) :
  Field.value (Field.add a b) = fe_add (GF m) (Field.value a) (Field.value b).
Proof. reflexivity. Qed.

Lemma fe_sub_value m (a b : Field.IntegerFieldElement m) :
  Field.value (Field.sub a b) = fe_sub (GF m) (Field.value a) (Field.value b).
Proof. reflexivity. Qed.

Definition log_deferred (op : deferred_op) : M unit :=
  fun s => (Return tt, set_deferred_log (deferred_log s ++ [op]) s).

(** [Share(self, field, value)]: a new object; with a value, [callback]
    is called right away. *)
Definition new_share (field : FieldType) (v : option value) : M Deferred :=
  fun s =>
    let d := next_deferred s in
    (Return d,
     set_deferred_log (deferred_log s ++ [NewShare d field v])
       (set_next_deferred (S d) s)).

(** [deferred.addCallback(cb)]. *)
Definition add_callback (d : Deferred) (cb : callback) : M unit :=
  log_deferred (AddCallback d cb).

(** [self.schedule_callback(deferred, f, ...)] for a function of the
    runtime. *)
Definition schedule (d : Deferred) (f : scheduled) : M unit :=
  l <- save_pc ;; add_callback d (CbWrapper l f).

(** [Share.clone]. *)
Definition clone (share : Deferred) (field : FieldType) : M Deferred :=
  c <- new_share field None ;;
  add_callback share (CbSplitResult c) ;;;
  ret c.

(** [ShareExchanger.sendData] writes a frame on the transport. *)
Definition sendData (program_counter : list Z) (data_type : string) (x : data)
    (p : ShareExchanger) : ShareExchanger :=
  mkShareExchanger (peer_id p) (incoming_data p)
                   (transport p ++ [(program_counter, data_type, x)]).

(** [self.protocols[peer_id].sendShare(pc, share)]: [KeyError] when there
    is no protocol for the peer. *)
Definition sendShare_to (peer : Z) (pc : list Z) (share_value : Z) : M unit :=
  fun s =>
    match protocols s !! peer with
    | None => (Raise KeyError, s)
    | Some p =>
        (Return tt,
         set_protocols (<[peer := sendData pc "share" (DInt share_value) p]> (protocols s)) s)
    end.

(** [for x in l: body(x)]. *)
Fixpoint for_each {A} (l : list A) (body : A -> M unit) : M unit :=
  match l with
  | [] => ret tt
  | x :: l' => body x ;;; for_each l' body
  end.

(** A loop that appends one result per element to a list. *)
Fixpoint collect {A B} (l : list A) (body : A -> M B) : M (list B) :=
  match l with
  | [] => ret []
  | x :: l' => y <- body x ;; ys <- collect l' body ;; ret (y :: ys)
  end.

(** [BasicRuntime._expect_share(peer_id, field)]; when the data is already
    there, [_expect_data] calls [callback] on the new share. *)
Definition _expect_share (peer : Z) (field : FieldType) : M Deferred :=
  share <- new_share field None ;;
  add_callback share (CbField field) ;;;
  fired <- _expect_data peer "share" share ;;
  match fired with
  | Some (d, x) => log_deferred (Callback d x)
  | None => ret tt
  end ;;;
  ret share.

(** [self] as it is now, and [tuple(self.program_counter)]. *)
Definition get_self : M Runtime := fun s => (Return s, s).
Definition tuple_program_counter : M (list Z) := fun s => (Return (read_pc s), s).

(** Methods that return a list "unpack a singleton list". *)
Inductive one_or_many : Type :=
| One (d : Deferred)
| Many (ds : list Deferred).

Definition unpack_singleton (result : list Deferred) : one_or_many :=
  match result with
  | [d] => One d
  | _ => Many result
  end.

(** ** [Runtime.prss_share]

    [prss n j field i key] stands for [prss(n, j, field, prfs[i], key)]
    with the pseudo-random functions of the dealer [i], and [recombine]
    for [shamir.recombine]; both are parameters. *)
Section PrssShare.
Variable prss : Z -> Z -> FieldType -> Z -> list Z -> Z.
Variable recombine : FieldType -> list (Z * Z) -> Z.

Definition prss_share_body (inputters : list Z) (field : FieldType)
    (element : option Z) : M one_or_many :=
  self <- get_self ;;
  (* Verifying parameters. *)
  match element with
  | None => assert (negb (bool_decide (id self ∈ inputters))) "No element given."
  | Some _ => assert (bool_decide (id self ∈ inputters))
                     "Element given, but we are not sharing?"
  end ;;;
  let n := num_players self in
  key <- tuple_program_counter ;;
  (* Compute and broadcast correction value. *)
  correction <-
    (if bool_decide (id self ∈ inputters) then
       let all_shares :=
         map (fun player => (field_call field player,
                             prss n player field (id self) key))
             (players self) in
       let shared := recombine field (take (Z.to_nat (threshold self + 1)) all_shares) in
       match element with
       | None => raise (OtherError 3)
       | Some e =>
           let correction := fe_sub field e shared in
           pc <- tuple_program_counter ;;
           for_each (players self)
             (fun peer => if decide (id self = peer) then ret tt
                          else sendShare_to peer pc correction) ;;;
           ret (Some correction)
       end
     else ret None) ;;
  (* Receive correction value from inputters and compute share. *)
  result <-
    collect inputters
      (fun player =>
         let tmp := prss n (id self) field player key in
         d <- (if decide (player = id self)
               then new_share field (VInt <$> correction)
               else _expect_share player field) ;;
         add_callback d (CbAddShare field tmp) ;;;
         ret d) ;;
  ret (unpack_singleton result).

Definition prss_share (inputters : list Z) (field : FieldType)
    (element : option Z) : M one_or_many :=
  inc_pc_wrapper (prss_share_body inputters field element).

End PrssShare.

Lemma id_write_pc pc s : id (write_pc pc s) = id s.
Proof. reflexivity. Qed.

(** A counted method whose body raises at once, before it changes
    anything. *)
Lemma inc_pc_wrapper_raises {A} (method : M A) e s q k :
  read_pc s = q ++ [k] ->
  method (write_pc (q ++ [k + 1; 0]) s) = (Raise e, write_pc (q ++ [k + 1; 0]) s) ->
  inc_pc_wrapper method s = (Raise e, write_pc (q ++ [k + 1]) s).
Proof.
  intros Hpc Hm. rewrite (inc_pc_wrapper_unfold method s q k Hpc). cbn zeta.
  change (q ++ [k + 1] ++ [0]) with (q ++ [k + 1; 0]). rewrite Hm. cbn [fst snd].
  rewrite (pc_pop_snoc _ (q ++ [k + 1]) 0).
  - by rewrite write_write_pc.
  - rewrite read_write_pc. by rewrite <- app_assoc.
Qed.

(** ** [Runtime._recombine] and [Runtime.open] *)


(** [enumerate(l)]. *)
Definition enumerate {A} (l : list A) : list (nat * A) :=
  zip (seq 0 (length l)) l.

(** [_recombine(shares, threshold)], a counted method: the assertion, the
    [ShareList] with threshold [threshold + 1] (whose constructor asserts
    too, and registers [_callback_fired] on every share), and the two
    callbacks. *)
Definition _recombine_body (shares : list Deferred) (field : FieldType)
    (threshold : Z) : M Deferred :=
  assert (threshold <? Z.of_nat (length shares)) EmptyString ;;;
  match ShareList_init (V := value) shares (Some (threshold + 1)) with
  | Raise e => raise e
  | Return _ =>
      result <- new_share field None ;;
      for_each (enumerate shares)
        (fun ix => add_callback (snd ix) (CbCallbackFired result (fst ix))) ;;;
      add_callback result (CbFilterGoodShares threshold) ;;;
      add_callback result CbRecombine ;;;
      ret result
  end.

Definition _recombine (shares : list Deferred) (field : FieldType)
    (threshold : Z) : M Deferred :=
  inc_pc_wrapper (_recombine_body shares field threshold).

(** The closure [exchange] of [open]; [share] is the value the opened
    share resolved to.  Its result is what the callback returns: the
    [Deferred] of [_recombine] for a receiver (Twisted then makes the
    share that [open] returned wait for it and take its result), and
    [None] otherwise. *)
Definition exchange (receivers : list Z) (threshold : Z) (field : FieldType)
    (share : Z) : M (option Deferred) :=
  self <- get_self ;;
  (* Send share to all receivers. *)
  for_each receivers
    (fun peer => if decide (peer = id self) then ret tt
                 else pc <- tuple_program_counter ;; sendShare_to peer pc share) ;;;
  (* Receive and recombine shares if this player is a receiver. *)
  if bool_decide (id self ∈ receivers) then
    deferreds <-
      collect (players self)
        (fun peer =>
           if decide (peer = id self)
           then new_share field (Some (VPair (field_call field peer) share))
           else d <- _expect_share peer field ;;
                schedule d (SPairWithId peer) ;;;
                ret d) ;;
    r <- _recombine deferreds field threshold ;;
    ret (Some r)
  else ret None.

(** [open(share, receivers=None, threshold=None)], a counted method;
    [field] is [share.field]. *)
Definition open_body (share : Deferred) (field : FieldType)
    (receivers_arg : option (list Z)) (threshold_arg : option Z)
    : M (option Deferred) :=
  self <- get_self ;;
  (* all players receive result by default *)
  let receivers := default (players self) receivers_arg in
  let threshold := default (threshold self) threshold_arg in
  result <- clone share field ;;
  schedule result (SExchange receivers threshold) ;;;
  if bool_decide (id self ∈ receivers) then ret (Some result) else ret None.

Definition open (share : Deferred) (field : FieldType)
    (receivers : option (list Z)) (threshold : option Z) : M (option Deferred) :=
  inc_pc_wrapper (open_body share field receivers threshold).

(** What a scheduled function returns to the [Deferred]. *)
Inductive callback_result : Type :=
| ResNone
| ResDeferred (d : Deferred)
| ResValue (v : value).

(** The functions behind the [scheduled] names, applied to the integer
    value of the element the [Deferred] passes. *)
Definition run_scheduled (field : FieldType) (f : scheduled) (x : Z)
    : M callback_result :=
  match f with
  | SExchange receivers threshold =>
      o <- exchange receivers threshold field x ;;
      ret (match o with Some d => ResDeferred d | None => ResNone end)
  | SPairWithId peer => ret (ResValue (VPair (field_call field peer) x))
  end.

(** *** Methods that leave the program counter alone *)

Definition keeps_pc {A} (m : M A) : Prop :=
  forall s, program_counter (snd (m s)) = program_counter s /\
            read_pc (snd (m s)) = read_pc s.

Lemma keeps_pc_balanced {A} (m : M A) : keeps_pc m -> balanced m.
Proof.
  intros H s q k Hpc. destruct (H s) as [H1 H2]. split; [done|].
  exists k. by rewrite H2.
Qed.

Lemma keeps_pc_ret {A} (a : A) : keeps_pc (ret a).
Proof. by intros s. Qed.

Lemma keeps_pc_raise {A} e : keeps_pc (@raise A e).
Proof. by intros s. Qed.

Lemma keeps_pc_bind {A B} (m : M A) (f : A -> M B) :
  keeps_pc m -> (forall a, keeps_pc (f a)) -> keeps_pc (bind m f).
Proof.
  intros Hm Hf s. unfold bind. destruct (Hm s) as [H1 H2].
  destruct (m s) as [[a|e] s']; simpl in *; [|done].
  destruct (Hf a s') as [H3 H4]. by rewrite H3, H4.
Qed.

Lemma keeps_pc_get_self : keeps_pc get_self.
Proof. by intros s. Qed.

Lemma keeps_pc_tuple_program_counter : keeps_pc tuple_program_counter.
Proof. by intros s. Qed.

Lemma keeps_pc_assert c msg : keeps_pc (assert c msg).
Proof. unfold assert. destruct c; [apply keeps_pc_ret | apply keeps_pc_raise]. Qed.

Lemma keeps_pc_log_deferred op : keeps_pc (log_deferred op).
Proof. by intros s. Qed.

Lemma keeps_pc_add_callback d cb : keeps_pc (add_callback d cb).
Proof. apply keeps_pc_log_deferred. Qed.

Lemma keeps_pc_new_share field v : keeps_pc (new_share field v).
Proof. by intros s. Qed.

Lemma keeps_pc_save_pc : keeps_pc save_pc.
Proof.
  intros s. unfold save_pc. simpl. split; [done|].
  unfold read_pc, deref. simpl.
  destruct (decide (fresh (dom (objects s)) = program_counter s)) as [E|N].
  - rewrite <- E, lookup_insert_eq.
    assert (objects s !! fresh (dom (objects s)) = None) as ->; [|done].
    apply not_elem_of_dom, is_fresh.
  - by rewrite lookup_insert_ne.
Qed.

Lemma keeps_pc_schedule d f : keeps_pc (schedule d f).
Proof.
  apply keeps_pc_bind; [apply keeps_pc_save_pc | intros; apply keeps_pc_add_callback].
Qed.

Lemma keeps_pc_clone share field : keeps_pc (clone share field).
Proof.
  repeat (apply keeps_pc_bind; intros);
    auto using keeps_pc_new_share, keeps_pc_add_callback, keeps_pc_ret.
Qed.

Lemma keeps_pc_sendShare_to peer pc v : keeps_pc (sendShare_to peer pc v).
Proof. intros s. unfold sendShare_to. by destruct (protocols s !! peer). Qed.

Lemma keeps_pc_expect_data peer ty d : keeps_pc (_expect_data peer ty d).
Proof.
  intros s. unfold _expect_data. case_decide; [done|].
  destruct (protocols s !! peer); [|done]. by destruct (expect_data_at _ _ _).
Qed.

Lemma keeps_pc_expect_share peer field : keeps_pc (_expect_share peer field).
Proof.
  unfold _expect_share.
  repeat (apply keeps_pc_bind; intros);
    auto using keeps_pc_new_share, keeps_pc_add_callback, keeps_pc_ret,
               keeps_pc_expect_data.
  destruct a1 as [[? ?]|]; auto using keeps_pc_log_deferred, keeps_pc_ret.
Qed.

Lemma keeps_pc_for_each {A} (l : list A) (body : A -> M unit) :
  (forall x, keeps_pc (body x)) -> keeps_pc (for_each l body).
Proof.
  intros H. induction l as [|x l IH]; simpl; [apply keeps_pc_ret|].
  apply keeps_pc_bind; auto.
Qed.

Lemma keeps_pc_collect {A B} (l : list A) (body : A -> M B) :
  (forall x, keeps_pc (body x)) -> keeps_pc (collect l body).
Proof.
  intros H. induction l as [|x l IH]; simpl; [apply keeps_pc_ret|].
  repeat (apply keeps_pc_bind; intros); auto using keeps_pc_ret.
Qed.

Lemma keeps_pc_open_body share field receivers threshold :
  keeps_pc (open_body share field receivers threshold).
Proof.
  unfold open_body.
  apply keeps_pc_bind; [apply keeps_pc_get_self|]. intros self.
  apply keeps_pc_bind; [apply keeps_pc_clone|]. intros result.
  apply keeps_pc_bind; [apply keeps_pc_schedule|]. intros _.
  destruct (bool_decide _); apply keeps_pc_ret.
Qed.

(** The run of a counted method whose body leaves the counter alone. *)
Lemma inc_pc_wrapper_keeps {A} (method : M A) s q k :
  keeps_pc method ->
  read_pc s = q ++ [k] ->
  inc_pc_wrapper method s =
    (fst (method (write_pc (q ++ [k + 1; 0]) s)),
     write_pc (q ++ [k + 1]) (snd (method (write_pc (q ++ [k + 1; 0]) s)))).
Proof. intros H. apply inc_pc_wrapper_run. by apply keeps_pc_balanced. Qed.

(** What [open] does before it returns: the clone [result] of the share,
    the callback [exchange] scheduled on it with a copy of the counter
    of the counted operation, and nothing on the network. *)
Lemma open_run share field receivers_arg threshold_arg s q k :
  read_pc s = q ++ [k] ->
  let receivers := default (players s) receivers_arg in
  let thr := default (threshold s) threshold_arg in
  let result := next_deferred s in
  let l := fresh (dom (objects (write_pc (q ++ [k + 1; 0]) s))) in
  let r := open share field receivers_arg threshold_arg s in
  fst r = Return (if bool_decide (id s ∈ receivers) then Some result else None) /\
  deferred_log (snd r) =
    deferred_log s ++
      [NewShare result field None;
       AddCallback share (CbSplitResult result);
       AddCallback result (CbWrapper l (SExchange receivers thr))] /\
  deref (snd r) l = q ++ [k + 1; 0] /\
  read_pc (snd r) = q ++ [k + 1] /\
  protocols (snd r) = protocols s.
Proof.
  intros Hpc receivers thr result l r. subst r. unfold open.
  rewrite (inc_pc_wrapper_keeps _ s q k (keeps_pc_open_body _ _ _ _) Hpc).
  cbn [fst snd]. rewrite read_write_pc.
  unfold open_body, bind, get_self, clone, new_share, add_callback,
    log_deferred, schedule, save_pc, ret. simpl.
  fold receivers thr result.
  assert (Hl : l <> program_counter s).
  { intros E. pose proof (is_fresh (dom (objects (write_pc (q ++ [k + 1; 0]) s)))) as Hf.
    fold l in Hf. apply Hf. rewrite E. unfold write_pc. simpl.
    apply elem_of_dom. rewrite lookup_insert_eq. eauto. }
  destruct (bool_decide (id s ∈ receivers)); simpl.
  all: rewrite <- !app_assoc; simpl; repeat split; try done.
  all: unfold deref, write_pc; simpl; rewrite lookup_insert_ne by done.
  all: fold l; rewrite lookup_insert_eq; unfold read_pc, deref; simpl.
  all: by rewrite lookup_insert_eq.
Qed.

(** *** The sends of [exchange] *)

(** One frame [(pc, "share", v)] written to each receiver other than the
    player itself. *)
Definition send_share_all (self_id : Z) (receivers : list Z) (pc : list Z) (v : Z)
    (ps : gmap Z ShareExchanger) : gmap Z ShareExchanger :=
  fold_left
    (fun ps peer =>
       if decide (peer = self_id) then ps
       else match ps !! peer with
            | Some p => <[peer := sendData pc "share" (DInt v) p]> ps
            | None => ps
            end)
    receivers ps.

Definition connections_to (l : list Z) (s : Runtime) : Prop :=
  forall peer, peer ∈ l -> peer <> id s -> is_Some (protocols s !! peer).


Lemma send_share_all_cons self_id x l pc v ps :
  send_share_all self_id (x :: l) pc v ps =
    send_share_all self_id l pc v
      (if decide (x = self_id) then ps
       else match ps !! x with
            | Some p => <[x := sendData pc "share" (DInt v) p]> ps
            | None => ps
            end).
Proof. reflexivity. Qed.

Lemma send_share_all_not_in self_id receivers pc v ps (peer : Z) :
  peer ∉ receivers ->
  send_share_all self_id receivers pc v ps !! peer = ps !! peer.
Proof.
  revert ps. induction receivers as [|x l IH]; intros ps Hn; [done|].
  rewrite send_share_all_cons.
  apply not_elem_of_cons in Hn as [Hne Hn].
  rewrite IH by done.
  destruct (decide (x = self_id)); [done|]. destruct (ps !! x) eqn:E; [|done].
  by rewrite lookup_insert_ne.
Qed.

(** Each receiver other than the player gets the frame, once. *)
Lemma send_share_all_lookup self_id receivers pc v ps (peer : Z) p :
  NoDup receivers -> peer ∈ receivers -> peer <> self_id ->
  ps !! peer = Some p ->
  send_share_all self_id receivers pc v ps !! peer
  = Some (sendData pc "share" (DInt v) p).
Proof.
  revert ps. induction receivers as [|x l IH]; intros ps Hnd Hin Hne Hp.
  - by apply not_elem_of_nil in Hin.
  - apply NoDup_cons in Hnd as [Hx Hnd].
    rewrite send_share_all_cons.
    destruct (decide (peer = x)) as [->|Hpx].
    + rewrite send_share_all_not_in by done.
      rewrite decide_False by done. rewrite Hp. by rewrite lookup_insert_eq.
    + apply elem_of_cons in Hin as [Hin|Hin]; [done|].
      apply IH; [done | done | done |].
      destruct (decide (x = self_id)); [done|]. destruct (ps !! x); [|done].
      by rewrite lookup_insert_ne.
Qed.

(** *** Steps that return and keep the setup of the runtime

    [same_setup s s']: the identity, the players and the threshold are the
    same, and every connection is still there with the same frames
    written on it. *)
Definition same_setup (s s' : Runtime) : Prop :=
  id s' = id s /\ players s' = players s /\ threshold s' = threshold s /\
  forall peer p, protocols s !! peer = Some p ->
                 exists p', protocols s' !! peer = Some p' /\
                            transport p' = transport p.

Definition runs_ok {A} (m : M A) (s : Runtime) : Prop :=
  exists a s', m s = (Return a, s') /\ same_setup s s'.

Lemma same_setup_refl s : same_setup s s.
Proof. repeat split. eauto. Qed.

Lemma same_setup_trans s1 s2 s3 :
  same_setup s1 s2 -> same_setup s2 s3 -> same_setup s1 s3.
Proof.
  intros (A1 & A2 & A3 & A4) (B1 & B2 & B3 & B4).
  repeat split; try congruence.
  intros peer p Hp. destruct (A4 peer p Hp) as (p' & Hp' & Ht).
  destruct (B4 peer p' Hp') as (p'' & Hp'' & Ht'). exists p''. split; congruence.
Qed.

Lemma same_setup_connections l s s' :
  same_setup s s' -> connections_to l s -> connections_to l s'.
Proof.
  intros (A1 & _ & _ & A4) Hc peer Hin Hne. rewrite A1 in Hne.
  destruct (Hc peer Hin Hne) as [p Hp].
  destruct (A4 peer p Hp) as (p' & Hp' & _). eauto.
Qed.

Lemma runs_ok_bind {A B} (m : M A) (f : A -> M B) s :
  runs_ok m s ->
  (forall a s', m s = (Return a, s') -> same_setup s s' -> runs_ok (f a) s') ->
  runs_ok (bind m f) s.
Proof.
  intros (a & s' & Hm & Hs) Hf.
  destruct (Hf a s' Hm Hs) as (b & s'' & Hfa & Hs').
  exists b, s''. unfold bind. rewrite Hm. split; [done|].
  by apply (same_setup_trans s s' s'').
Qed.

Lemma runs_ok_ret {A} (a : A) s : runs_ok (ret a) s.
Proof. exists a, s. split; [done | apply same_setup_refl]. Qed.

Lemma runs_ok_new_share field v s : runs_ok (new_share field v) s.
Proof. eexists _, _. split; [reflexivity|]. repeat split. eauto. Qed.

Lemma runs_ok_log_deferred op s : runs_ok (log_deferred op) s.
Proof. eexists _, _. split; [reflexivity|]. repeat split. eauto. Qed.



Lemma runs_ok_expect_data peer ty d s :
  peer <> id s -> is_Some (protocols s !! peer) ->
  runs_ok (_expect_data peer ty d) s.
Proof.
  intros Hne [p Hp]. unfold runs_ok, _expect_data.
  rewrite decide_False by done. rewrite Hp.
  destruct (expect_data_at (read_pc s, ty) d p) as [fired p'] eqn:E.
  eexists _, _. split; [reflexivity|]. repeat split. simpl.
  intros peer' q Hq. rewrite lookup_insert. case_decide; [|eauto].
  subst peer'. exists p'. split; [done|].
  assert (q = p) as -> by congruence.
  unfold expect_data_at in E.
  destruct (default [] (incoming_data p !! (read_pc s, ty))) as [|[w|x] rest];
    injection E as _ <-; try reflexivity.
  unfold popleft_at. by destruct rest.
Qed.

Lemma runs_ok_expect_share peer field s :
  peer <> id s -> is_Some (protocols s !! peer) ->
  runs_ok (_expect_share peer field) s.
Proof.
  intros Hne Hp. unfold _expect_share.
  apply runs_ok_bind; [apply runs_ok_new_share|]. intros d s1 _ Hs1.
  apply runs_ok_bind; [apply runs_ok_log_deferred|]. intros _ s2 _ Hs2.
  pose proof (same_setup_trans _ _ _ Hs1 Hs2) as Hs.
  apply runs_ok_bind.
  { apply runs_ok_expect_data.
    - destruct Hs as (-> & _). done.
    - destruct Hp as [p Hp]. destruct Hs as (_ & _ & _ & H).
      destruct (H peer p Hp) as (p' & Hp' & _). eauto. }
  intros fired s3 _ _.
  apply runs_ok_bind; [|intros; apply runs_ok_ret].
  destruct fired as [[? ?]|]; [apply runs_ok_log_deferred | apply runs_ok_ret].
Qed.

Lemma runs_ok_collect {A B} (l : list A) (body : A -> M B) (P : A -> Runtime -> Prop) s :
  (forall x s1 s2, P x s1 -> same_setup s1 s2 -> P x s2) ->
  (forall x s1, x ∈ l -> P x s1 -> runs_ok (body x) s1) ->
  (forall x, x ∈ l -> P x s) ->
  exists ys s', collect l body s = (Return ys, s') /\ same_setup s s' /\
                length ys = length l.
Proof.
  intros Hmono Hbody. revert s. induction l as [|x l IH]; intros s HP.
  - exists [], s. repeat split. eauto.
  - destruct (Hbody x s) as (y & s1 & Hy & Hs1); [by left | apply HP; by left |].
    destruct (IH ltac:(intros; apply Hbody; [by right | done]) s1)
      as (ys & s' & Hys & Hs' & Hlen).
    { intros z Hz. apply (Hmono z s s1); [|done]. apply HP. by right. }
    exists (y :: ys), s'. cbn [collect]. unfold bind. rewrite Hy, Hys.
    split; [done|]. split; [by apply (same_setup_trans s s1 s')|].
    simpl. by rewrite Hlen.
Qed.

Lemma for_each_add_callback {A} (l : list A) (g : A -> Deferred) (h : A -> callback) s :
  for_each l (fun x => add_callback (g x) (h x)) s =
    (Return tt,
     set_deferred_log (deferred_log s ++ map (fun x => AddCallback (g x) (h x)) l) s).
Proof.
  revert s. induction l as [|x l IH]; intros s.
  - simpl. rewrite app_nil_r. unfold ret. by destruct s.
  - cbn [for_each map]. unfold bind, add_callback, log_deferred at 1.
    rewrite IH. simpl. by rewrite <- app_assoc.
Qed.

Lemma keeps_pc_recombine_body shares field threshold :
  keeps_pc (_recombine_body shares field threshold).
Proof.
  unfold _recombine_body.
  apply keeps_pc_bind; [apply keeps_pc_assert|]. intros _.
  destruct (ShareList_init shares _); [|apply keeps_pc_raise].
  repeat (apply keeps_pc_bind; intros);
    auto using keeps_pc_new_share, keeps_pc_add_callback, keeps_pc_ret.
  apply keeps_pc_for_each. intros. apply keeps_pc_add_callback.
Qed.

(** [_recombine] on more than [threshold] shares: the share list it
    returns, with [_callback_fired] registered on every share and the two
    callbacks of the reconstruction added to it. *)
Lemma recombine_run shares field thr s q k :
  read_pc s = q ++ [k] ->
  0 <= thr < Z.of_nat (length shares) ->
  let r := next_deferred s in
  exists s',
    _recombine shares field thr s = (Return r, s') /\
    deferred_log s' =
      deferred_log s ++
        [NewShare r field None] ++
        map (fun ix => AddCallback (snd ix) (CbCallbackFired r (fst ix)))
            (enumerate shares) ++
        [AddCallback r (CbFilterGoodShares thr); AddCallback r CbRecombine] /\
    same_setup s s' /\
    read_pc s' = q ++ [k + 1].
Proof.
  intros Hpc Hthr r. unfold _recombine.
  rewrite (inc_pc_wrapper_keeps _ s q k (keeps_pc_recombine_body _ _ _) Hpc).
  eexists. split; [|split; [|split]].
  - f_equal. unfold _recombine_body, bind, assert.
    assert ((thr <? Z.of_nat (length shares)) = true) as -> by (apply Z.ltb_lt; lia).
    unfold ret at 1. unfold ShareList_init.
    assert (negb (0 <? Z.of_nat (length shares)) = false) as ->.
    { apply negb_false_iff, Z.ltb_lt. lia. }
    assert ((0 <? thr + 1) && (thr + 1 <=? Z.of_nat (length shares)) = true) as ->.
    { apply andb_true_iff. split; [apply Z.ltb_lt | apply Z.leb_le]; lia. }
    unfold new_share at 1. rewrite for_each_add_callback. reflexivity.
  - unfold _recombine_body, bind, assert.
    assert ((thr <? Z.of_nat (length shares)) = true) as -> by (apply Z.ltb_lt; lia).
    unfold ret at 1. unfold ShareList_init.
    assert (negb (0 <? Z.of_nat (length shares)) = false) as ->.
    { apply negb_false_iff, Z.ltb_lt. lia. }
    assert ((0 <? thr + 1) && (thr + 1 <=? Z.of_nat (length shares)) = true) as ->.
    { apply andb_true_iff. split; [apply Z.ltb_lt | apply Z.leb_le]; lia. }
    unfold new_share at 1. rewrite for_each_add_callback.
    unfold add_callback, log_deferred, ret. simpl.
    rewrite <- !app_assoc. reflexivity.
  - repeat split; try reflexivity.
    + destruct (keeps_pc_recombine_body shares field thr
                 (write_pc (q ++ [k + 1; 0]) s)) as [_ _].
      unfold _recombine_body, bind, assert.
      destruct (thr <? _); [|reflexivity]. unfold ret at 1.
      destruct (ShareList_init shares _); [|reflexivity].
      unfold new_share at 1. rewrite for_each_add_callback. reflexivity.
    + unfold _recombine_body, bind, assert.
      destruct (thr <? _); [|reflexivity]. unfold ret at 1.
      destruct (ShareList_init shares _); [|reflexivity].
      unfold new_share at 1. rewrite for_each_add_callback. reflexivity.
    + unfold _recombine_body, bind, assert.
      destruct (thr <? _); [|reflexivity]. unfold ret at 1.
      destruct (ShareList_init shares _); [|reflexivity].
      unfold new_share at 1. rewrite for_each_add_callback. reflexivity.
    + intros peer p Hp. exists p. split; [|done]. rewrite <- Hp.
      unfold _recombine_body, bind, assert.
      destruct (thr <? _); [|reflexivity]. unfold ret at 1.
      destruct (ShareList_init shares _); [|reflexivity].
      unfold new_share at 1. rewrite for_each_add_callback. reflexivity.
  - apply read_write_pc.
Qed.

Lemma send_share_all_is_Some self_id receivers pc v ps (peer : Z) :
  is_Some (ps !! peer) ->
  is_Some (send_share_all self_id receivers pc v ps !! peer).
Proof.
  revert ps. induction receivers as [|x l IH]; intros ps H; [done|].
  cbn [send_share_all fold_left]. fold (send_share_all self_id l pc v).
  apply IH. case_decide; [done|]. destruct (ps !! x) eqn:E; [|done].
  rewrite lookup_insert. case_decide; eauto.
Qed.









(** Player 1 of three players, threshold 1, connected to players 2 and
    3. *)
Definition example_runtime3 : Runtime :=
  add_player 3 (connected 3) (add_player 2 (connected 2) example_runtime).

(** *** The order of deliveries on one connection *)

(** One event, with the [Deferred] that gets its [callback(data)], if
    any. *)
Definition step_out (p : ShareExchanger) (e : event)
    : option (Deferred * data) * ShareExchanger :=
  match e with
  | Received pc ty d =>
      match stringReceived (WData pc ty d) p with
      | (Return o, p') => (o, p')
      | (Raise _, p') => (None, p')
      end
  | Expected k deferred => expect_data_at k deferred p
  end.

(** A sequence of events, with the deliveries in the order they are
    made. *)
Fixpoint run_out (events : list event) (p : ShareExchanger)
    : list (Deferred * data) * ShareExchanger :=
  match events with
  | [] => ([], p)
  | e :: events' =>
      let '(o, p') := step_out p e in
      let '(os, p'') := run_out events' p' in
      (match o with Some x => x :: os | None => os end, p'')
  end.

(** The deque of a key, empty when the key is absent. *)
Definition queue_at (p : ShareExchanger) (k : key) : list entry :=
  default [] (incoming_data p !! k).

(** The dictionary with the deque of [k] set to [l]; an empty deque is
    deleted. *)
Definition set_queue (k : key) (l : list entry) (m : gmap key (list entry))
    : gmap key (list entry) :=
  match l with
  | [] => delete k m
  | _ :: _ => <[k := l]> m
  end.

Lemma set_queue_set_queue k l l' m :
  set_queue k l (set_queue k l' m) = set_queue k l m.
Proof.
  destruct l, l'; simpl;
    by rewrite ?delete_delete_eq, ?delete_insert_eq, ?insert_delete_eq,
               ?insert_insert_eq.
Qed.

Lemma set_queue_absent k m : m !! k = None -> set_queue k [] m = m.
Proof. intros H. simpl. by apply delete_id. Qed.

Lemma set_queue_other k k' l m : k <> k' -> set_queue k l m !! k' = m !! k'.
Proof.
  intros H. destruct l; simpl; [by rewrite lookup_delete_ne | by rewrite lookup_insert_ne].
Qed.

Lemma queue_at_set_queue k l p :
  queue_at (set_incoming_data (set_queue k l (incoming_data p)) p) k = l.
Proof.
  unfold queue_at. destruct l; simpl;
    [by rewrite lookup_delete_eq | by rewrite lookup_insert_eq].
Qed.

Lemma peer_id_set_incoming_data i p : peer_id (set_incoming_data i p) = peer_id p.
Proof. reflexivity. Qed.

Lemma set_incoming_data_twice i i' p :
  set_incoming_data i (set_incoming_data i' p) = set_incoming_data i p.
Proof. reflexivity. Qed.

(** The connection [p] with the deque of [k] set to [l]. *)
Definition with_queue (k : key) (l : list entry) (p : ShareExchanger) : ShareExchanger :=
  set_incoming_data (set_queue k l (incoming_data p)) p.

Lemma with_queue_with_queue k l l' p :
  with_queue k l (with_queue k l' p) = with_queue k l p.
Proof.
  unfold with_queue. simpl. by rewrite set_queue_set_queue.
Qed.

Lemma with_queue_absent k p : incoming_data p !! k = None -> with_queue k [] p = p.
Proof.
  intros H. unfold with_queue. rewrite set_queue_absent by done. by destruct p.
Qed.

Lemma queue_at_with_queue k l p : queue_at (with_queue k l p) k = l.
Proof. apply queue_at_set_queue. Qed.

Lemma popleft_at_with_queue k rest p : popleft_at k rest p = with_queue k rest p.
Proof. by destruct rest. Qed.

Lemma append_at_with_queue k deq x p : append_at k deq x p = with_queue k (deq ++ [x]) p.
Proof. by destruct deq. Qed.

(** A string received while no [Deferred] waits at the head: it is
    appended. *)
Lemma step_out_received_buffer pc ty d p xs n :
  peer_id p = Some n ->
  step_out (with_queue (pc, ty) (map Payload xs) p) (Received pc ty d) =
    (None, with_queue (pc, ty) (map Payload (xs ++ [d])) p).
Proof.
  intros Hid. unfold step_out, stringReceived.
  change (peer_id (with_queue _ _ p)) with (peer_id p). rewrite Hid.
  fold (queue_at (with_queue (pc, ty) (map Payload xs) p) (pc, ty)).
  rewrite queue_at_with_queue, map_app.
  destruct xs as [|x xs]; simpl; f_equal;
    rewrite append_at_with_queue; by rewrite with_queue_with_queue.
Qed.

(** A string received while a [Deferred] waits: the first one gets it. *)
Lemma step_out_received_deliver pc ty d p w ws n :
  peer_id p = Some n ->
  step_out (with_queue (pc, ty) (map Waiter (w :: ws)) p) (Received pc ty d) =
    (Some (w, d), with_queue (pc, ty) (map Waiter ws) p).
Proof.
  intros Hid. unfold step_out, stringReceived.
  change (peer_id (with_queue _ _ p)) with (peer_id p). rewrite Hid.
  fold (queue_at (with_queue (pc, ty) (map Waiter (w :: ws)) p) (pc, ty)).
  rewrite queue_at_with_queue. cbn [map]. f_equal.
  rewrite popleft_at_with_queue. by rewrite with_queue_with_queue.
Qed.

Lemma step_out_expected_wait k w p ws :
  step_out (with_queue k (map Waiter ws) p) (Expected k w) =
    (None, with_queue k (map Waiter (ws ++ [w])) p).
Proof.
  unfold step_out, expect_data_at.
  fold (queue_at (with_queue k (map Waiter ws) p) k).
  rewrite queue_at_with_queue, map_app.
  destruct ws as [|x ws]; simpl; f_equal;
    rewrite append_at_with_queue; by rewrite with_queue_with_queue.
Qed.

Lemma step_out_expected_deliver k w p x xs :
  step_out (with_queue k (map Payload (x :: xs)) p) (Expected k w) =
    (Some (w, x), with_queue k (map Payload xs) p).
Proof.
  unfold step_out, expect_data_at.
  fold (queue_at (with_queue k (map Payload (x :: xs)) p) k).
  rewrite queue_at_with_queue. cbn [map]. f_equal.
  rewrite popleft_at_with_queue. by rewrite with_queue_with_queue.
Qed.

Lemma run_out_app es1 es2 p :
  run_out (es1 ++ es2) p =
    let '(os1, p1) := run_out es1 p in
    let '(os2, p2) := run_out es2 p1 in
    (os1 ++ os2, p2).
Proof.
  revert p. induction es1 as [|e es1 IH]; intros p; simpl.
  - by destruct (run_out es2 p).
  - destruct (step_out p e) as [o p']. rewrite IH.
    destruct (run_out es1 p') as [os1 p1]. destruct (run_out es2 p1) as [os2 p2].
    by destruct o.
Qed.

(** Strings that arrive while nothing is expected are buffered, in the
    order of arrival. *)
Lemma run_out_buffer pc ty ds p xs n :
  peer_id p = Some n ->
  run_out (map (Received pc ty) ds) (with_queue (pc, ty) (map Payload xs) p) =
    ([], with_queue (pc, ty) (map Payload (xs ++ ds)) p).
Proof.
  intros Hid. revert xs. induction ds as [|d ds IH]; intros xs.
  - simpl. by rewrite app_nil_r.
  - cbn [map run_out]. rewrite (step_out_received_buffer pc ty d p xs n Hid).
    rewrite IH. by rewrite <- app_assoc.
Qed.

(** Waiters registered while data is buffered take it from the head. *)
Lemma run_out_serve k ws p xs :
  (length ws <= length xs)%nat ->
  run_out (map (Expected k) ws) (with_queue k (map Payload xs) p) =
    (zip ws (take (length ws) xs),
     with_queue k (map Payload (drop (length ws) xs)) p).
Proof.
  revert xs. induction ws as [|w ws IH]; intros xs Hlen.
  - by rewrite drop_0.
  - destruct xs as [|x xs]; [simpl in Hlen; lia|].
    cbn [map run_out]. change (Payload x :: map Payload xs) with (map Payload (x :: xs)).
    rewrite (step_out_expected_deliver k w p x xs).
    rewrite IH by (simpl in Hlen; lia). reflexivity.
Qed.

Lemma run_out_wait k ws p vs :
  run_out (map (Expected k) ws) (with_queue k (map Waiter vs) p) =
    ([], with_queue k (map Waiter (vs ++ ws)) p).
Proof.
  revert vs. induction ws as [|w ws IH]; intros vs.
  - simpl. by rewrite app_nil_r.
  - cbn [map run_out]. rewrite (step_out_expected_wait k w p vs).
    rewrite IH. by rewrite <- app_assoc.
Qed.

Lemma run_out_feed pc ty ds p ws n :
  peer_id p = Some n ->
  (length ds <= length ws)%nat ->
  run_out (map (Received pc ty) ds) (with_queue (pc, ty) (map Waiter ws) p) =
    (zip (take (length ds) ws) ds,
     with_queue (pc, ty) (map Waiter (drop (length ds) ws)) p).
Proof.
  intros Hid. revert ws. induction ds as [|d ds IH]; intros ws Hlen.
  - by rewrite drop_0.
  - destruct ws as [|w ws]; [simpl in Hlen; lia|].
    cbn [map run_out]. change (Waiter w :: map Waiter ws) with (map Waiter (w :: ws)).
    rewrite (step_out_received_deliver pc ty d p w ws n Hid).
    rewrite IH by (simpl in Hlen; lia). reflexivity.
Qed.

Definition event_key (e : event) : key :=
  match e with
  | Received pc ty _ => (pc, ty)
  | Expected k _ => k
  end.

Lemma step_out_other_key p e (k' : key) :
  event_key e <> k' ->
  incoming_data (snd (step_out p e)) !! k' = incoming_data p !! k'.
Proof.
  intros Hne. destruct e as [pc ty d | k w]; simpl in Hne.
  - unfold step_out, stringReceived. destruct (peer_id p); [|done].
    destruct (default [] (incoming_data p !! (pc, ty))) as [|[w|x] rest]; simpl.
    + by rewrite lookup_insert_ne.
    + unfold popleft_at. destruct rest; simpl;
        [by rewrite lookup_delete_ne | by rewrite lookup_insert_ne].
    + by rewrite lookup_insert_ne.
  - unfold step_out, expect_data_at.
    destruct (default [] (incoming_data p !! k)) as [|[w'|x] rest]; simpl.
    + by rewrite lookup_insert_ne.
    + by rewrite lookup_insert_ne.
    + unfold popleft_at. destruct rest; simpl;
        [by rewrite lookup_delete_ne | by rewrite lookup_insert_ne].
Qed.

(** *** Counted operations in sequence *)

(** A method that notes the program counter it starts with. *)
Definition noting_pc {A} (method : M A) : M (list Z) :=
  pc <- tuple_program_counter ;; method ;;; ret pc.

(** A method that returns normally, whatever the (non-empty) counter. *)
Definition returns {A} (method : M A) : Prop :=
  forall s, read_pc s <> [] -> exists a, fst (method s) = Return a.

Lemma balanced_noting_pc {A} (method : M A) :
  balanced method -> balanced (noting_pc method).
Proof.
  intros H. unfold noting_pc.
  apply balanced_bind; [apply keeps_pc_balanced, keeps_pc_tuple_program_counter|].
  intros pc. apply balanced_bind; [done|]. intros _. apply balanced_ret.
Qed.

Lemma write_pc_same s pc : read_pc s = pc -> pc <> [] -> write_pc pc s = s.
Proof.
  intros H Hne. unfold write_pc, set_objects. destruct s as [i t o pcr po nd np pl pr nx dl].
  unfold read_pc, deref in H. simpl in *. f_equal.
  apply insert_id. destruct (o !! pcr); simpl in H; congruence.
Qed.

Lemma noting_pc_run {A} (method : M A) s q k :
  balanced method -> returns method ->
  read_pc s = q ++ [k] ->
  exists s',
    inc_pc_wrapper (noting_pc method) s = (Return (q ++ [k + 1; 0]), s') /\
    read_pc s' = q ++ [k + 1].
Proof.
  intros Hb Hr Hpc.
  rewrite (inc_pc_wrapper_run _ s q k (balanced_noting_pc _ Hb) Hpc).
  eexists. split; [|apply read_write_pc]. f_equal.
  unfold noting_pc, bind, tuple_program_counter. rewrite read_write_pc.
  destruct (Hr (write_pc (q ++ [k + 1; 0]) s)) as [a Ha].
  { rewrite read_write_pc. by destruct q. }
  destruct (method _) as [o s1]. simpl in Ha. by subst o.
Qed.

(** The counters [q ++ [k + 1; 0]], ..., [q ++ [k + n; 0]]. *)
Definition counters_after (q : list Z) (k : Z) (n : nat) : list (list Z) :=
  map (fun i => q ++ [k + Z.of_nat i; 0]) (seq 1 n).

Lemma counters_after_S q k n :
  counters_after q k (S n) = (q ++ [k + 1; 0]) :: counters_after q (k + 1) n.
Proof.
  unfold counters_after. cbn [seq map]. f_equal.
  rewrite <- fmap_S_seq. change (map ?f (S <$> ?l)) with (map f (map S l)).
  rewrite map_map. apply map_ext. intros i. do 2 f_equal. lia.
Qed.

Lemma collect_noting_pc {A} (ms : list (M A)) s q k :
  Forall balanced ms -> Forall returns ms ->
  read_pc s = q ++ [k] ->
  exists s',
    collect ms (fun m => inc_pc_wrapper (noting_pc m)) s =
      (Return (counters_after q k (length ms)), s') /\
    read_pc s' = q ++ [k + Z.of_nat (length ms)].
Proof.
  revert s k. induction ms as [|m ms IH]; intros s k Hb Hr Hpc.
  - exists s. split; [done|]. simpl. by rewrite Z.add_0_r.
  - apply Forall_cons in Hb as [Hb Hbs]. apply Forall_cons in Hr as [Hr Hrs].
    destruct (noting_pc_run m s q k Hb Hr Hpc) as (s1 & H1 & Hpc1).
    destruct (IH s1 (k + 1) Hbs Hrs Hpc1) as (s' & H' & Hpc').
    exists s'. split.
    + cbn [collect]. unfold bind at 1. rewrite H1.
      unfold bind at 1. rewrite H'.
      change (length (m :: ms)) with (S (length ms)). by rewrite counters_after_S.
    + rewrite Hpc'. do 2 f_equal. cbn [length]. lia.
Qed.
(** *** Callbacks scheduled from the same method *)

(** A computation that works on the program counter only through
    [self.program_counter]: it leaves the reference as it is and does not
    write to the other list objects that exist. *)
Definition local_pc {A} (m : M A) : Prop :=
  forall s,
    program_counter (snd (m s)) = program_counter s /\
    forall l, l <> program_counter s -> is_Some (objects s !! l) ->
              objects (snd (m s)) !! l = objects s !! l.

Lemma local_pc_ret {A} (a : A) : local_pc (ret a).
Proof. by intros s. Qed.

Lemma local_pc_raise {A} e : local_pc (@raise A e).
Proof. by intros s. Qed.

Lemma local_pc_bind {A B} (m : M A) (f : A -> M B) :
  local_pc m -> (forall a, local_pc (f a)) -> local_pc (bind m f).
Proof.
  intros Hm Hf s. unfold bind. destruct (Hm s) as [H1 H2].
  destruct (m s) as [[a|e] s']; simpl in *; [|done].
  destruct (Hf a s') as [H3 H4]. split; [congruence|].
  intros l Hl Hs. rewrite H4; [by apply H2 | congruence |].
  rewrite H2; done.
Qed.

Lemma local_pc_write_pc pc s l :
  l <> program_counter s -> objects (write_pc pc s) !! l = objects s !! l.
Proof. intros H. unfold write_pc. simpl. by rewrite lookup_insert_ne. Qed.

Lemma local_pc_increment_last : local_pc pc_increment_last.
Proof.
  intros s. unfold pc_increment_last. destruct (last (read_pc s)); simpl; [|done].
  split; [done|]. intros l Hl _. by apply local_pc_write_pc.
Qed.

Lemma local_pc_append n : local_pc (pc_append n).
Proof.
  intros s. unfold pc_append. simpl. split; [done|].
  intros l Hl _. by apply local_pc_write_pc.
Qed.

Lemma local_pc_pop : local_pc pc_pop.
Proof.
  intros s. unfold pc_pop. destruct (last (read_pc s)); simpl; [|done].
  split; [done|]. intros l Hl _. by apply local_pc_write_pc.
Qed.

Lemma local_pc_try_finally {A} (body : M A) (fin : M unit) :
  local_pc body -> local_pc fin -> local_pc (try_finally body fin).
Proof.
  intros Hb Hf s. unfold try_finally. destruct (Hb s) as [H1 H2].
  destruct (body s) as [o s']. destruct (Hf s') as [H3 H4].
  destruct (fin s') as [[u|e] s'']; simpl in *.
  all: split; [congruence|]; intros l Hl Hs;
    (rewrite H4; [by apply H2 | congruence | rewrite H2; done]).
Qed.

Lemma local_pc_inc_pc_wrapper {A} (method : M A) :
  local_pc method -> local_pc (inc_pc_wrapper method).
Proof.
  intros H. unfold inc_pc_wrapper. apply local_pc_try_finally; [|apply local_pc_pop].
  apply local_pc_bind; [apply local_pc_increment_last|]. intros _.
  apply local_pc_bind; [apply local_pc_append | done].
Qed.

Lemma local_pc_tuple_program_counter : local_pc tuple_program_counter.
Proof. by intros s. Qed.

Lemma save_pc_run s :
  save_pc s = (Return (fresh (dom (objects s))),
               set_objects (<[fresh (dom (objects s)) := read_pc s]> (objects s)) s).
Proof. reflexivity. Qed.

Lemma schedule_callback_run {V A} (f : V -> M A) s :
  schedule_callback f s =
    (Return (mkWrapper (fresh (dom (objects s))) f),
     set_objects (<[fresh (dom (objects s)) := read_pc s]> (objects s)) s).
Proof. reflexivity. Qed.

(** *** Filling the pool: the [update] of [BasicRuntime.preprocess] *)

Definition set_pool (p : gmap (list Z) Deferred) (s : Runtime) : Runtime :=
  mkRuntime (id s) (threshold s) (objects s) (program_counter s) p
            (_needed_data s) (num_players s) (players s) (protocols s)
            (next_deferred s) (deferred_log s).

(** [dict.update(pairs)]: the pairs are stored in order, a later pair for
    the same key replaces an earlier one. *)
Definition dict_update {K V} `{Countable K} (pairs : list (K * V)) (m : gmap K V)
    : gmap K V :=
  fold_left (fun m kv => <[fst kv := snd kv]> m) pairs m.

(** The pool part of [update(results, program_counters)]: the sub-lists of
    [results] are concatenated and zipped with the program counters (the
    longer list is cut); [ds] holds, for each sub-list, the [Deferred]s
    that [succeed] makes of its items. *)
Definition pool_update (program_counters : list (list Z)) (ds : list (list Deferred))
    (s : Runtime) : Runtime :=
  set_pool (dict_update (zip program_counters (concat ds)) (_pool s)) s.

Lemma dict_update_cons {K V} `{Countable K} k v (pairs : list (K * V)) (m : gmap K V) :
  dict_update ((k, v) :: pairs) m = dict_update pairs (<[k := v]> m).
Proof. reflexivity. Qed.

Lemma dict_update_not_in {K V} `{Countable K} (pairs : list (K * V)) (m : gmap K V) k :
  k ∉ map fst pairs -> dict_update pairs m !! k = m !! k.
Proof.
  revert m. induction pairs as [|[k' v] pairs IH]; intros m Hn; [done|].
  rewrite dict_update_cons.
  cbn [map fst] in Hn. apply not_elem_of_cons in Hn as [Hne Hn].
  rewrite IH by done. by rewrite lookup_insert_ne.
Qed.

Lemma dict_update_lookup {K V} `{Countable K} (pairs : list (K * V)) (m : gmap K V)
    (i : nat) k v :
  NoDup (map fst pairs) -> pairs !! i = Some (k, v) ->
  dict_update pairs m !! k = Some v.
Proof.
  revert m i. induction pairs as [|[k' v'] pairs IH]; intros m i Hnd Hi; [done|].
  cbn [map fst] in Hnd. apply NoDup_cons in Hnd as [Hk' Hnd].
  rewrite dict_update_cons.
  destruct i as [|i]; simpl in Hi.
  - injection Hi as -> ->. rewrite dict_update_not_in by done.
    by rewrite lookup_insert_eq.
  - by apply (IH _ i).
Qed.

Lemma map_fst_zip_sublist {A B} (l : list A) (k : list B) :
  map fst (zip l k) = take (length k) l.
Proof.
  revert k. induction l as [|x l IH]; intros [|y k]; simpl; try done.
  by rewrite IH.
Qed.

Lemma needed_data_append_twice key pc1 pc2 s :
  _needed_data (needed_data_append key pc2 (needed_data_append key pc1 s)) !! key =
    Some (default [] (_needed_data s !! key) ++ [pc1; pc2]).
Proof.
  unfold needed_data_append. simpl. rewrite !lookup_insert_eq. simpl.
  by rewrite <- app_assoc.
Qed.

(** *** [gather_shares] *)

(** [filter_results]: [[share for (_, share) in results]]; unpacking a
    [None] raises [TypeError]. *)
Fixpoint filter_results {V} (results : list (option (bool * V))) : outcome (list V) :=
  match results with
  | [] => Return []
  | None :: _ => Raise (OtherError 4)
  | Some (_, share) :: results' =>
      match filter_results results' with
      | Return l => Return (share :: l)
      | Raise e => Raise e
      end
  end.

Lemma filter_results_map {V} (l : list (bool * V)) :
  filter_results (map Some l) = Return (map snd l).
Proof.
  induction l as [|[b v] l IH]; [done|]. cbn [map filter_results]. by rewrite IH.
Qed.

(** With distinct indices, the resolution found for an index is the one
    that carries it. *)
Lemma find_res_index {V} (rs : list (resolution V)) (r : resolution V) :
  NoDup (map res_index rs) -> r ∈ rs ->
  find (fun x => Nat.eqb (res_index x) (res_index r)) rs = Some r.
Proof.
  induction rs as [|x rs IH]; intros Hnd Hin; [by apply not_elem_of_nil in Hin|].
  cbn [map] in Hnd. apply NoDup_cons in Hnd as [Hx Hnd].
  cbn [find]. apply elem_of_cons in Hin as [->|Hin].
  - by rewrite Nat.eqb_refl.
  - destruct (Nat.eqb_spec (res_index x) (res_index r)) as [E|N]; [|by apply IH].
    exfalso. apply Hx. rewrite E. apply list_elem_of_In, in_map.
    by apply list_elem_of_In.
Qed.

(** When as many shares have resolved as there are, with distinct indices
    below [n], every index has resolved. *)
Lemma all_indices_resolved {V} (n : nat) (rs : list (resolution V)) (i : nat) :
  NoDup (map res_index rs) ->
  Forall (fun r => (res_index r < n)%nat) rs ->
  length rs = n -> (i < n)%nat ->
  exists r, r ∈ rs /\ res_index r = i.
Proof.
  intros Hnd Hin Hlen Hi.
  assert (Hsub : map res_index rs ⊆+ seq 0 n).
  { apply NoDup_submseteq; [done|]. intros x Hx.
    apply list_elem_of_In, in_map_iff in Hx as (r & <- & Hr).
    rewrite Forall_forall in Hin. apply elem_of_seq.
    specialize (Hin r (proj2 (list_elem_of_In _ _) Hr)). lia. }
  assert (Hperm : map res_index rs ≡ₚ seq 0 n).
  { apply submseteq_length_Permutation; [done|].
    rewrite length_seq, length_map. lia. }
  assert (Hi' : i ∈ map res_index rs).
  { rewrite Hperm. apply elem_of_seq. lia. }
  apply list_elem_of_In, in_map_iff in Hi' as (r & E & Hr).
  exists r. split; [by apply list_elem_of_In | done].
Qed.

Lemma filter_results_found {V} (rs : list (resolution V)) (l : list nat) :
  (forall i, i ∈ l -> is_Some (find (fun x => Nat.eqb (res_index x) i) rs)) ->
  exists vs,
    filter_results
      (map (fun i => (fun r => (res_success r, res_value r)) <$>
                       find (fun x => Nat.eqb (res_index x) i) rs) l) = Return vs /\
    length vs = length l /\
    forall j i r, l !! j = Some i ->
                  find (fun x => Nat.eqb (res_index x) i) rs = Some r ->
                  vs !! j = Some (res_value r).
Proof.
  induction l as [|i l IH]; intros Hall.
  - exists []. repeat split. intros j i r Hj. by rewrite lookup_nil in Hj.
  - destruct IH as (vs & Hvs & Hlen & Hlk).
    { intros i' Hi'. apply Hall. by right. }
    destruct (Hall i) as [r Hr]; [by left|].
    exists (res_value r :: vs). cbn [map filter_results]. rewrite Hr. cbn.
    rewrite Hvs. split; [done|]. split; [simpl; by rewrite Hlen|].
    intros [|j] i' r' Hj Hf; simpl in *.
    + injection Hj as <-. congruence.
    + by apply (Hlk j i').
Qed.

(** What [gather_shares] yields from the list its share list fires with,
    once every share has resolved. *)
Lemma gather_all {V} (n : nat) (rs : list (resolution V)) :
  NoDup (map res_index rs) ->
  Forall (fun r => (res_index r < n)%nat) rs ->
  length rs = n ->
  exists vs,
    filter_results (pairs_of n rs) = Return vs /\ length vs = n /\
    forall r, r ∈ rs -> vs !! res_index r = Some (res_value r).
Proof.
  intros Hnd Hin Hlen.
  destruct (filter_results_found rs (seq 0 n)) as (vs & Hvs & Hl & Hlk).
  { intros i Hi. apply elem_of_seq in Hi.
    destruct (all_indices_resolved n rs i Hnd Hin Hlen ltac:(lia)) as (r & Hr & <-).
    rewrite (find_res_index rs r Hnd Hr). eauto. }
  exists vs. split; [exact Hvs|]. split; [by rewrite Hl, length_seq|].
  intros r Hr. apply (Hlk (res_index r) (res_index r) r).
  - apply lookup_seq. rewrite Forall_forall in Hin. split; [done|]. by apply Hin.
  - by apply find_res_index.
Qed.

(** ** [ShareExchangerFactory]

    [f_players] lists the ids of the configuration (the keys of
    [players]); [protocols_ready] records the calls of
    [protocols_ready.callback], each with the runtime it is given. *)
Record Factory : Type := mkFactory {
  f_runtime : Runtime;
  f_players : list Z;
  needed_protocols : Z;
  protocols_ready : list Runtime
}.

(** [ShareExchangerFactory.__init__]. *)
Definition Factory_init (runtime : Runtime) (players : list Z) : Factory :=
  mkFactory runtime players (Z.of_nat (length players) - 1) [].

(** [identify_peer(protocol)]: [self.players[protocol.peer_id]] raises
    [KeyError] for an id that is not in the configuration. *)
Definition identify_peer (protocol : ShareExchanger) (f : Factory)
    : outcome unit * Factory :=
  match peer_id protocol with
  | None => (Raise KeyError, f)
  | Some n =>
      if decide (n ∈ f_players f) then
        let runtime := add_player n protocol (f_runtime f) in
        let needed := needed_protocols f - 1 in
        if needed =? 0
        then (Return tt, mkFactory runtime (f_players f) needed
                                   (protocols_ready f ++ [runtime]))
        else (Return tt, mkFactory runtime (f_players f) needed (protocols_ready f))
      else (Raise KeyError, f)
  end.

(** The peers identify themselves one after the other. *)
Definition identify_all (protocols : list ShareExchanger) (f : Factory) : Factory :=
  fold_left (fun f p => snd (identify_peer p f)) protocols f.

(** What holds while distinct peers of the configuration identify
    themselves: the runtime knows the owner and these peers, each with its
    connection, and [protocols_ready] has been called, with the runtime as
    it is, when the last of the other players has been identified. *)
Definition factory_ok (own : Z) (config : list Z) (conn : Z -> ShareExchanger)
    (ids : list Z) (f : Factory) : Prop :=
  f_players f = config /\
  id (f_runtime f) = own /\
  players (f_runtime f) = own :: ids /\
  num_players (f_runtime f) = Z.of_nat (S (length ids)) /\
  needed_protocols f = Z.of_nat (length config) - 1 - Z.of_nat (length ids) /\
  read_pc (f_runtime f) = [0] /\
  (forall i, i ∈ ids -> protocols (f_runtime f) !! i = Some (conn i)) /\
  protocols_ready f =
    (if decide (Z.of_nat (length config) - 1 <= Z.of_nat (length ids) /\ ids <> [])
     then [f_runtime f] else []).

Lemma factory_ok_init own threshold config conn s :
  BasicRuntime_init own threshold = Return s ->
  factory_ok own config conn [] (Factory_init s config).
Proof.
  unfold BasicRuntime_init. destruct (0 <? threshold); [|done].
  intros [= <-]. unfold factory_ok. simpl. repeat split; try done.
  - lia.
  - intros i Hi. by apply not_elem_of_nil in Hi.
  - rewrite decide_False; [done|]. intros [_ H]. done.
Qed.

Lemma factory_ok_step own config conn ids f n :
  factory_ok own config conn ids f ->
  peer_id (conn n) = Some n ->
  n ∈ config -> n <> own -> n ∉ ids ->
  Z.of_nat (length ids) < Z.of_nat (length config) - 1 ->
  exists f', identify_peer (conn n) f = (Return tt, f') /\
             factory_ok own config conn (ids ++ [n]) f'.
Proof.
  intros (Hc & Hid & Hpl & Hnp & Hneed & Hpc & Hpr & Hready) Hn Hin Hne Hnot Hlt.
  unfold identify_peer. rewrite Hn, Hc. rewrite decide_True by done.
  assert (Hplayers : players (add_player n (conn n) (f_runtime f)) = own :: ids ++ [n]).
  { unfold add_player. simpl. rewrite Hpl.
    rewrite decide_False; [done|]. intros H. apply elem_of_cons in H as [H|H]; done. }
  assert (Hnum : num_players (add_player n (conn n) (f_runtime f))
                 = Z.of_nat (S (length (ids ++ [n])))).
  { unfold add_player. simpl. rewrite Hpl.
    rewrite decide_False.
    - rewrite length_app. simpl. rewrite length_app. simpl. lia.
    - intros H. apply elem_of_cons in H as [H|H]; done. }
  assert (Hprot : forall i, i ∈ ids ++ [n] ->
            protocols (add_player n (conn n) (f_runtime f)) !! i = Some (conn i)).
  { intros i Hi. unfold add_player. simpl. rewrite lookup_insert.
    destruct (decide (n = i)) as [->|Hni]; [done|].
    apply Hpr. apply elem_of_app in Hi as [Hi|Hi]; [done|].
    apply list_elem_of_singleton in Hi. congruence. }
  assert (Hlen : Z.of_nat (length (ids ++ [n])) = Z.of_nat (length ids) + 1).
  { rewrite length_app. simpl. lia. }
  destruct (Z.eqb_spec (needed_protocols f - 1) 0) as [E|E].
  - eexists. split; [reflexivity|]. unfold factory_ok. simpl.
    repeat split; try done.
    + lia.
    + rewrite Hready. rewrite decide_False by lia.
      rewrite decide_True; [done|]. split; [lia | by destruct ids].
  - eexists. split; [reflexivity|]. unfold factory_ok. simpl.
    repeat split; try done.
    + lia.
    + rewrite Hready. rewrite decide_False by lia.
      rewrite decide_False; [done|]. lia.
Qed.

(** No more peers than the configuration has other players. *)
Lemma distinct_peers_bound (own : Z) (config ids : list Z) :
  own ∈ config -> NoDup ids ->
  (forall i, i ∈ ids -> i ∈ config /\ i <> own) ->
  Z.of_nat (length ids) <= Z.of_nat (length config) - 1.
Proof.
  intros Hown Hnd Hids.
  assert (Hsub : own :: ids ⊆+ config).
  { apply NoDup_submseteq.
    - apply NoDup_cons. split; [|done]. intros H. by destruct (Hids own H).
    - intros x Hx. apply elem_of_cons in Hx as [->|Hx]; [done|]. by apply Hids. }
  apply submseteq_length in Hsub. simpl in Hsub. lia.
Qed.

Lemma factory_ok_all own config conn ids0 ids f :
  factory_ok own config conn ids0 f ->
  own ∈ config -> NoDup (ids0 ++ ids) ->
  (forall i, i ∈ ids0 ++ ids -> i ∈ config /\ i <> own) ->
  (forall i, peer_id (conn i) = Some i) ->
  factory_ok own config conn (ids0 ++ ids) (identify_all (map conn ids) f).
Proof.
  revert ids0 f. induction ids as [|n ids IH]; intros ids0 f Hok Hown Hnd Hids Hconn.
  - simpl. by rewrite app_nil_r.
  - assert (Hnd' : NoDup ((ids0 ++ [n]) ++ ids)) by (by rewrite <- app_assoc).
    assert (Hn : n ∈ ids0 ++ n :: ids) by (apply elem_of_app; right; by left).
    destruct (Hids n Hn) as [Hnc Hno].
    assert (Hnot : n ∉ ids0).
    { apply NoDup_app in Hnd as (_ & H & _). intros Hx. apply (H n Hx). by left. }
    pose proof (distinct_peers_bound own config (ids0 ++ n :: ids) Hown Hnd Hids) as Hb.
    rewrite length_app in Hb. simpl in Hb.
    destruct (factory_ok_step own config conn ids0 f n Hok (Hconn n) Hnc Hno Hnot
                ltac:(lia)) as (f' & Hf' & Hok').
    cbn [map identify_all fold_left]. rewrite Hf'. cbn [snd].
    fold (identify_all (map conn ids) f').
    replace (ids0 ++ n :: ids) with ((ids0 ++ [n]) ++ ids)
      by (by rewrite <- app_assoc).
    apply IH; try done.
    intros i Hi. apply Hids. by rewrite <- app_assoc in Hi.
Qed.

(** ** [IntegerFieldElement.__invert__], [__div__]

    The loop of [extended_gcd].  Python's [//] and [%] round towards minus
    infinity, as [Z.div] and [Z.modulo] do.  [fuel] bounds the number of
    rounds of the [while] loop; [extended_gcd_loop_total] gives a bound
    that is always enough. *)
Fixpoint extended_gcd_loop (fuel : nat) (a b x lastx y lasty : Z)
    : option (Z * Z * Z) :=
  if b =? 0 then Some (lastx, lasty, a)
  else
    match fuel with
    | O => None
    | S fuel =>
        let quotient := a / b in
        extended_gcd_loop fuel b (a mod b) (lastx - quotient * x) x
                          (lasty - quotient * y) y
    end.

Definition extended_gcd (fuel : nat) (a b : Z) : option (Z * Z * Z) :=
  extended_gcd_loop fuel a b 0 1 1 0.

Definition invert {modulus : Z} (fuel : nat) (a : Field.IntegerFieldElement modulus)
    : option (Field.IntegerFieldElement modulus) :=
  match extended_gcd fuel (Field.value a) modulus with
  | Some (inverse, _, _) => Some (Field.init inverse)
  | None => None
  end.

(** [__div__]: [self * ~other]; [__rdiv__]:
    [IntegerFieldElement(other) / self]. *)
Definition div {modulus : Z} (fuel : nat) (a other : Field.IntegerFieldElement modulus)
    : option (Field.IntegerFieldElement modulus) :=
  match invert fuel other with
  | Some inverse => Some (Field.mul a inverse)
  | None => None
  end.

Definition rdiv {modulus : Z} (fuel : nat) (other : Z)
    (a : Field.IntegerFieldElement modulus)
    : option (Field.IntegerFieldElement modulus) :=
  div fuel (Field.init other) a.

(** The loop keeps [lastx * a0 + lasty * b0 = a] and
    [x * a0 + y * b0 = b], and the greatest common divisor of [a] and
    [b]; it ends within [b] rounds. *)
Lemma extended_gcd_loop_total (a0 b0 : Z) (fuel : nat) :
  forall a b x lastx y lasty,
    0 <= a -> 0 <= b -> (Z.to_nat b <= fuel)%nat ->
    lastx * a0 + lasty * b0 = a ->
    x * a0 + y * b0 = b ->
    exists u v,
      extended_gcd_loop fuel a b x lastx y lasty = Some (u, v, Z.gcd a b) /\
      u * a0 + v * b0 = Z.gcd a b.
Proof.
  induction fuel as [|fuel IH]; intros a b x lastx y lasty Ha Hb Hf H1 H2.
  - assert (b = 0) as -> by lia. simpl.
    exists lastx, lasty. rewrite Z.gcd_0_r, Z.abs_eq by done. done.
  - simpl. destruct (b =? 0) eqn:Hb0.
    + apply Z.eqb_eq in Hb0 as ->.
      exists lastx, lasty. rewrite Z.gcd_0_r, Z.abs_eq by done. done.
    + apply Z.eqb_neq in Hb0.
      pose proof (Z.mod_pos_bound a b ltac:(lia)) as Hm.
      destruct (IH b (a mod b) (lastx - a / b * x) x (lasty - a / b * y) y)
        as (u & v & Hr & Huv); try lia.
      * rewrite Z.mod_eq by done. rewrite <- H1, <- H2. ring.
      * exists u, v.
        rewrite (Z.gcd_comm b (a mod b)), Z.gcd_mod, (Z.gcd_comm b a) in Hr, Huv
          by done.
        done.
Qed.

Lemma extended_gcd_bezout (fuel : nat) (a b : Z) :
  0 <= a -> 0 <= b -> (Z.to_nat b <= fuel)%nat ->
  exists u v, extended_gcd fuel a b = Some (u, v, Z.gcd a b) /\
              u * a + v * b = Z.gcd a b.
Proof.
  intros Ha Hb Hf. apply extended_gcd_loop_total; try done; ring.
Qed.

Lemma value_bounds {modulus : Z} (a : Field.IntegerFieldElement modulus) :
  0 < modulus -> 0 <= Field.value a < modulus.
Proof.
  intros Hm. rewrite <- (Field.value_mod a). by apply Z.mod_pos_bound.
Qed.

(** [x * ~x] is the greatest common divisor of [x.value] and the
    modulus. *)
Lemma invert_gcd {modulus : Z} (fuel : nat) (a : Field.IntegerFieldElement modulus) :
  0 < modulus -> (Z.to_nat modulus <= fuel)%nat ->
  exists inverse,
    invert fuel a = Some inverse /\
    Field.mul a inverse = Field.init (Z.gcd (Field.value a) modulus).
Proof.
  intros Hm Hf.
  destruct (extended_gcd_bezout fuel (Field.value a) modulus)
    as (u & v & Hr & Huv); try lia.
  { by apply value_bounds. }
  exists (Field.init u). unfold invert. rewrite Hr. split; [done|].
  apply Field.elt_eq. unfold Field.mul. rewrite !Field.value_init.
  rewrite Zmult_mod_idemp_r. rewrite <- Huv.
  rewrite Z.mod_add by lia. f_equal. ring.
Qed.

(** ** [IntegerFieldElement.sqrt]

    The built-in [pow(base, exponent, modulus)] with three arguments
    refuses a negative exponent with a [TypeError]. *)
Definition builtin_pow (base exponent modulus : Z) : outcome Z :=
  if exponent <? 0 then Raise (OtherError 5)
  else Return (base ^ exponent mod modulus).

(** [sqrt]: [pow(self.value, (self.modulus+1)//4, self.modulus)]. *)
Definition sqrt {modulus : Z} (a : Field.IntegerFieldElement modulus)
    : outcome (Field.IntegerFieldElement modulus) :=
  match builtin_pow (Field.value a) ((modulus + 1) / 4) modulus with
  | Return root => Return (Field.init root)
  | Raise e => Raise e
  end.

(** ** The tables of [GF256Element] ([field.py])

    [_log_table], [_exp_table] and [_inv_table] are module-level
    dictionaries filled by [_generate_tables()] when the module is
    loaded.  A dictionary lookup raises [KeyError] for a missing key. *)
Record tables : Type := mkTables {
  _exp_table : gmap Z Z;
  _log_table : gmap Z Z;
  _inv_table : gmap Z Z
}.

Definition getitem (d : gmap Z Z) (k : Z) : outcome Z :=
  match d !! k with
  | Some v => Return v
  | None => Raise KeyError
  end.

Definition obind {A B} (m : outcome A) (k : A -> outcome B) : outcome B :=
  match m with
  | Return a => k a
  | Raise e => Raise e
  end.

(** One round of [for c in range(255)]. *)
Definition table_round (st : outcome (Z * gmap Z Z * gmap Z Z)) (c : Z)
    : outcome (Z * gmap Z Z * gmap Z Z) :=
  obind st (fun '(a, exp, log) =>
    let a := Z.land a 0xff in
    let exp := <[c := a]> exp in
    let d := Z.land a 0x80 in
    let a := Z.shiftl a 1 in
    let a := if d =? 0x80 then Z.lxor a 0x1b else a in
    obind (getitem exp c) (fun exp_c =>
    let a := Z.lxor a exp_c in
    Return (a, exp, <[exp_c := c]> log))).

(** One round of [for c in range(1, 255)]. *)
Definition inv_round (exp log : gmap Z Z) (inv : outcome (gmap Z Z)) (c : Z)
    : outcome (gmap Z Z) :=
  obind inv (fun inv =>
  obind (getitem log c) (fun log_c =>
  obind (getitem exp (255 - log_c)) (fun e =>
  Return (<[c := e]> inv)))).

Definition _generate_tables : outcome tables :=
  obind (fold_left table_round (seqZ 0 255) (Return (1, ∅, ∅)))
    (fun '(_, exp, log) =>
  obind (getitem exp 0) (fun exp_0 =>
  let exp := <[255 := exp_0]> exp in
  let log := <[0 := 0]> log in
  obind (fold_left (inv_round exp log) (seqZ 1 254) (Return ∅)) (fun inv =>
  Return (mkTables exp log inv)))).

(** [GF256Element.__mul__], [__invert__], [__div__] on two elements. *)
Definition gf256_mul (t : tables) (a other : Field.GF256.GF256Element)
    : outcome Field.GF256.GF256Element :=
  if (Field.GF256.value a =? 0) || (Field.GF256.value other =? 0)
  then Return (Field.GF256.init 0)
  else
    obind (getitem (_log_table t) (Field.GF256.value a)) (fun log_a =>
    obind (getitem (_log_table t) (Field.GF256.value other)) (fun log_b =>
    let log_product := (log_a + log_b) mod 255 in
    obind (getitem (_exp_table t) log_product) (fun e =>
    Return (Field.GF256.init e)))).

Definition gf256_invert (t : tables) (a : Field.GF256.GF256Element)
    : outcome Field.GF256.GF256Element :=
  obind (getitem (_inv_table t) (Field.GF256.value a)) (fun v =>
  Return (Field.GF256.init v)).

Definition gf256_div (t : tables) (a other : Field.GF256.GF256Element)
    : outcome Field.GF256.GF256Element :=
  obind (gf256_invert t other) (fun inverse => gf256_mul t a inverse).

(** The product of two polynomials over GF(2) of degree below 8, reduced
    modulo [x^8 + x^4 + x^3 + x + 1]: what the multiplication of
    GF(2^8) is by definition. *)
Definition carryless_product (a b : Z) : Z :=
  fold_left (fun acc i => if Z.testbit b i then Z.lxor acc (Z.shiftl a i) else acc)
            (seqZ 0 8) 0.

Definition reduce_polynomial (r : Z) : Z :=
  fold_left (fun r i => if Z.testbit r i then Z.lxor r (Z.shiftl 0x11b (i - 8)) else r)
            (reverse (seqZ 8 7)) r.

Definition polynomial_product (a b : Z) : Z :=
  reduce_polynomial (carryless_product a b).

(** The tables that [_generate_tables()] leaves behind. *)
Definition gf256_tables : tables :=
  match _generate_tables with
  | Return t => t
  | Raise _ => mkTables ∅ ∅ ∅
  end.

Lemma generate_tables_returns : _generate_tables = Return gf256_tables.
Proof. vm_compute. reflexivity. Qed.

Opaque gf256_tables.

Lemma forallb_seqZ (P : Z -> bool) (m n : Z) :
  forallb P (seqZ m n) = true -> forall v, m <= v < m + n -> P v = true.
Proof.
  intros H v Hv. rewrite forallb_forall in H. apply H.
  apply list_elem_of_In, elem_of_seqZ. lia.
Qed.

(** All products of two bytes, against the product of polynomials. *)
Definition mul_agrees (t : tables) (a b : Z) : bool :=
  match gf256_mul t (Field.GF256.init a) (Field.GF256.init b) with
  | Return r =>
      (Field.GF256.value r =? polynomial_product a b)
      && (0 <=? polynomial_product a b) && (polynomial_product a b <? 256)
  | Raise _ => false
  end.

Definition mul_agrees_all : bool :=
  match _generate_tables with
  | Return t =>
      forallb (fun a => forallb (mul_agrees t a) (seqZ 0 256)) (seqZ 0 256)
  | Raise _ => false
  end.

Lemma mul_agrees_all_true : mul_agrees_all = true.
Proof. vm_compute. reflexivity. Qed.

Lemma polynomial_product_byte (a b : Z) :
  0 <= a < 256 -> 0 <= b < 256 ->
  gf256_mul gf256_tables (Field.GF256.init a) (Field.GF256.init b)
    = Return (Field.GF256.init (polynomial_product a b)) /\
  0 <= polynomial_product a b < 256.
Proof.
  intros Ha Hb. pose proof mul_agrees_all_true as H.
  unfold mul_agrees_all in H. rewrite generate_tables_returns in H.
  apply forallb_seqZ with (v := a) in H; [|lia].
  apply forallb_seqZ with (v := b) in H; [|lia].
  unfold mul_agrees in H.
  destruct (gf256_mul gf256_tables _ _) as [[r]|]; [|done].
  apply andb_prop in H as [H H3]. apply andb_prop in H as [H1 H2].
  apply Z.eqb_eq in H1. apply Z.leb_le in H2. apply Z.ltb_lt in H3.
  simpl in H1. subst r. split; [|lia].
  unfold Field.GF256.init, Field.GF256.modulus.
  by rewrite (Z.mod_small (polynomial_product a b)) by lia.
Qed.

(** The logarithm and the exponential are inverse to each other on the
    non-zero bytes and the exponents below 255. *)
Definition log_then_exp (t : tables) (v : Z) : bool :=
  match _log_table t !! v with
  | Some k =>
      (0 <=? k) && (k <? 255)
      && match _exp_table t !! k with Some v' => v' =? v | None => false end
  | None => false
  end.

Definition exp_then_log (t : tables) (k : Z) : bool :=
  match _exp_table t !! k with
  | Some v =>
      (1 <=? v) && (v <? 256)
      && match _log_table t !! v with Some k' => k' =? k | None => false end
  | None => false
  end.

Lemma log_exp_tables_true :
  forallb (log_then_exp gf256_tables) (seqZ 1 255)
  && forallb (exp_then_log gf256_tables) (seqZ 0 255) = true.
Proof. vm_compute. reflexivity. Qed.

Lemma log_exp (v : Z) :
  1 <= v <= 255 ->
  exists k, _log_table gf256_tables !! v = Some k /\ 0 <= k < 255 /\
            _exp_table gf256_tables !! k = Some v.
Proof.
  intros Hv. pose proof log_exp_tables_true as H.
  apply andb_prop in H as [H _].
  apply forallb_seqZ with (v := v) in H; [|lia].
  unfold log_then_exp in H.
  destruct (_log_table gf256_tables !! v) as [k|]; [|done].
  apply andb_prop in H as [H H3]. apply andb_prop in H as [H1 H2].
  destruct (_exp_table gf256_tables !! k) as [v'|] eqn:He; [|done].
  apply Z.eqb_eq in H3 as ->. apply Z.leb_le in H1. apply Z.ltb_lt in H2.
  exists k. split; [done|]. split; [lia|done].
Qed.

Lemma exp_log (k : Z) :
  0 <= k < 255 ->
  exists v, _exp_table gf256_tables !! k = Some v /\ 1 <= v <= 255 /\
            _log_table gf256_tables !! v = Some k.
Proof.
  intros Hk. pose proof log_exp_tables_true as H.
  apply andb_prop in H as [_ H].
  apply forallb_seqZ with (v := k) in H; [|lia].
  unfold exp_then_log in H.
  destruct (_exp_table gf256_tables !! k) as [v|]; [|done].
  apply andb_prop in H as [H H3]. apply andb_prop in H as [H1 H2].
  destruct (_log_table gf256_tables !! v) as [k'|] eqn:Hl; [|done].
  apply Z.eqb_eq in H3 as ->. apply Z.leb_le in H1. apply Z.ltb_lt in H2.
  exists v. split; [done|]. split; [lia|done].
Qed.

(** The product of two non-zero bytes, through the tables. *)
Lemma gf256_mul_nonzero (a b : Z) :
  1 <= a <= 255 -> 1 <= b <= 255 ->
  exists la lb e,
    _log_table gf256_tables !! a = Some la /\
    _log_table gf256_tables !! b = Some lb /\
    1 <= e <= 255 /\
    _log_table gf256_tables !! e = Some ((la + lb) mod 255) /\
    gf256_mul gf256_tables (Field.GF256.MkGF256 a) (Field.GF256.MkGF256 b)
      = Return (Field.GF256.MkGF256 e).
Proof.
  intros Ha Hb.
  destruct (log_exp a Ha) as (la & Hla & Hka & _).
  destruct (log_exp b Hb) as (lb & Hlb & Hkb & _).
  destruct (exp_log ((la + lb) mod 255)) as (e & He & Hev & Hle).
  { apply Z.mod_pos_bound. lia. }
  exists la, lb, e. repeat (split; [done|]).
  unfold gf256_mul, getitem. simpl.
  destruct (a =? 0) eqn:Ea; [apply Z.eqb_eq in Ea; lia|].
  destruct (b =? 0) eqn:Eb; [apply Z.eqb_eq in Eb; lia|].
  simpl. rewrite Hla, Hlb. simpl. rewrite He. simpl.
  unfold Field.GF256.init, Field.GF256.modulus. by rewrite Z.mod_small by lia.
Qed.

Lemma gf256_mul_zero (a b : Z) :
  a = 0 \/ b = 0 ->
  gf256_mul gf256_tables (Field.GF256.MkGF256 a) (Field.GF256.MkGF256 b)
    = Return (Field.GF256.MkGF256 0).
Proof.
  intros H. unfold gf256_mul. simpl.
  destruct H as [-> | ->]; simpl; [done|].
  by rewrite orb_true_r.
Qed.

Lemma init_byte (a : Z) :
  0 <= a < 256 -> Field.GF256.init a = Field.GF256.MkGF256 a.
Proof.
  intros Ha. unfold Field.GF256.init, Field.GF256.modulus.
  by rewrite Z.mod_small.
Qed.

(** The product of bytes as a function; it never raises. *)
Lemma gf256_mul_byte (a b : Z) :
  0 <= a < 256 -> 0 <= b < 256 ->
  exists e, 0 <= e < 256 /\
    gf256_mul gf256_tables (Field.GF256.MkGF256 a) (Field.GF256.MkGF256 b)
      = Return (Field.GF256.MkGF256 e) /\
    (e = 0 <-> a = 0 \/ b = 0).
Proof.
  intros Ha Hb.
  destruct (decide (a = 0 \/ b = 0)) as [H0|H0].
  - exists 0. split; [lia|]. split; [by apply gf256_mul_zero|]. done.
  - destruct (gf256_mul_nonzero a b) as (la & lb & e & _ & _ & He & _ & Hm);
      [lia|lia|].
    exists e. split; [lia|]. split; [done|]. split; [lia|done].
Qed.

Lemma gf256_mul_comm_byte (a b : Z) :
  gf256_mul gf256_tables (Field.GF256.MkGF256 a) (Field.GF256.MkGF256 b)
    = gf256_mul gf256_tables (Field.GF256.MkGF256 b) (Field.GF256.MkGF256 a).
Proof.
  unfold gf256_mul. simpl. rewrite (orb_comm (a =? 0)).
  destruct ((b =? 0) || (a =? 0)); [done|].
  unfold getitem.
  destruct (_ !! a) as [la|], (_ !! b) as [lb|]; simpl; try done.
  by rewrite (Z.add_comm la lb).
Qed.

Lemma gf256_mul_assoc_byte (a b c : Z) :
  0 <= a < 256 -> 0 <= b < 256 -> 0 <= c < 256 ->
  obind (gf256_mul gf256_tables (Field.GF256.MkGF256 a) (Field.GF256.MkGF256 b))
        (fun ab => gf256_mul gf256_tables ab (Field.GF256.MkGF256 c))
  = obind (gf256_mul gf256_tables (Field.GF256.MkGF256 b) (Field.GF256.MkGF256 c))
          (fun bc => gf256_mul gf256_tables (Field.GF256.MkGF256 a) bc).
Proof.
  intros Ha Hb Hc.
  destruct (decide (a = 0)) as [->|Ha0].
  { rewrite (gf256_mul_zero 0 b) by (by left). cbn [obind].
    rewrite (gf256_mul_zero 0 c) by (by left).
    destruct (gf256_mul_byte b c Hb Hc) as (e & _ & -> & _). cbn [obind].
    by rewrite gf256_mul_zero by (by left). }
  destruct (decide (b = 0)) as [->|Hb0].
  { rewrite (gf256_mul_zero a 0) by (by right). cbn [obind].
    rewrite (gf256_mul_zero 0 c) by (by left). cbn [obind].
    by rewrite gf256_mul_zero by (by right). }
  destruct (decide (c = 0)) as [->|Hc0].
  { rewrite (gf256_mul_zero b 0) by (by right). cbn [obind].
    rewrite (gf256_mul_zero a 0) by (by right).
    destruct (gf256_mul_byte a b Ha Hb) as (e & _ & -> & _). cbn [obind].
    by rewrite gf256_mul_zero by (by right). }
  destruct (gf256_mul_nonzero a b) as (la & lb & e & Hla & Hlb & He & Hle & Hab);
    [lia|lia|].
  destruct (gf256_mul_nonzero b c) as (lb' & lc & f & Hlb' & Hlc & Hf & Hlf & Hbc);
    [lia|lia|].
  rewrite Hlb in Hlb'. injection Hlb' as <-.
  rewrite Hab, Hbc. cbn [obind].
  destruct (gf256_mul_nonzero e c) as (le & lc' & g & Hle' & Hlc' & Hg & _ & Hec);
    [lia|lia|].
  destruct (gf256_mul_nonzero a f) as (la' & lf & h & Hla' & Hlf' & Hh & _ & Haf);
    [lia|lia|].
  rewrite Hec, Haf.
  unfold gf256_mul, getitem in Hec, Haf. simpl in Hec, Haf.
  destruct (e =? 0) eqn:E1; [apply Z.eqb_eq in E1; lia|].
  destruct (c =? 0) eqn:E2; [apply Z.eqb_eq in E2; lia|].
  destruct (a =? 0) eqn:E3; [apply Z.eqb_eq in E3; lia|].
  destruct (f =? 0) eqn:E4; [apply Z.eqb_eq in E4; lia|].
  simpl in Hec, Haf.
  rewrite Hle, Hlc in Hec. rewrite Hla, Hlf in Haf. simpl in Hec, Haf.
  rewrite Zplus_mod_idemp_l in Hec. rewrite Zplus_mod_idemp_r in Haf.
  rewrite Z.add_assoc in Haf. rewrite Haf in Hec. done.
Qed.

Lemma gf256_mul_one_byte (a : Z) :
  0 <= a < 256 ->
  gf256_mul gf256_tables (Field.GF256.MkGF256 1) (Field.GF256.MkGF256 a)
    = Return (Field.GF256.MkGF256 a).
Proof.
  intros Ha. destruct (decide (a = 0)) as [->|Ha0].
  { by rewrite gf256_mul_zero by (by right). }
  destruct (log_exp a) as (la & Hla & Hk & He); [lia|].
  unfold gf256_mul, getitem. simpl.
  destruct (a =? 0) eqn:E; [apply Z.eqb_eq in E; lia|].
  rewrite Hla.
  replace (_log_table gf256_tables !! 1) with (Some 0) by (vm_compute; reflexivity).
  cbn [obind]. rewrite Z.add_0_l, (Z.mod_small la) by lia.
  rewrite He. cbn [obind]. by rewrite init_byte.
Qed.

(** The product of polynomials is linear in its second argument. *)
Ltac xor_bits :=
  apply Z.bits_inj'; intros ?n _; rewrite ?Z.lxor_spec, ?Z.bits_0;
  repeat match goal with
         | |- context [Z.testbit ?x ?n] => destruct (Z.testbit x n)
         end;
  reflexivity.

Lemma carryless_fold_lxor (a b c : Z) (l : list Z) (x y : Z) :
  fold_left (fun acc i => if Z.testbit (Z.lxor b c) i
                          then Z.lxor acc (Z.shiftl a i) else acc) l (Z.lxor x y)
  = Z.lxor
      (fold_left (fun acc i => if Z.testbit b i
                               then Z.lxor acc (Z.shiftl a i) else acc) l x)
      (fold_left (fun acc i => if Z.testbit c i
                               then Z.lxor acc (Z.shiftl a i) else acc) l y).
Proof.
  revert x y. induction l as [|i l IH]; intros x y; [done|].
  cbn [fold_left]. rewrite Z.lxor_spec.
  destruct (Z.testbit b i), (Z.testbit c i); cbn [xorb]; rewrite <- IH; f_equal;
    xor_bits.
Qed.

Lemma carryless_product_lxor (a b c : Z) :
  carryless_product a (Z.lxor b c)
    = Z.lxor (carryless_product a b) (carryless_product a c).
Proof.
  unfold carryless_product. rewrite <- carryless_fold_lxor. done.
Qed.

Lemma reduce_polynomial_lxor (r s : Z) :
  reduce_polynomial (Z.lxor r s)
    = Z.lxor (reduce_polynomial r) (reduce_polynomial s).
Proof.
  unfold reduce_polynomial. revert r s.
  induction (reverse (seqZ 8 7)) as [|i l IH]; intros r s; [done|].
  cbn [fold_left]. rewrite Z.lxor_spec.
  destruct (Z.testbit r i), (Z.testbit s i); cbn [xorb]; rewrite <- IH; f_equal;
    xor_bits.
Qed.

Lemma polynomial_product_lxor (a b c : Z) :
  polynomial_product a (Z.lxor b c)
    = Z.lxor (polynomial_product a b) (polynomial_product a c).
Proof.
  unfold polynomial_product.
  by rewrite carryless_product_lxor, reduce_polynomial_lxor.
Qed.

Lemma lxor_mod_256 (x y : Z) :
  Z.lxor x y mod 256 = Z.lxor (x mod 256) (y mod 256).
Proof.
  change 256 with (2 ^ 8). apply Z.bits_inj'. intros n _.
  rewrite Z.lxor_spec, !Z.testbit_mod_pow2, Z.lxor_spec by lia.
  by destruct (n <? 8), (Z.testbit x n), (Z.testbit y n).
Qed.

Lemma lxor_byte (x y : Z) :
  0 <= x < 256 -> 0 <= y < 256 -> 0 <= Z.lxor x y < 256.
Proof.
  intros Hx Hy.
  rewrite <- (Z.mod_small x 256), <- (Z.mod_small y 256), <- lxor_mod_256 by lia.
  apply Z.mod_pos_bound. lia.
Qed.

(** The table of inverses: its entries for 1..254 are inverses, and it
    has no entry for 0 and for 255. *)
Definition inverse_ok (t : tables) (v : Z) : bool :=
  match gf256_invert t (Field.GF256.init v) with
  | Return i =>
      match gf256_mul t (Field.GF256.init v) i with
      | Return r => Field.GF256.value r =? 1
      | Raise _ => false
      end
  | Raise _ => false
  end.

Lemma inverse_table_true :
  forallb (inverse_ok gf256_tables) (seqZ 1 254)
  && bool_decide (_inv_table gf256_tables !! 0 = None)
  && bool_decide (_inv_table gf256_tables !! 255 = None) = true.
Proof. vm_compute. reflexivity. Qed.

(** ** [generate_subsets] ([prss.py])

    The sets are [frozenset]s; [fuel] bounds the depth of the recursion,
    which removes one element of [orig_set] at each call. *)
Definition len `{Countable A} (s : gset A) : Z := Z.of_nat (size s).

Fixpoint generate_subsets `{Countable A} (fuel : nat) (orig_set : gset A)
    (size : Z) : option (gset (gset A)) :=
  match fuel with
  | O => None
  | S fuel =>
      if size <? len orig_set then
        fold_left
          (fun result element =>
             match result, generate_subsets fuel (orig_set ∖ {[element]}) size with
             | Some result, Some subsets => Some (result ∪ subsets)
             | _, _ => None
             end)
          (elements orig_set) (Some ∅)
      else if len orig_set =? size then Some {[orig_set]}
      else Some ∅
  end.

(** The loop [for element in orig_set: result.update(...)], when every
    call returns the subsets of the wanted size. *)
Lemma generate_subsets_loop `{Countable A} (f : A -> option (gset (gset A)))
    (orig_set : gset A) (size : Z) (l : list A) (result : gset (gset A)) :
  (forall e, e ∈ l ->
     exists R, f e = Some R /\
       forall X, X ∈ R <-> X ⊆ orig_set ∖ {[e]} /\ len X = size) ->
  exists R,
    fold_left
      (fun result element =>
         match result, f element with
         | Some result, Some subsets => Some (result ∪ subsets)
         | _, _ => None
         end) l (Some result) = Some R /\
    forall X, X ∈ R <->
      X ∈ result \/ exists e, e ∈ l /\ X ⊆ orig_set ∖ {[e]} /\ len X = size.
Proof.
  revert result. induction l as [|e l IH]; intros result Hf.
  - exists result. split; [done|]. intros X. split; [by left|].
    intros [HX|(e & He & _)]; [done|]. by apply elem_of_nil in He.
  - destruct (Hf e) as (Re & Hfe & HRe); [by left|].
    cbn [fold_left]. rewrite Hfe.
    destruct (IH (result ∪ Re)) as (R & HR & HX).
    { intros e' He'. apply Hf. by right. }
    exists R. split; [done|]. intros X. rewrite HX, elem_of_union, HRe.
    split.
    + intros [[HXr|HXe]|(e' & He' & HXe')].
      * by left.
      * right. exists e. split; [by left|done].
      * right. exists e'. split; [by right|done].
    + intros [HXr|(e' & He' & HXe')]; [by left; left|].
      apply elem_of_cons in He' as [->|He'].
      * left. by right.
      * right. by exists e'.
Qed.

Lemma generate_subsets_spec `{Countable A} (fuel : nat) :
  forall (orig_set : gset A) (size : Z),
    (base.size orig_set < fuel)%nat ->
    exists R,
      generate_subsets fuel orig_set size = Some R /\
      forall X, X ∈ R <-> X ⊆ orig_set /\ len X = size.
Proof.
  induction fuel as [|fuel IH]; intros orig_set size Hfuel; [lia|].
  cbn [generate_subsets].
  destruct (size <? len orig_set) eqn:Hgt.
  - apply Z.ltb_lt in Hgt.
    destruct (generate_subsets_loop
                (fun e => generate_subsets fuel (orig_set ∖ {[e]}) size)
                orig_set size (elements orig_set) ∅) as (R & HR & HX).
    { intros e He. apply elem_of_elements in He. apply IH.
      assert (base.size orig_set
              = S (base.size (orig_set ∖ {[e]}))) as Hs.
      { rewrite (union_difference_L {[e]} orig_set) at 1
          by (by apply singleton_subseteq_l).
        rewrite size_union, size_singleton; [done|].
        intros x Hx Hx'. apply elem_of_difference in Hx' as [_ Hx']. done. }
      lia. }
    exists R. split; [exact HR|]. intros X. rewrite HX. split.
    + intros [HXe|(e & He & HXe & Hlen)]; [by apply elem_of_empty in HXe|].
      split; [|done]. intros x Hx. apply HXe in Hx.
      by apply elem_of_difference in Hx as [Hx _].
    + intros [HXo Hlen]. right.
      destruct (decide (orig_set ∖ X = ∅)) as [Hempty|Hne].
      { assert (orig_set ⊆ X) as Hsub.
        { intros x Hx. destruct (decide (x ∈ X)) as [|Hn]; [done|].
          assert (x ∈ orig_set ∖ X) as Hd by (by apply elem_of_difference).
          rewrite Hempty in Hd. by apply elem_of_empty in Hd. }
        apply subseteq_size in Hsub. unfold len in *. lia. }
      apply set_choose_L in Hne as [e He].
      apply elem_of_difference in He as [Heo HeX].
      exists e. split; [by apply elem_of_elements|]. split; [|done].
      intros x Hx. apply elem_of_difference. split; [by apply HXo|].
      intros Hxe. apply elem_of_singleton in Hxe as ->. done.
  - apply Z.ltb_ge in Hgt. destruct (len orig_set =? size) eqn:Heq.
    + apply Z.eqb_eq in Heq. exists {[orig_set]}. split; [done|].
      intros X. rewrite elem_of_singleton. split; [by intros ->|].
      intros [HXo Hlen].
      apply set_subseteq_size_eq; [done|]. unfold len in *. lia.
    + apply Z.eqb_neq in Heq. exists ∅. split; [done|].
      intros X. split; [intros HX; by apply elem_of_empty in HX|].
      intros [HXo Hlen]. apply subseteq_size in HXo. unfold len in *. lia.
Qed.

(** ** [BasicRuntime._exchange_shares]

    With ourselves the element is wrapped in a share; with another player
    a share is expected from the peer and our element is sent to it. *)
Definition _exchange_shares (peer : Z) (field : FieldType) (field_element : Z)
    : M Deferred :=
  self <- get_self ;;
  if decide (peer = id self) then new_share field (Some (VInt field_element))
  else
    share <- _expect_share peer field ;;
    pc <- tuple_program_counter ;;
    sendShare_to peer pc field_element ;;;
    ret share.

(** [marshal.loads] of a frame that [sendData] wrote with
    [marshal.dumps]. *)
Definition marshal_loads (frame : list Z * string * data) : wire :=
  let '(program_counter, data_type, x) := frame in
  WData program_counter data_type x.

(** [_exchange_shares] with a connected peer: what it leaves in the
    runtime. *)
Lemma exchange_shares_run peer field v s p :
  peer <> id s ->
  protocols s !! peer = Some p ->
  exists s',
    _exchange_shares peer field v s = (Return (next_deferred s), s') /\
    protocols s' !! peer =
      Some (sendData (read_pc s) "share" (DInt v)
              (snd (expect_data_at (read_pc s, "share") (next_deferred s) p))) /\
    deferred_log s' =
      deferred_log s
      ++ [NewShare (next_deferred s) field None;
          AddCallback (next_deferred s) (CbField field)]
      ++ match fst (expect_data_at (read_pc s, "share") (next_deferred s) p) with
         | Some (d, x) => [Callback d x]
         | None => []
         end.
Proof.
  intros Hne Hp.
  unfold _exchange_shares, bind, get_self. cbn [fst snd].
  rewrite decide_False by done.
  unfold _expect_share, bind, new_share, add_callback, log_deferred.
  cbn [fst snd]. unfold _expect_data.
  cbn [id protocols set_deferred_log set_next_deferred].
  rewrite decide_False by done. rewrite Hp.
  change (read_pc (set_deferred_log _ _)) with (read_pc s).
  destruct (expect_data_at (read_pc s, "share") (next_deferred s) p)
    as [fired p'] eqn:He.
  cbn [fst snd].
  destruct fired as [[d x]|]; cbn [fst snd];
    unfold tuple_program_counter, sendShare_to, ret; cbn [fst snd];
    cbn [protocols set_protocols set_deferred_log set_next_deferred];
    rewrite lookup_insert_eq; cbn [fst snd];
    (eexists; split; [reflexivity|]);
    cbn [protocols set_protocols set_deferred_log set_next_deferred deferred_log];
    rewrite lookup_insert_eq; (split; [reflexivity|]);
    rewrite <- ?app_assoc; reflexivity.
Qed.

Lemma transport_expect_data_at k d p :
  transport (snd (expect_data_at k d p)) = transport p.
Proof.
  unfold expect_data_at.
  destruct (default [] (incoming_data p !! k)) as [|[d'|x] rest]; try done.
  cbn [snd]. unfold popleft_at. by destruct rest.
Qed.

(** *** [prss_share] when it returns *)

Lemma keeps_pc_prss_share_body prss recombine inputters field element :
  keeps_pc (prss_share_body prss recombine inputters field element).
Proof.
  unfold prss_share_body.
  apply keeps_pc_bind; [apply keeps_pc_get_self|]. intros self.
  apply keeps_pc_bind; [destruct element; apply keeps_pc_assert|]. intros _.
  apply keeps_pc_bind; [apply keeps_pc_tuple_program_counter|]. intros key.
  apply keeps_pc_bind.
  { case_bool_decide; [|apply keeps_pc_ret].
    destruct element; [|apply keeps_pc_raise].
    apply keeps_pc_bind; [apply keeps_pc_tuple_program_counter|]. intros pc.
    apply keeps_pc_bind; [|intros; apply keeps_pc_ret].
    apply keeps_pc_for_each. intros peer.
    case_decide; [apply keeps_pc_ret | apply keeps_pc_sendShare_to]. }
  intros correction.
  apply keeps_pc_bind; [|intros; apply keeps_pc_ret].
  apply keeps_pc_collect. intros player.
  apply keeps_pc_bind.
  { case_decide; [apply keeps_pc_new_share | apply keeps_pc_expect_share]. }
  intros d. apply keeps_pc_bind; [apply keeps_pc_add_callback|].
  intros; apply keeps_pc_ret.
Qed.

Lemma same_setup_write_pc pc s : same_setup s (write_pc pc s).
Proof. repeat split. eauto. Qed.

(** The loop that receives the corrections and makes the shares: one
    share for each inputter, and nothing written to a transport. *)
Lemma prss_share_collect (tmp : Z -> Z) field correction inputters s :
  connections_to inputters s ->
  exists ds s',
    collect inputters
      (fun player =>
         d <- (if decide (player = id s)
               then new_share field (VInt <$> correction)
               else _expect_share player field) ;;
         add_callback d (CbAddShare field (tmp player)) ;;;
         ret d) s = (Return ds, s') /\
    same_setup s s' /\ length ds = length inputters.
Proof.
  intros Hc.
  apply (runs_ok_collect inputters _
           (fun player s1 => id s1 = id s /\
              (player <> id s -> is_Some (protocols s1 !! player)))).
  - intros x s1 s2 [Hid Hp] Hs. destruct Hs as (Hid' & _ & _ & Hpr).
    split; [congruence|]. intros Hne. destruct (Hp Hne) as [p Hp'].
    destruct (Hpr x p Hp') as (p' & Hp'' & _). eauto.
  - intros x s1 Hx [Hid Hp].
    apply runs_ok_bind.
    { case_decide; [apply runs_ok_new_share|].
      apply runs_ok_expect_share; [congruence | by apply Hp]. }
    intros d s2 _ _.
    apply runs_ok_bind; [apply runs_ok_log_deferred|].
    intros; apply runs_ok_ret.
  - intros x Hx. split; [done|]. intros Hne. by apply Hc.
Qed.

(** The loop that broadcasts the correction value. *)
Lemma for_each_send_at self_id l pc v s :
  self_id = id s ->
  connections_to l s ->
  for_each l
    (fun peer => if decide (self_id = peer) then ret tt
                 else sendShare_to peer pc v) s
  = (Return tt, set_protocols (send_share_all self_id l pc v (protocols s)) s).
Proof.
  revert s. induction l as [|peer l IH]; intros s Hid Hc.
  - simpl. unfold ret. by destruct s.
  - cbn [for_each]. rewrite send_share_all_cons. unfold bind at 1.
    destruct (decide (self_id = peer)) as [E|N].
    + rewrite decide_True by done. unfold ret at 1. rewrite IH; [done | done |].
      intros p Hp. apply Hc. by right.
    + rewrite decide_False by done.
      destruct (Hc peer) as [p Hp]; [by left | congruence |].
      unfold sendShare_to at 1. rewrite Hp. rewrite IH.
      * reflexivity.
      * done.
      * intros p' Hp' Hne. simpl. rewrite lookup_insert.
        case_decide; [eauto|]. apply Hc; [by right | done].
Qed.

(** ** The first string on a connection

    The branch [self.peer_id is None] of [stringReceived], with the
    factory: the string is the peer's id; [cert] is the serial number of
    the peer's certificate, if the transport has one.  The result tells
    whether [self.transport.loseConnection()] was called. *)
Definition identify_connection (n : Z) (cert : option Z) (p : ShareExchanger)
    (f : Factory) : outcome bool * ShareExchanger * Factory :=
  let p := set_peer_id n p in
  let lose_connection :=
    match cert with
    | Some serial_number => negb (serial_number =? n)
    | None => false
    end in
  match identify_peer p f with
  | (Return _, f) => (Return lose_connection, p, f)
  | (Raise e, f) => (Raise e, p, f)
  end.

(** * The claims *)

(** C3. [increment_pc]: from a program counter [q ++ [k]], the method
    runs with the counter [q ++ [k+1; 0]] (last entry incremented, a zero
    entry appended); whether the method returns or raises, the appended
    entry is popped, the wrapper has the outcome of the method, and the
    counter is left as [q ++ [k+1]]: same length, only the last entry
    changed, by one. *)
Theorem increment_pc_scoped {A} (method : M A) s q k :
  balanced method ->
  read_pc s = q ++ [k] ->
  let s1 := write_pc (q ++ [k + 1; 0]) s in
  read_pc s1 = q ++ [k + 1; 0] /\
  fst (inc_pc_wrapper method s) = fst (method s1) /\
  program_counter (snd (inc_pc_wrapper method s)) = program_counter s /\
  read_pc (snd (inc_pc_wrapper method s)) = q ++ [k + 1] /\
  length (read_pc (snd (inc_pc_wrapper method s))) = length (read_pc s).
Proof.
  intros Hbal Hpc s1. subst s1. split; [apply read_write_pc|].
  rewrite (inc_pc_wrapper_run method s q k Hbal Hpc). cbn [fst snd].
  rewrite program_counter_write_pc, read_write_pc, Hpc.
  rewrite (balanced_program_counter method _ (q ++ [k + 1]) 0 Hbal).
  - repeat split. rewrite !length_app. reflexivity.
  - rewrite read_write_pc. by rewrite <- app_assoc.
Qed.



(** A counted method that raises, inside a counted method, from the
    initial counter [[0]]: the counter ends as [[1]]. *)
Lemma increment_pc_scoped_witness :
  let method : M unit := inc_pc_wrapper (raise (OtherError 7)) in
  fst (inc_pc_wrapper method example_runtime) = Raise (OtherError 7) /\
  read_pc (snd (inc_pc_wrapper method example_runtime)) = [1].
Proof.
  intros method.
  destruct (increment_pc_scoped method example_runtime [] 0
              (balanced_inc_pc_wrapper _ (balanced_raise _)) eq_refl)
    as (_ & H1 & _ & H2 & _).
  split; [by rewrite H1 | exact H2].
Defined.

(** C8. [preprocess]: when the pool has an entry for the current program
    counter the proxy returns it and changes nothing, whatever the wrapped
    method is (it is not called); when the pool has none, the demand
    [(generator, args) -> pc] is recorded in [_needed_data] and the
    original method runs.  For [get_triple] the counter looked up is the
    one inside the counted operation, [q ++ [k+1; 0]]. *)
Theorem preprocess_pool_or_fallback generator method args s :
  (forall d, _pool s !! read_pc s = Some d ->
     preprocess_wrapper generator method args s = (Return d, s)) /\
  (_pool s !! read_pc s = None ->
     preprocess_wrapper generator method args s =
       method args (needed_data_append (generator, args) (read_pc s) s) /\
     _needed_data (needed_data_append (generator, args) (read_pc s) s)
       !! (generator, args) =
       Some (default [] (_needed_data s !! (generator, args)) ++ [read_pc s])) /\
  (forall gen field q k d,
     read_pc s = q ++ [k] ->
     _pool s !! (q ++ [k + 1; 0]) = Some d ->
     get_triple gen field s = (Return d, write_pc (q ++ [k + 1]) s)) /\
  (forall gen field q k,
     read_pc s = q ++ [k] ->
     _pool s !! (q ++ [k + 1; 0]) = None ->
     get_triple gen field s =
       inc_pc_wrapper
         (fun s' => get_triple_method gen [field]
                      (needed_data_append ("generate_triples", [field])
                                          (read_pc s') s')) s).
Proof.
  repeat split.
  - intros d H. unfold preprocess_wrapper. by rewrite H.
  - unfold preprocess_wrapper. by rewrite H.
  - unfold needed_data_append; simpl. by rewrite lookup_insert_eq.
  - intros gen field q k d Hpc Hpool. unfold get_triple.
    rewrite (inc_pc_wrapper_unfold _ s q k Hpc). cbn zeta.
    change (q ++ [k + 1] ++ [0]) with (q ++ [k + 1; 0]).
    unfold preprocess_wrapper at 1 2.
    rewrite read_write_pc, pool_write_pc, Hpool. cbn [fst snd].
    rewrite (pc_pop_snoc _ (q ++ [k + 1]) 0).
    + by rewrite write_write_pc.
    + rewrite read_write_pc. by rewrite <- app_assoc.
  - intros gen field q k Hpc Hpool. unfold get_triple.
    rewrite !(inc_pc_wrapper_unfold _ s q k Hpc). cbn zeta.
    change (q ++ [k + 1] ++ [0]) with (q ++ [k + 1; 0]).
    unfold preprocess_wrapper.
    by rewrite read_write_pc, pool_write_pc, Hpool.
Qed.

(** A pool with an entry for [[1; 0]]: [get_triple] returns it though the
    generator raises; and with an empty pool the demand is recorded. *)
Lemma preprocess_pool_or_fallback_witness :
  let s := mkRuntime 1 1 {[ 0%nat := [0] ]} 0%nat {[ [1; 0] := 5%nat ]} ∅
                     1 [1] ∅ 0%nat [] in
  let gen : FieldType -> M (Z * Deferred) := fun _ => raise (OtherError 1) in
  get_triple gen (GF 31) s = (Return 5%nat, write_pc [1] s) /\
  _needed_data
    (needed_data_append ("generate_triples", [GF 31]) [0] example_runtime)
    !! ("generate_triples", [GF 31]) = Some [[0]].
Proof.
  intros s gen. split.
  - destruct (preprocess_pool_or_fallback "generate_triples"
                (get_triple_method gen) [GF 31] s) as (_ & _ & H & _).
    exact (H gen (GF 31) [] 0 5%nat eq_refl eq_refl).
  - destruct (preprocess_pool_or_fallback "generate_triples"
                (get_triple_method gen) [GF 31] example_runtime) as (_ & H & _).
    destruct (H eq_refl) as [_ H']. exact H'.
Defined.

(** C4, as amended.  After every sequence of arrivals and waiter
    registrations, every key present in [incoming_data] has a non-empty
    deque that holds only received payloads or only waiting [Deferred]s,
    never both. *)
Theorem incoming_data_queues n events : queues_ok (run events (connected n)).
Proof. apply queues_ok_run, queues_ok_connected. Qed.

(** C4, as stated, fails: two strings arriving for the same key before any
    waiter is registered are both buffered under that key. *)
Lemma incoming_data_two_payloads :
  let p := run [Received [1; 0] "share" (DInt 5); Received [1; 0] "share" (DInt 6)]
               (connected 2) in
  incoming_data p !! ([1; 0], "share") = Some [Payload (DInt 5); Payload (DInt 6)] /\
  ~ one_entry_per_key p.
Proof.
  intros p. assert (H : incoming_data p !! ([1; 0], "share")
                        = Some [Payload (DInt 5); Payload (DInt 6)]).
  { vm_compute. reflexivity. }
  split; [exact H|]. intros Hone. specialize (Hone _ _ H). discriminate.
Qed.

(** C5. [ShareList]: for a non-empty list of shares and a threshold [T]
    with [0 < T <= N], the constructor succeeds, and when the shares
    resolve one after the other (each once, by [callback] or [errback])
    the share list fires at the [T]-th resolution and at no other; the
    list it fires with has length [N] and, at position [i], the pair
    [(success, value)] of share [i] if it is among the first [T] to
    resolve and [None] otherwise.  Without a threshold, [T] is [N]. *)
Theorem share_list_fires {V} (shares : list Deferred) (T : Z)
    (rs : list (resolution V)) :
  shares <> [] ->
  0 < T <= Z.of_nat (length shares) ->
  NoDup (map res_index rs) ->
  Forall (fun r => (res_index r < length shares)%nat) rs ->
  exists sl : ShareList V,
    ShareList_init shares (Some T) = Return sl /\
    (T = Z.of_nat (length shares) -> ShareList_init shares None = Return sl) /\
    fst (resolve_all rs sl) =
      map (fun j => Return (if decide (S j = Z.to_nat T)
                            then Some (pairs_of (length shares) (take (Z.to_nat T) rs))
                            else None))
          (seq 0 (length rs)).
Proof.
  intros Hne HT Hnd Hin.
  exists (mkShareList (replicate (length shares) None) T false).
  assert (Hlen : (0 <? Z.of_nat (length shares)) = true).
  { apply Z.ltb_lt. destruct shares; [done | simpl; lia]. }
  unfold ShareList_init. rewrite Hlen. simpl.
  assert ((0 <? T) && (T <=? Z.of_nat (length shares)) = true) as ->.
  { apply andb_true_iff. split; [apply Z.ltb_lt | apply Z.leb_le]; lia. }
  split; [done|]. split; [by intros -> |].
  rewrite resolve_all_outputs by (simpl; by rewrite length_replicate).
  apply map_ext. intros j. simpl. f_equal.
  destruct (decide (S j = Z.to_nat T)) as [E|N].
  - rewrite decide_True by (unfold fires_at; simpl; split; [done | lia]).
    f_equal. rewrite <- E. apply store_all_pairs_of.
    by apply NoDup_res_index_take.
  - rewrite decide_False; [done|]. unfold fires_at; simpl. intros [_ ?]. lia.
Qed.

(** The example of the class documentation: three shares, threshold 2;
    the first gets 10, then the third gets 20. *)
Lemma share_list_fires_witness :
  exists sl : ShareList Z,
    ShareList_init [0%nat; 1%nat; 2%nat] (Some 2) = Return sl /\
    fst (resolve_all [mkResolution 0 true 10; mkResolution 2 true 20] sl) =
      [Return None; Return (Some [Some (true, 10); None; Some (true, 20)])].
Proof.
  destruct (share_list_fires [0%nat; 1%nat; 2%nat] 2
              [mkResolution 0 true 10; mkResolution 2 true 20])
    as (sl & H1 & _ & H2).
  - discriminate.
  - simpl. lia.
  - apply (bool_decide_unpack _). vm_compute. exact I.
  - repeat constructor; simpl; lia.
  - exists sl. split; [exact H1 | exact H2].
Defined.

(** The field of 31 elements: [x = 7], [y = 9] and the triple
    [(20, 3, 60 mod 31)]. *)
Lemma finish_mul_cancel_witness :
  let Zp := Field.IntegerFieldElement 31 in
  let x : Zp := Field.init 7 in
  let y : Zp := Field.init 9 in
  let a : Zp := Field.init 20 in
  let b : Zp := Field.init 3 in
  ActiveMul.finish_mul Field.add Field.mul a b (Field.mul a b)
    (Field.sub x a, Field.sub y b) = Field.mul x y.
Proof.
  intros Zp x y a b.
  exact (ActiveMul.finish_mul_cancel _ _ _ _ _ _ Field.ring_laws x y a b).
Defined.



(** C7. [Runtime.xor]: on two shares over [GF256] it returns their sum
    [a + b]; over any other field it returns [a + b - 2 * a * b].  Read
    on the values, with the operators of the field elements: over
    [GF(m)], for bits [a] and [b], the result is the element of their
    exclusive or (the bit itself when [1 < m], so for every odd prime
    [m]); over [GF256] the sum of two bits is their exclusive or too. *)
Theorem xor_computes_exclusive_or :
  (forall (S E : Type) (add sub mul : S -> S -> S) (cmul : Z -> S -> S)
          (mk_share : FieldType -> E -> S) (field_call : FieldType -> Z -> E)
          (a b : S),
     xor add sub mul cmul mk_share field_call (OShare GF256 a) (OShare GF256 b)
     = Return (add a b) /\
     forall m : Z,
       xor add sub mul cmul mk_share field_call (OShare (GF m) a) (OShare (GF m) b)
       = Return (sub (add a b) (mul (cmul 2 a) b))) /\
  (forall (m : Z) (a b : bool),
     let Zp := Field.IntegerFieldElement m in
     let r : Zp := Field.init (Z.b2z (xorb a b)) in
     xor Field.add Field.sub Field.mul Field.rmul
         (fun (_ : FieldType) (e : Zp) => e) (fun _ => Field.init)
         (OShare (GF m) (Field.init (Z.b2z a))) (OShare (GF m) (Field.init (Z.b2z b)))
     = Return r /\
     (1 < m -> Field.value r = bit_xor (Z.b2z a) (Z.b2z b))) /\
  (forall (a b : bool) (mul : _ -> _ -> _) (cmul : Z -> _ -> _),
     xor Field.GF256.add Field.GF256.sub mul cmul
         (fun (_ : FieldType) (e : Field.GF256.GF256Element) => e)
         (fun _ => Field.GF256.init)
         (OShare GF256 (Field.GF256.init (Z.b2z a)))
         (OShare GF256 (Field.GF256.init (Z.b2z b)))
     = Return (Field.GF256.init (bit_xor (Z.b2z a) (Z.b2z b)))).
Proof.
  split; [|split].
  - intros. split; [reflexivity|]. intros m. reflexivity.
  - intros m a b Zp r. split.
    + unfold xor. cbn [getattr_field to_share]. rewrite decide_False by discriminate.
      rewrite integer_xor_value. subst r. by destruct a, b.
    + intros Hm. subst r. rewrite Field.value_init.
      destruct a, b; simpl; unfold bit_xor; simpl;
        rewrite Z.mod_small by lia; reflexivity.
  - intros a b mul cmul. unfold xor. simpl.
    by destruct a, b.
Qed.

(** Over the field of 31 elements, [1 xor 1 = 0] and [1 xor 0 = 1]. *)
Lemma xor_computes_exclusive_or_witness :
  Field.value (Field.init (modulus := 31) (Z.b2z (xorb true true))) = bit_xor 1 1 /\
  Field.value (Field.init (modulus := 31) (Z.b2z (xorb true false))) = bit_xor 1 0.
Proof.
  destruct xor_computes_exclusive_or as (_ & H & _).
  split.
  - destruct (H 31 true true) as [_ H1]. apply H1. lia.
  - destruct (H 31 true false) as [_ H1]. apply H1. lia.
Defined.

(** C9. Usage errors are raised at the call.  [BasicRuntime.__init__]
    with a threshold that is not positive raises [AssertionError] and
    gives no runtime.  [prss_share] without an element for a player who
    is an inputter, or with an element for a player who is not, raises
    [AssertionError] as its first step: nothing has been sent, no share
    has been created or expected, and only the program counter has moved
    (the method is counted). *)
Theorem usage_errors_at_call_time :
  (forall player_id threshold,
     threshold <= 0 ->
     BasicRuntime_init player_id threshold =
       Raise (AssertionError "Must use a positive threshold.")) /\
  (forall prss recombine inputters field s q k,
     read_pc s = q ++ [k] ->
     id s ∈ inputters ->
     let r := prss_share prss recombine inputters field None s in
     r = (Raise (AssertionError "No element given."), write_pc (q ++ [k + 1]) s) /\
     protocols (snd r) = protocols s /\
     deferred_log (snd r) = deferred_log s /\
     next_deferred (snd r) = next_deferred s) /\
  (forall prss recombine inputters field element s q k,
     read_pc s = q ++ [k] ->
     id s ∉ inputters ->
     let r := prss_share prss recombine inputters field (Some element) s in
     r = (Raise (AssertionError "Element given, but we are not sharing?"),
          write_pc (q ++ [k + 1]) s) /\
     protocols (snd r) = protocols s /\
     deferred_log (snd r) = deferred_log s /\
     next_deferred (snd r) = next_deferred s).
Proof.
  split; [|split].
  - intros player_id threshold H. unfold BasicRuntime_init.
    destruct (Z.ltb_spec 0 threshold); [lia | reflexivity].
  - intros prss recombine inputters field s q k Hpc Hin r.
    assert (Hr : r = (Raise (AssertionError "No element given."),
                      write_pc (q ++ [k + 1]) s)).
    { subst r. unfold prss_share. apply inc_pc_wrapper_raises; [done|].
      unfold prss_share_body, bind, get_self, assert. rewrite id_write_pc.
      by rewrite bool_decide_true. }
    by rewrite Hr.
  - intros prss recombine inputters field element s q k Hpc Hin r.
    assert (Hr : r = (Raise (AssertionError "Element given, but we are not sharing?"),
                      write_pc (q ++ [k + 1]) s)).
    { subst r. unfold prss_share. apply inc_pc_wrapper_raises; [done|].
      unfold prss_share_body, bind, get_self, assert. rewrite id_write_pc.
      by rewrite bool_decide_false. }
    by rewrite Hr.
Qed.

(** Player 1 alone: a threshold of 0 is refused; [prss_share] for the
    inputters [[1]] without an element is refused. *)
Lemma usage_errors_at_call_time_witness :
  BasicRuntime_init 1 0 = Raise (AssertionError "Must use a positive threshold.") /\
  prss_share (fun _ _ _ _ _ => 0) (fun _ _ => 0) [1] (GF 31) None example_runtime
  = (Raise (AssertionError "No element given."), write_pc [1] example_runtime).
Proof.
  destruct usage_errors_at_call_time as (H1 & H2 & _). split.
  - apply H1. lia.
  - destruct (H2 (fun _ _ _ _ _ => 0) (fun _ _ => 0) [1] (GF 31)
                 example_runtime [] 0 eq_refl) as [H _].
    + apply (bool_decide_unpack _). vm_compute. exact I.
    + exact H.
Defined.



(** * Further properties *)

(** X1. Data first: when [ds] arrive for a key that has no entry and the
    runtime then registers the waiters [ws] for it (no more than there is
    data), the waiters get the data in the order of arrival, and what is
    left in the queue is the data that arrived last. *)
Theorem incoming_data_fifo_data_first pc ty ds ws p n :
  peer_id p = Some n ->
  incoming_data p !! (pc, ty) = None ->
  (length ws <= length ds)%nat ->
  run_out (map (Received pc ty) ds ++ map (Expected (pc, ty)) ws) p =
    (zip ws (take (length ws) ds),
     with_queue (pc, ty) (map Payload (drop (length ws) ds)) p) /\
  (length ws = length ds ->
   run_out (map (Received pc ty) ds ++ map (Expected (pc, ty)) ws) p = (zip ws ds, p)).
Proof.
  intros Hid Hk Hlen.
  assert (H : run_out (map (Received pc ty) ds ++ map (Expected (pc, ty)) ws) p =
    (zip ws (take (length ws) ds),
     with_queue (pc, ty) (map Payload (drop (length ws) ds)) p)).
  { rewrite run_out_app.
    rewrite <- (with_queue_absent (pc, ty) p Hk) at 1.
    change [] with (map Payload []).
    rewrite (run_out_buffer pc ty ds p [] n Hid). cbn [app].
    by rewrite (run_out_serve (pc, ty) ws p ds Hlen). }
  split; [exact H|]. intros Heq. rewrite H, Heq.
  rewrite firstn_all, drop_all. simpl. by rewrite with_queue_absent.
Qed.

Lemma incoming_data_fifo_data_first_witness :
  run_out [Received [1; 0] "share" (DInt 5); Received [1; 0] "share" (DInt 6);
           Expected ([1; 0], "share") 10%nat; Expected ([1; 0], "share") 11%nat]
          (connected 2)
  = ([(10%nat, DInt 5); (11%nat, DInt 6)], connected 2).
Proof.
  destruct (incoming_data_fifo_data_first [1; 0] "share" [DInt 5; DInt 6]
              [10%nat; 11%nat] (connected 2) 2 eq_refl eq_refl (le_n 2))
    as [_ H].
  exact (H eq_refl).
Defined.

(** X2. Waiters first: when the runtime registers the waiters [ws] for a
    key that has no entry and [ds] then arrive for it (no more than there
    are waiters), the waiters get the data in the order of registration,
    and the waiters registered last stay in the queue. *)
Theorem incoming_data_fifo_waiters_first pc ty ds ws p n :
  peer_id p = Some n ->
  incoming_data p !! (pc, ty) = None ->
  (length ds <= length ws)%nat ->
  run_out (map (Expected (pc, ty)) ws ++ map (Received pc ty) ds) p =
    (zip (take (length ds) ws) ds,
     with_queue (pc, ty) (map Waiter (drop (length ds) ws)) p) /\
  (length ds = length ws ->
   run_out (map (Expected (pc, ty)) ws ++ map (Received pc ty) ds) p = (zip ws ds, p)).
Proof.
  intros Hid Hk Hlen.
  assert (H : run_out (map (Expected (pc, ty)) ws ++ map (Received pc ty) ds) p =
    (zip (take (length ds) ws) ds,
     with_queue (pc, ty) (map Waiter (drop (length ds) ws)) p)).
  { rewrite run_out_app.
    rewrite <- (with_queue_absent (pc, ty) p Hk) at 1.
    change [] with (map Waiter []).
    rewrite (run_out_wait (pc, ty) ws p []). cbn [app].
    by rewrite (run_out_feed pc ty ds p ws n Hid Hlen). }
  split; [exact H|]. intros Heq. rewrite H, Heq.
  rewrite firstn_all, drop_all. simpl. by rewrite with_queue_absent.
Qed.

Lemma incoming_data_fifo_waiters_first_witness :
  run_out [Expected ([1; 0], "share") 10%nat; Expected ([1; 0], "share") 11%nat;
           Received [1; 0] "share" (DInt 5); Received [1; 0] "share" (DInt 6)]
          (connected 2)
  = ([(10%nat, DInt 5); (11%nat, DInt 6)], connected 2).
Proof.
  destruct (incoming_data_fifo_waiters_first [1; 0] "share" [DInt 5; DInt 6]
              [10%nat; 11%nat] (connected 2) 2 eq_refl eq_refl (le_n 2))
    as [_ H].
  exact (H eq_refl).
Defined.

(** X3. The queues of different keys are independent: events for other
    keys (other program counters or other kinds of data) leave the queue
    of a key as it is. *)
Theorem incoming_data_other_keys es p (k' : key) :
  Forall (fun e => event_key e <> k') es ->
  incoming_data (snd (run_out es p)) !! k' = incoming_data p !! k'.
Proof.
  revert p. induction es as [|e es IH]; intros p H; [done|].
  apply Forall_cons in H as [He Hes]. cbn [run_out].
  pose proof (step_out_other_key p e k' He) as Hstep.
  destruct (step_out p e) as [o p']. specialize (IH p' Hes).
  destruct (run_out es p') as [os p'']. simpl in *. congruence.
Qed.

Lemma incoming_data_other_keys_witness :
  incoming_data
    (snd (run_out [Received [2; 0] "share" (DInt 9); Expected ([1; 0], "echo") 3%nat]
                  (with_queue ([1; 0], "share") [Payload (DInt 5)] (connected 2))))
    !! ([1; 0], "share") = Some [Payload (DInt 5)].
Proof.
  rewrite (incoming_data_other_keys
             [Received [2; 0] "share" (DInt 9); Expected ([1; 0], "echo") 3%nat]
             (with_queue ([1; 0], "share") [Payload (DInt 5)] (connected 2))
             ([1; 0], "share")).
  - reflexivity.
  - repeat constructor; simpl; discriminate.
Defined.

(** X4. Counted operations called one after the other run at the
    counters [q ++ [k+1; 0]], [q ++ [k+2; 0]], ...: each one gets its own
    program counter, fixed by the counter at the start and its rank in the
    sequence, and after [n] operations the counter is [q ++ [k+n]]. *)
Theorem successive_operations_counters {A} (ms : list (M A)) s q k :
  Forall balanced ms -> Forall returns ms ->
  read_pc s = q ++ [k] ->
  exists s',
    collect ms (fun m => inc_pc_wrapper (noting_pc m)) s =
      (Return (map (fun i => q ++ [k + Z.of_nat i; 0]) (seq 1 (length ms))), s') /\
    read_pc s' = q ++ [k + Z.of_nat (length ms)] /\
    NoDup (map (fun i => q ++ [k + Z.of_nat i; 0]) (seq 1 (length ms))).
Proof.
  intros Hb Hr Hpc.
  destruct (collect_noting_pc ms s q k Hb Hr Hpc) as (s' & H & Hpc').
  exists s'. split; [exact H|]. split; [exact Hpc'|].
  change (map ?f ?l) with (f <$> l). apply NoDup_fmap_2; [|apply NoDup_seq].
  intros i j E. apply app_inv_head in E. injection E as E. lia.
Qed.

(** Three counted operations from the initial counter [[0]], the second
    one itself calling a counted operation. *)
Lemma successive_operations_counters_witness :
  exists s',
    collect [ret tt; inc_pc_wrapper (ret tt); ret tt]
            (fun m => inc_pc_wrapper (noting_pc m)) example_runtime =
      (Return [[1; 0]; [2; 0]; [3; 0]], s') /\
    read_pc s' = [3].
Proof.
  destruct (successive_operations_counters
              [ret tt; inc_pc_wrapper (ret tt); ret tt] example_runtime [] 0)
    as (s' & H1 & H2 & _).
  - apply Forall_cons_2; [apply balanced_ret|].
    apply Forall_cons_2; [apply balanced_inc_pc_wrapper, balanced_ret|].
    apply Forall_cons_2; [apply balanced_ret | apply Forall_nil_2].
  - apply Forall_cons_2; [intros s Hs; by exists tt|].
    apply Forall_cons_2; [|apply Forall_cons_2; [intros s Hs; by exists tt | apply Forall_nil_2]].
    intros s Hs. exists tt. destruct (last (read_pc s)) as [n|] eqn:E.
    + apply last_Some in E as [l' E].
      by rewrite (inc_pc_wrapper_run _ s l' n (balanced_ret tt) E).
    + by apply last_None in E.
  - reflexivity.
  - exists s'. split; [exact H1 | exact H2].
Defined.
(** X5. Callbacks scheduled one after the other from the same method hold
    separate copies of the same program counter: both functions start
    with the counter the method had, and running the first (whatever
    counted operations it performs) does not change the counter the
    second starts with. *)
Theorem callbacks_of_one_method {V A} (f1 f2 : V -> M A) s w1 s1 w2 s2 v :
  schedule_callback f1 s = (Return w1, s1) ->
  schedule_callback f2 s1 = (Return w2, s2) ->
  local_pc (f1 v) ->
  saved_pc w1 <> saved_pc w2 /\
  read_pc (set_program_counter (saved_pc w1) s2) = read_pc s /\
  read_pc (set_program_counter (saved_pc w2) s2) = read_pc s /\
  read_pc (set_program_counter (saved_pc w2)
             (snd (run_callback_wrapper w1 v s2))) = read_pc s.
Proof.
  intros H1 H2 Hloc.
  rewrite schedule_callback_run in H1. injection H1 as <- <-.
  rewrite schedule_callback_run in H2. injection H2 as <- <-.
  cbn [saved_pc func].
  set (l1 := fresh (dom (objects s))).
  set (m1 := <[l1 := read_pc s]> (objects s)).
  set (s1 := set_objects m1 s).
  set (l2 := fresh (dom (objects s1))).
  assert (Hl1 : m1 !! l1 = Some (read_pc s)) by apply lookup_insert_eq.
  assert (Hne : l1 <> l2).
  { intros E. pose proof (is_fresh (dom (objects s1))) as Hf. fold l2 in Hf.
    apply Hf. rewrite <- E. apply elem_of_dom. simpl. eauto. }
  assert (Hpc1 : read_pc s1 = read_pc s).
  { destruct (keeps_pc_save_pc s) as [_ H]. exact H. }
  split; [exact Hne|].
  assert (Ha : read_pc (set_program_counter l1
                 (set_objects (<[l2 := read_pc s1]> (objects s1)) s1)) = read_pc s).
  { unfold read_pc at 1, deref. simpl.
    rewrite lookup_insert_ne by done. by rewrite Hl1. }
  assert (Hb : read_pc (set_program_counter l2
                 (set_objects (<[l2 := read_pc s1]> (objects s1)) s1)) = read_pc s).
  { unfold read_pc at 1, deref. simpl. by rewrite lookup_insert_eq. }
  split; [exact Ha|]. split; [exact Hb|].
  rewrite run_callback_wrapper_unfold. cbn [saved_pc func fst snd].
  set (s_in := set_program_counter l1 _).
  destruct (Hloc s_in) as [_ Hframe].
  rewrite read_pc_set_program_counter, deref_set_program_counter.
  unfold deref. change (fresh (dom m1)) with l2. rewrite (Hframe l2).
  - subst s_in. simpl. by rewrite lookup_insert_eq.
  - subst s_in. simpl. congruence.
  - subst s_in. simpl. rewrite lookup_insert_eq. eauto.
Qed.

(** Two callbacks scheduled at counter [[0]]; the first performs a
    counted operation, the second still sees [[0]]. *)
Lemma callbacks_of_one_method_witness :
  let f1 := fun (_ : unit) => inc_pc_wrapper (ret tt) in
  let f2 := fun (_ : unit) => tuple_program_counter ;;; ret tt in
  let r1 := schedule_callback f1 example_runtime in
  let w1 := mkWrapper 1%nat f1 in
  let r2 := schedule_callback f2 (snd r1) in
  let w2 := mkWrapper 2%nat f2 in
  read_pc (set_program_counter (saved_pc w2)
             (snd (run_callback_wrapper w1 tt (snd r2)))) = [0] /\
  deref (snd (run_callback_wrapper w1 tt (snd r2))) (saved_pc w1) = [1].
Proof.
  intros f1 f2 r1 w1 r2 w2.
  destruct (callbacks_of_one_method f1 f2 example_runtime w1 (snd r1) w2 (snd r2) tt
              eq_refl eq_refl (local_pc_inc_pc_wrapper _ (local_pc_ret tt)))
    as (_ & _ & _ & H).
  split; [exact H | reflexivity].
Defined.

(** X6. From demand to pool.  The demands of a generator are recorded in
    the order of the calls.  Once [update] has stored the generated items
    under the recorded program counters (distinct counters), a call of the
    proxy at the [i]-th recorded counter returns the [i]-th item without
    calling the method; a recorded counter for which no item was
    generated is still missing from a pool that did not have it. *)
Theorem preprocess_demand_then_pool generator method args
    (pcs : list (list Z)) (ds : list (list Deferred)) s :
  NoDup pcs ->
  (forall pc1 pc2 s0,
     _needed_data
       (needed_data_append (generator, args) pc2
          (needed_data_append (generator, args) pc1 s0)) !! (generator, args)
     = Some (default [] (_needed_data s0 !! (generator, args)) ++ [pc1; pc2])) /\
  (forall i pc d s',
     pcs !! i = Some pc -> concat ds !! i = Some d ->
     _pool s' = _pool (pool_update pcs ds s) -> read_pc s' = pc ->
     preprocess_wrapper generator method args s' = (Return d, s')) /\
  (forall i pc,
     pcs !! i = Some pc -> (length (concat ds) <= i)%nat -> _pool s !! pc = None ->
     _pool (pool_update pcs ds s) !! pc = None).
Proof.
  intros Hnd. split; [|split].
  - intros. apply needed_data_append_twice.
  - intros i pc d s' Hpc Hd Hpool Hread.
    unfold preprocess_wrapper. rewrite Hread, Hpool. unfold pool_update. simpl.
    rewrite (dict_update_lookup _ _ i pc d); [done | |].
    + rewrite map_fst_zip_sublist.
      exact (sublist_NoDup _ _ Hnd (sublist_take _ _)).
    + apply lookup_zip_with_Some. eauto.
  - intros i pc Hpc Hlen Hnone. unfold pool_update. simpl.
    rewrite dict_update_not_in; [done|].
    rewrite map_fst_zip_sublist. intros Hin.
    apply list_elem_of_lookup in Hin as [j Hj].
    apply lookup_take_Some in Hj as [Hj Hlt].
    assert (i = j) by (eapply NoDup_lookup; eauto). lia.
Qed.

(** Two demands, at [[1; 0]] and [[2; 0]]; one batch of two triples. *)
Lemma preprocess_demand_then_pool_witness :
  let s := pool_update [[1; 0]; [2; 0]] [[7%nat; 8%nat]] example_runtime in
  preprocess_wrapper "generate_triples" (fun _ => raise (OtherError 0)) [GF 31]
    (write_pc [2; 0] s)
  = (Return 8%nat, write_pc [2; 0] s).
Proof.
  intros s.
  destruct (preprocess_demand_then_pool "generate_triples"
              (fun _ => raise (OtherError 0)) [GF 31]
              [[1; 0]; [2; 0]] [[7%nat; 8%nat]] example_runtime) as (_ & H & _).
  - apply (bool_decide_unpack _). vm_compute. exact I.
  - apply (H 1%nat [2; 0] 8%nat); reflexivity.
Defined.

(** X7. [gather_shares]: for a non-empty list of shares, whatever the
    order in which they resolve, the share list fires when the last one
    resolves and not before, and [filter_results] turns what it fires with
    into the list of the values in the order of the original list. *)
Theorem gather_shares_in_list_order {V} (shares : list Deferred)
    (rs : list (resolution V)) :
  shares <> [] ->
  NoDup (map res_index rs) ->
  Forall (fun r => (res_index r < length shares)%nat) rs ->
  length rs = length shares ->
  exists (sl : ShareList V) fired vs,
    ShareList_init shares None = Return sl /\
    fst (resolve_all rs sl) =
      replicate (length shares - 1) (Return None) ++ [Return (Some fired)] /\
    filter_results fired = Return vs /\
    length vs = length shares /\
    forall r, r ∈ rs -> vs !! res_index r = Some (res_value r).
Proof.
  intros Hne Hnd Hin Hlen.
  destruct (gather_all (length shares) rs Hnd Hin Hlen) as (vs & Hvs & Hl & Hlk).
  exists (mkShareList (replicate (length shares) None) (Z.of_nat (length shares)) false),
         (pairs_of (length shares) rs), vs.
  assert (Hpos : (0 < length shares)%nat) by (destruct shares; [done | simpl; lia]).
  split.
  { unfold ShareList_init.
    assert (negb (0 <? Z.of_nat (length shares)) = false) as ->; [|done].
    apply negb_false_iff, Z.ltb_lt. lia. }
  split; [|done].
  rewrite resolve_all_outputs by (simpl; by rewrite length_replicate).
  rewrite Hlen.
  replace (length shares) with (S (length shares - 1)) at 1 by lia.
  rewrite seq_S, map_app. cbn [map]. f_equal.
  - apply list_eq. intros j. change (map ?f ?l) with (f <$> l).
    rewrite list_lookup_fmap.
    destruct (decide (j < length shares - 1)%nat) as [Hj|Hj].
    + rewrite lookup_seq_lt by done. rewrite lookup_replicate_2 by done. simpl.
      rewrite decide_False; [done|]. unfold fires_at. simpl. lia.
    + rewrite lookup_seq_ge by lia.
      symmetry. apply lookup_ge_None_2. rewrite length_replicate. lia.
  - rewrite decide_True by (unfold fires_at; simpl; split; [done|lia]).
    simpl. do 3 f_equal.
    replace (S (length shares - 1)) with (length rs) by lia.
    rewrite firstn_all. by apply store_all_pairs_of.
Qed.

(** Three shares that resolve in the order third, first, second. *)
Lemma gather_shares_in_list_order_witness :
  exists (sl : ShareList Z) fired,
    ShareList_init [0%nat; 1%nat; 2%nat] None = Return sl /\
    fst (resolve_all [mkResolution 2 true 30; mkResolution 0 true 10;
                      mkResolution 1 true 20] sl) =
      [Return None; Return None; Return (Some fired)] /\
    filter_results fired = Return [10; 20; 30].
Proof.
  destruct (gather_shares_in_list_order [0%nat; 1%nat; 2%nat]
              [mkResolution 2 true 30; mkResolution 0 true 10; mkResolution 1 true 20])
    as (sl & fired & vs & H1 & H2 & H3 & H4 & H5).
  - discriminate.
  - apply (bool_decide_unpack _). vm_compute. exact I.
  - repeat constructor; simpl; lia.
  - reflexivity.
  - exists sl, fired. split; [exact H1|]. split; [exact H2|].
    rewrite H3. f_equal.
    pose proof (H5 (mkResolution 0 true 10) ltac:(set_solver)) as E0.
    pose proof (H5 (mkResolution 1 true 20) ltac:(set_solver)) as E1.
    pose proof (H5 (mkResolution 2 true 30) ltac:(set_solver)) as E2.
    destruct vs as [|a [|b [|c [|]]]]; try discriminate.
    simpl in E0, E1, E2. congruence.
Defined.
(** X8. [_recombine] returns a share exactly when
    [0 <= threshold < len(shares)].  With too few shares its own
    assertion fails; with a negative threshold the constructor of the
    share list refuses the threshold [threshold + 1] (or the empty list).
    In each failing case no [Deferred] has been created and no callback
    added; the counted method has only advanced the program counter. *)
Theorem recombine_needs_enough_shares shares field thr s q k :
  read_pc s = q ++ [k] ->
  (Z.of_nat (length shares) <= thr ->
   _recombine shares field thr s =
     (Raise (AssertionError EmptyString), write_pc (q ++ [k + 1]) s)) /\
  (thr < 0 -> shares <> [] ->
   _recombine shares field thr s =
     (Raise (AssertionError "Threshold out of range"), write_pc (q ++ [k + 1]) s)) /\
  (thr < 0 -> shares = [] ->
   _recombine shares field thr s =
     (Raise (AssertionError "Cannot create empty ShareList"),
      write_pc (q ++ [k + 1]) s)) /\
  (0 <= thr < Z.of_nat (length shares) ->
   fst (_recombine shares field thr s) = Return (next_deferred s)).
Proof.
  intros Hpc. split; [|split; [|split]].
  - intros Hlen. unfold _recombine. apply inc_pc_wrapper_raises; [done|].
    unfold _recombine_body, bind, assert.
    assert ((thr <? Z.of_nat (length shares)) = false) as -> by (apply Z.ltb_ge; lia).
    reflexivity.
  - intros Hneg Hne. unfold _recombine. apply inc_pc_wrapper_raises; [done|].
    unfold _recombine_body, bind, assert.
    assert ((thr <? Z.of_nat (length shares)) = true) as -> by (apply Z.ltb_lt; lia).
    unfold ret at 1. unfold ShareList_init.
    assert (negb (0 <? Z.of_nat (length shares)) = false) as ->.
    { apply negb_false_iff, Z.ltb_lt. destruct shares; [done | simpl; lia]. }
    assert ((0 <? thr + 1) = false) as -> by (apply Z.ltb_ge; lia).
    reflexivity.
  - intros Hneg ->. unfold _recombine. apply inc_pc_wrapper_raises; [done|].
    unfold _recombine_body, bind, assert. cbn [length].
    change (Z.of_nat 0) with 0.
    assert ((thr <? 0) = true) as -> by (apply Z.ltb_lt; lia).
    reflexivity.
  - intros Hthr.
    destruct (recombine_run shares field thr s q k Hpc Hthr) as (s' & H & _).
    by rewrite H.
Qed.

(** Reconstruction with threshold 2 from two shares is refused. *)
Lemma recombine_needs_enough_shares_witness :
  _recombine [0%nat; 1%nat] (GF 31) 2 example_runtime =
    (Raise (AssertionError EmptyString), write_pc [1] example_runtime) /\
  fst (_recombine [0%nat; 1%nat] (GF 31) 1 example_runtime) = Return 0%nat.
Proof.
  destruct (recombine_needs_enough_shares [0%nat; 1%nat] (GF 31) 2
              example_runtime [] 0 eq_refl) as (H1 & _).
  destruct (recombine_needs_enough_shares [0%nat; 1%nat] (GF 31) 1
              example_runtime [] 0 eq_refl) as (_ & _ & _ & H2).
  split; [apply H1; simpl; lia | apply H2; simpl; lia].
Defined.

(** X9. The connection barrier of [create_runtime].  While distinct
    players of the configuration identify themselves to the factory of a
    new runtime, [protocols_ready] is not called as long as one of the
    other players is missing; it is called once, when the last one has
    identified itself, with a runtime that knows every player of the
    configuration, has the connection of every other player, and whose
    [open] (to everybody) returns a share.  With a configuration of one
    player it is never called. *)
Theorem runtime_ready_when_all_identified own threshold config conn ids s
    share field :
  BasicRuntime_init own threshold = Return s ->
  own ∈ config -> NoDup ids ->
  (forall i, i ∈ ids -> i ∈ config /\ i <> own) ->
  (forall i, peer_id (conn i) = Some i) ->
  let f := identify_all (map conn ids) (Factory_init s config) in
  (Z.of_nat (length ids) < Z.of_nat (length config) - 1 \/ ids = [] ->
   protocols_ready f = []) /\
  (Z.of_nat (length ids) = Z.of_nat (length config) - 1 -> ids <> [] ->
   protocols_ready f = [f_runtime f] /\
   num_players (f_runtime f) = Z.of_nat (length config) /\
   (forall i, i ∈ config -> i ∈ players (f_runtime f)) /\
   (forall i, i ∈ config -> i <> own ->
              protocols (f_runtime f) !! i = Some (conn i)) /\
   fst (open share field None None (f_runtime f))
     = Return (Some (next_deferred (f_runtime f)))).
Proof.
  intros Hinit Hown Hnd Hids Hconn f.
  pose proof (factory_ok_all own config conn [] ids (Factory_init s config)
                (factory_ok_init own threshold config conn s Hinit)
                Hown Hnd Hids Hconn)
    as (Hc & Hid & Hpl & Hnp & Hneed & Hpc & Hpr & Hready).
  fold f in Hc, Hid, Hpl, Hnp, Hneed, Hpc, Hpr, Hready. simpl in *.
  split.
  - intros H. rewrite Hready. rewrite decide_False; [done|].
    intros [H1 H2]. destruct H as [H|H]; [lia | done].
  - intros Hlen Hne.
    assert (Hperm : own :: ids ≡ₚ config).
    { apply submseteq_length_Permutation.
      - apply NoDup_submseteq.
        + apply NoDup_cons. split; [|done]. intros H. by destruct (Hids own H).
        + intros x Hx. apply elem_of_cons in Hx as [->|Hx]; [done|]. by apply Hids.
      - simpl. lia. }
    split; [rewrite Hready; by rewrite decide_True by (split; [lia | done])|].
    split; [rewrite Hnp; lia|].
    split; [intros i Hi; rewrite Hpl; by rewrite Hperm|].
    split.
    + intros i Hi Hne'. apply Hpr. rewrite <- Hperm in Hi.
      apply elem_of_cons in Hi as [Hi|Hi]; done.
    + destruct (open_run share field None None (f_runtime f) [] 0 Hpc) as (H1 & _).
      rewrite H1. simpl. rewrite bool_decide_true; [done|].
      rewrite Hpl, Hid. by left.
Qed.

(** Player 1 of the configuration [[1; 2; 3]]: after player 3 alone the
    runtime is not handed over; after players 3 and 2 it is, with three
    players. *)
Lemma runtime_ready_when_all_identified_witness :
  protocols_ready (identify_all [connected 3] (Factory_init example_runtime [1; 2; 3]))
    = [] /\
  num_players
    (f_runtime (identify_all [connected 3; connected 2]
                  (Factory_init example_runtime [1; 2; 3]))) = 3 /\
  length (protocols_ready (identify_all [connected 3; connected 2]
                             (Factory_init example_runtime [1; 2; 3]))) = 1%nat.
Proof.
  assert (Hown : 1 ∈ [1; 2; 3]) by (apply (bool_decide_unpack _); vm_compute; exact I).
  assert (Hc : forall i, peer_id (connected i) = Some i) by reflexivity.
  assert (Hnd1 : NoDup [3]) by (apply (bool_decide_unpack _); vm_compute; exact I).
  assert (Hnd2 : NoDup [3; 2]) by (apply (bool_decide_unpack _); vm_compute; exact I).
  assert (Hin1 : forall i, i ∈ [3] -> i ∈ [1; 2; 3] /\ i <> 1).
  { intros i Hi. apply list_elem_of_singleton in Hi as ->.
    split; [|done]. apply (bool_decide_unpack _). vm_compute. exact I. }
  assert (Hin2 : forall i, i ∈ [3; 2] -> i ∈ [1; 2; 3] /\ i <> 1).
  { intros i Hi. apply elem_of_cons in Hi as [->|Hi];
      [|apply list_elem_of_singleton in Hi as ->];
      (split; [|done]); apply (bool_decide_unpack _); vm_compute; exact I. }
  pose proof (runtime_ready_when_all_identified 1 1 [1; 2; 3] connected [3]
                example_runtime 0%nat (GF 31) eq_refl Hown Hnd1 Hin1 Hc) as (H1 & _).
  pose proof (runtime_ready_when_all_identified 1 1 [1; 2; 3] connected [3; 2]
                example_runtime 0%nat (GF 31) eq_refl Hown Hnd2 Hin2 Hc) as (_ & H2).
  destruct (H2 eq_refl ltac:(discriminate)) as (Hr & Hn & _).
  split; [apply H1; left; simpl; lia|]. split; [exact Hn|]. exact (f_equal (@length _) Hr).
Defined.

(** X10. [IntegerFieldElement.__invert__] returns, and [x * ~x] is the
    greatest common divisor of [x.value] and the modulus, reduced: it is
    one exactly for the elements whose value is prime to the modulus (all
    non-zero elements of a prime field), so [~x] is then the inverse of
    [x]. *)
Theorem invert_is_inverse {modulus : Z} (fuel : nat)
    (x : Field.IntegerFieldElement modulus) :
  1 < modulus -> (Z.to_nat modulus <= fuel)%nat ->
  exists inverse,
    invert fuel x = Some inverse /\
    Field.mul x inverse = Field.init (Z.gcd (Field.value x) modulus) /\
    (Field.mul x inverse = Field.init 1 <-> Z.gcd (Field.value x) modulus = 1).
Proof.
  intros Hm Hf.
  destruct (invert_gcd fuel x) as (inverse & Hi & Hmul); [lia|done|].
  exists inverse. split; [done|]. split; [done|].
  rewrite Hmul. split.
  - intros H. apply (f_equal Field.value) in H. rewrite !Field.value_init in H.
    rewrite (Z.mod_small 1) in H by lia.
    pose proof (Z.gcd_nonneg (Field.value x) modulus) as Hg.
    pose proof (Z.gcd_divide_r (Field.value x) modulus) as Hd.
    pose proof (Z.gcd_divide_l (Field.value x) modulus) as Hd'.
    destruct (decide (Z.gcd (Field.value x) modulus = modulus)) as [Heq|Hne].
    + rewrite Heq, Z_mod_same_full in H. done.
    + apply Z.divide_pos_le in Hd; [|lia].
      rewrite Z.mod_small in H by lia. done.
  - by intros ->.
Qed.

Lemma invert_is_inverse_witness :
  exists inverse : Field.IntegerFieldElement 31,
    invert 31 (Field.init 3) = Some inverse /\
    Field.mul (Field.init 3) inverse = Field.init 1.
Proof.
  destruct (invert_is_inverse (modulus := 31) 31 (Field.init 3))
    as (inverse & Hi & _ & Hone); [lia | simpl; lia |].
  exists inverse. split; [exact Hi|]. apply Hone. reflexivity.
Defined.

(** X11. Division undoes multiplication: for [y] prime to the modulus,
    [x / y] returns, [(x / y) * y = x] and [(x * y) / y = x]. *)
Theorem div_mul_round_trip {modulus : Z} (fuel : nat)
    (x y : Field.IntegerFieldElement modulus) :
  1 < modulus -> (Z.to_nat modulus <= fuel)%nat ->
  Z.gcd (Field.value y) modulus = 1 ->
  (exists q, div fuel x y = Some q /\ Field.mul q y = x) /\
  div fuel (Field.mul x y) y = Some x.
Proof.
  intros Hm Hf Hg.
  destruct (invert_gcd fuel y) as (inverse & Hi & Hmul); [lia|done|].
  rewrite Hg in Hmul.
  pose proof (@Field.ring_laws modulus) as R.
  assert (Hx : Field.mul (Field.mul x inverse) y = x).
  { rewrite <- (Rmul_assoc R), (Rmul_comm R inverse y), Hmul.
    rewrite (Rmul_comm R), (Rmul_1_l R). done. }
  unfold div. rewrite Hi. split.
  - exists (Field.mul x inverse). done.
  - f_equal. rewrite <- (Rmul_assoc R), Hmul.
    rewrite (Rmul_comm R), (Rmul_1_l R). done.
Qed.

Lemma div_mul_round_trip_witness :
  div (modulus := 31) 31 (Field.mul (Field.init 5) (Field.init 3)) (Field.init 3)
    = Some (Field.init 5).
Proof.
  apply (div_mul_round_trip (modulus := 31) 31 (Field.init 5) (Field.init 3));
    [lia | simpl; lia | reflexivity].
Defined.

(** X12. Inverting zero raises nothing: [~0] is [0], and so is [x / 0]
    for every [x]. *)
Theorem invert_zero_is_zero {modulus : Z} (fuel : nat)
    (x : Field.IntegerFieldElement modulus) :
  0 < modulus -> (1 <= fuel)%nat ->
  invert fuel (Field.init (modulus := modulus) 0) = Some (Field.init 0) /\
  div fuel x (Field.init 0) = Some (Field.init 0).
Proof.
  intros Hm Hf.
  assert (Hi : invert fuel (Field.init (modulus := modulus) 0) = Some (Field.init 0)).
  { destruct fuel as [|fuel]; [lia|].
    unfold invert, extended_gcd. rewrite Field.value_init, Z.mod_0_l by lia.
    simpl. destruct (modulus =? 0) eqn:E; [apply Z.eqb_eq in E; lia|].
    rewrite Z.div_0_l, Z.mod_0_l by lia.
    destruct fuel; reflexivity. }
  split; [done|]. unfold div. rewrite Hi. f_equal.
  apply Field.elt_eq. unfold Field.mul. rewrite !Field.value_init.
  rewrite Z.mod_0_l by lia. by rewrite Z.mul_0_r.
Qed.

Lemma invert_zero_is_zero_witness :
  div (modulus := 31) 1 (Field.init 7) (Field.init 0) = Some (Field.init 0).
Proof.
  apply (invert_zero_is_zero (modulus := 31) 1 (Field.init 7)); lia.
Defined.

(** X13. [sqrt] in a prime field whose modulus is 3 modulo 4: the square
    root of a square [y * y] is returned (no exception), and its square is
    [y * y] again. *)
Theorem sqrt_of_square {modulus : Z} (y : Field.IntegerFieldElement modulus) :
  Z.prime modulus -> modulus mod 4 = 3 ->
  exists root,
    sqrt (Field.mul y y) = Return root /\
    Field.mul root root = Field.mul y y.
Proof.
  intros Hp H4. pose proof Hp as [Hm _].
  set (k := (modulus + 1) / 4).
  assert (Hk : modulus + 1 = 4 * k).
  { unfold k. pose proof (Z.div_mod modulus 4 ltac:(lia)) as Hd.
    rewrite H4 in Hd.
    replace (modulus + 1) with ((modulus / 4 + 1) * 4) by lia.
    rewrite Z.div_mul by lia. lia. }
  assert (0 <= k) by lia.
  unfold sqrt, builtin_pow. fold k.
  destruct (k <? 0) eqn:E; [apply Z.ltb_lt in E; lia|].
  eexists. split; [reflexivity|].
  apply Field.elt_eq. unfold Field.mul. rewrite !Field.value_init.
  set (v := Field.value y).
  rewrite Zmod_mod, <- Zmult_mod, <- Z.pow_mul_l.
  rewrite <- Z.mod_pow_l, <- Zmult_mod, Z.mod_pow_l.
  replace (v * v * (v * v)) with (v ^ 4) by ring.
  rewrite <- Z.pow_mul_r by lia.
  replace (4 * k) with (modulus + 1) by lia.
  rewrite Z.pow_add_r, Z.pow_1_r by lia.
  rewrite Zmult_mod, Z.fermat by done.
  by rewrite <- Zmult_mod.
Qed.

Lemma sqrt_of_square_witness :
  exists root : Field.IntegerFieldElement 7,
    sqrt (Field.mul (Field.init 3) (Field.init 3)) = Return root /\
    Field.mul root root = Field.mul (Field.init 3) (Field.init 3).
Proof.
  apply (sqrt_of_square (modulus := 7) (Field.init 3)); [|reflexivity].
  split; [lia|]. intros n Hn [q Hq].
  assert (n = 2 \/ n = 3 \/ n = 4 \/ n = 5 \/ n = 6) as Hc by lia.
  destruct Hc as [->|[->|[->|[->| ->]]]]; lia.
Defined.

(** X14. The tables built by [_generate_tables()] make
    [GF256Element.__mul__] the multiplication of GF(2^8): building the
    tables raises nothing, and the product of two elements is the product
    of their values as polynomials over GF(2), reduced modulo
    [x^8 + x^4 + x^3 + x + 1]; no lookup in the tables fails. *)
Theorem gf256_mul_is_polynomial_product :
  exists t,
    _generate_tables = Return t /\
    forall u v,
      gf256_mul t (Field.GF256.init u) (Field.GF256.init v)
        = Return (Field.GF256.init (polynomial_product (u mod 256) (v mod 256))).
Proof.
  exists gf256_tables. split; [apply generate_tables_returns|].
  intros u v.
  pose proof (Z.mod_pos_bound u 256 ltac:(lia)) as Hu.
  pose proof (Z.mod_pos_bound v 256 ltac:(lia)) as Hv.
  destruct (polynomial_product_byte (u mod 256) (v mod 256) Hu Hv) as [H _].
  unfold Field.GF256.init, Field.GF256.modulus in *.
  by rewrite !Zmod_mod in H.
Qed.

(** X15. [GF256Element.__invert__]: for the values 1..254 it returns the
    inverse ([x * ~x] and [x / x] are one); for 0 and for 255 the table of
    inverses has no entry and [~x] raises [KeyError]. *)
Theorem gf256_invert_table :
  exists t,
    _generate_tables = Return t /\
    (forall v, 1 <= v mod 256 <= 254 ->
       exists inverse,
         gf256_invert t (Field.GF256.init v) = Return inverse /\
         gf256_mul t (Field.GF256.init v) inverse = Return (Field.GF256.init 1) /\
         gf256_div t (Field.GF256.init v) (Field.GF256.init v)
           = Return (Field.GF256.init 1)) /\
    gf256_invert t (Field.GF256.init 0) = Raise KeyError /\
    gf256_invert t (Field.GF256.init 255) = Raise KeyError.
Proof.
  exists gf256_tables. split; [apply generate_tables_returns|].
  pose proof inverse_table_true as H.
  apply andb_prop in H as [H H255]. apply andb_prop in H as [H H0].
  apply bool_decide_eq_true in H0, H255.
  split; [|split].
  - intros v Hv. apply forallb_seqZ with (v := v mod 256) in H; [|lia].
    unfold inverse_ok in H.
    assert (Hi : Field.GF256.init (v mod 256) = Field.GF256.init v).
    { unfold Field.GF256.init, Field.GF256.modulus. by rewrite Zmod_mod. }
    rewrite Hi in H. unfold gf256_div.
    destruct (gf256_invert gf256_tables (Field.GF256.init v)) as [i|];
      [|discriminate H].
    exists i. split; [reflexivity|]. cbn [obind].
    destruct (gf256_mul gf256_tables (Field.GF256.init v) i) as [[r]|];
      [|discriminate H].
    apply Z.eqb_eq in H. cbn [Field.GF256.value] in H. subst r.
    split; reflexivity.
  - unfold gf256_invert, getitem. change (Field.GF256.value (Field.GF256.init 0)) with 0.
    by rewrite H0.
  - unfold gf256_invert, getitem.
    change (Field.GF256.value (Field.GF256.init 255)) with 255.
    by rewrite H255.
Qed.

Lemma gf256_invert_table_witness :
  exists t inverse,
    _generate_tables = Return t /\
    gf256_invert t (Field.GF256.init 3) = Return inverse /\
    gf256_mul t (Field.GF256.init 3) inverse = Return (Field.GF256.init 1).
Proof.
  destruct gf256_invert_table as (t & Ht & Hinv & _).
  destruct (Hinv 3) as (inverse & Hi & Hm & _); [change (3 mod 256) with 3; lia|].
  exists t, inverse. split; [exact Ht|]. split; [exact Hi | exact Hm].
Defined.

(** X16. With the generated tables the elements of GF(2^8) form a
    commutative ring under [__add__] (exclusive or) and [__mul__]:
    multiplication is commutative and associative, the element 1 is its
    unit, and it distributes over addition; no product raises. *)
Theorem gf256_ring_laws :
  exists t,
    _generate_tables = Return t /\
    forall u v w,
      let x := Field.GF256.init u in
      let y := Field.GF256.init v in
      let z := Field.GF256.init w in
      gf256_mul t x y = gf256_mul t y x /\
      obind (gf256_mul t x y) (fun xy => gf256_mul t xy z)
        = obind (gf256_mul t y z) (fun yz => gf256_mul t x yz) /\
      gf256_mul t (Field.GF256.init 1) x = Return x /\
      gf256_mul t x (Field.GF256.add y z)
        = obind (gf256_mul t x y) (fun xy =>
          obind (gf256_mul t x z) (fun xz =>
          Return (Field.GF256.add xy xz))).
Proof.
  exists gf256_tables. split; [apply generate_tables_returns|].
  intros u v w x y z.
  pose proof (Z.mod_pos_bound u 256 ltac:(lia)) as Hu.
  pose proof (Z.mod_pos_bound v 256 ltac:(lia)) as Hv.
  pose proof (Z.mod_pos_bound w 256 ltac:(lia)) as Hw.
  change x with (Field.GF256.MkGF256 (u mod 256)).
  change y with (Field.GF256.MkGF256 (v mod 256)).
  change z with (Field.GF256.MkGF256 (w mod 256)).
  clear x y z.
  set (a := u mod 256) in *. set (b := v mod 256) in *. set (c := w mod 256) in *.
  split; [apply gf256_mul_comm_byte|].
  split; [by apply gf256_mul_assoc_byte|].
  split; [rewrite (init_byte 1) by lia; by apply gf256_mul_one_byte|].
  unfold Field.GF256.add. cbn [Field.GF256.value].
  pose proof (lxor_byte b c Hv Hw) as Hbc.
  destruct (polynomial_product_byte a (Z.lxor b c) Hu Hbc) as [H1 _].
  destruct (polynomial_product_byte a b Hu Hv) as [H2 Hab].
  destruct (polynomial_product_byte a c Hu Hw) as [H3 Hac].
  rewrite (init_byte a) in H1, H2, H3 by lia.
  rewrite (init_byte b) in H2 by lia. rewrite (init_byte c) in H3 by lia.
  rewrite H1, H2, H3. cbn [obind].
  rewrite (init_byte (polynomial_product a b)) by lia.
  rewrite (init_byte (polynomial_product a c)) by lia.
  cbn [Field.GF256.value]. by rewrite polynomial_product_lxor.
Qed.

(** X17. [generate_subsets(orig_set, size)] returns exactly the subsets
    of [orig_set] that have [size] elements; in particular the empty set
    of sets when [size] is larger than the set, or negative. *)
Theorem generate_subsets_all_of_size `{Countable A} (fuel : nat)
    (orig_set : gset A) (size : Z) :
  (base.size orig_set < fuel)%nat ->
  exists R,
    generate_subsets fuel orig_set size = Some R /\
    (forall X, X ∈ R <-> X ⊆ orig_set /\ len X = size) /\
    (len orig_set < size \/ size < 0 -> R = ∅).
Proof.
  intros Hfuel.
  destruct (generate_subsets_spec fuel orig_set size Hfuel) as (R & HR & HX).
  exists R. split; [done|]. split; [done|].
  intros Hsize. apply leibniz_equiv. intros X. split.
  - intros HXR. apply HX in HXR as [HXo Hlen].
    apply subseteq_size in HXo. unfold len in *. lia.
  - intros HXe. by apply elem_of_empty in HXe.
Qed.

Lemma generate_subsets_all_of_size_witness :
  exists R : gset (gset Z),
    generate_subsets 4 ({[1; 2; 3]} : gset Z) 2 = Some R /\
    forall X, X ∈ R <-> X ⊆ {[1; 2; 3]} /\ len X = 2.
Proof.
  destruct (generate_subsets_all_of_size 4 ({[1; 2; 3]} : gset Z) 2)
    as (R & HR & HX & _); [vm_compute; lia|].
  exists R. split; [exact HR | exact HX].
Defined.

(** X18. Two players exchange shares at the same program counter.  The
    frame that [_exchange_shares] of player [a] writes for player [b] is
    the one that [b]'s connection hands to the share that
    [_exchange_shares] of [b] returned, whether [b] asked for the share
    before the frame arrived or after it; in both cases the deque of the
    key is removed again. *)
Theorem exchange_shares_round_trip a b pa pb field v w pc :
  id a <> id b ->
  protocols a !! id b = Some pa ->
  protocols b !! id a = Some pb ->
  is_Some (peer_id pb) ->
  read_pc a = pc -> read_pc b = pc ->
  incoming_data pb !! (pc, "share") = None ->
  let frame := (pc, "share"%string, DInt v) in
  exists a' pa',
    _exchange_shares (id b) field v a = (Return (next_deferred a), a') /\
    protocols a' !! id b = Some pa' /\
    transport pa' = transport pa ++ [frame] /\
    (exists b1 pb1 pb2,
       _exchange_shares (id a) field w b = (Return (next_deferred b), b1) /\
       protocols b1 !! id a = Some pb1 /\
       stringReceived (marshal_loads frame) pb1
         = (Return (Some (next_deferred b, DInt v)), pb2) /\
       incoming_data pb2 !! (pc, "share") = None) /\
    (exists pb1 b2 pb2,
       stringReceived (marshal_loads frame) pb = (Return None, pb1) /\
       _exchange_shares (id a) field w
         (set_protocols (<[id a := pb1]> (protocols b)) b)
         = (Return (next_deferred b), b2) /\
       last (deferred_log b2) = Some (Callback (next_deferred b) (DInt v)) /\
       protocols b2 !! id a = Some pb2 /\
       incoming_data pb2 !! (pc, "share") = None).
Proof.
  intros Hne Hpa Hpb [n Hn] Ha Hb Hq frame. subst frame.
  destruct (exchange_shares_run (id b) field v a pa) as (a' & Hrun & Hpa' & _);
    [done|done|].
  rewrite Ha in Hpa'.
  eexists a', _.
  split; [exact Hrun|]. split; [exact Hpa'|].
  split; [cbn [sendData transport]; by rewrite transport_expect_data_at|].
  split.
  - destruct (exchange_shares_run (id a) field w b pb) as (b1 & Hrunb & Hpb1 & _);
      [done|done|].
    rewrite Hb in Hpb1.
    eexists b1, _, _. split; [exact Hrunb|]. split; [exact Hpb1|].
    unfold expect_data_at. rewrite Hq. cbn [default snd].
    unfold stringReceived, marshal_loads, sendData, append_at, set_incoming_data.
    cbn [peer_id incoming_data transport]. rewrite Hn.
    rewrite lookup_insert_eq. cbn [default].
    split; [reflexivity|].
    unfold popleft_at, set_incoming_data. cbn [incoming_data].
    by rewrite lookup_delete_eq.
  - unfold stringReceived, marshal_loads. rewrite Hn, Hq. cbn [default].
    eexists _.
    set (pb1 := append_at (pc, "share") [] (Payload (DInt v)) pb).
    set (b' := set_protocols (<[id a := pb1]> (protocols b)) b).
    destruct (exchange_shares_run (id a) field w b' pb1)
      as (b2 & Hrunb & Hpb2 & Hlog); [done|by apply lookup_insert_eq|].
    change (read_pc b') with (read_pc b) in *. rewrite Hb in *.
    change (next_deferred b') with (next_deferred b) in *.
    assert (He : expect_data_at (pc, "share") (next_deferred b) pb1
                 = (Some (next_deferred b, DInt v), popleft_at (pc, "share") [] pb1)).
    { unfold expect_data_at, pb1, append_at, set_incoming_data.
      cbn [incoming_data]. by rewrite lookup_insert_eq. }
    rewrite He in Hpb2, Hlog. cbn [fst snd] in Hpb2, Hlog.
    eexists b2, _. split; [reflexivity|]. split; [exact Hrunb|].
    split; [|split; [exact Hpb2|]].
    + rewrite Hlog, app_assoc. apply last_snoc.
    + unfold sendData, popleft_at, set_incoming_data. cbn [incoming_data].
      by rewrite lookup_delete_eq.
Qed.

Lemma exchange_shares_round_trip_witness :
  exists a' pa',
    _exchange_shares 2 (GF 31) 5 example_runtime3 = (Return 0%nat, a') /\
    protocols a' !! 2 = Some pa' /\
    transport pa' = [([0], "share"%string, DInt 5)].
Proof.
  pose (b := add_player 1 (connected 1) (add_player 3 (connected 3)
               (mkRuntime 2 1 {[ 0%nat := [0] ]} 0%nat ∅ ∅ 1 [2] ∅ 0%nat []))).
  destruct (exchange_shares_round_trip example_runtime3 b (connected 2) (connected 1)
              (GF 31) 5 7 [0])
    as (a' & pa' & Hrun & Hpa & Htr & _); try reflexivity.
  - discriminate.
  - by eexists.
  - exists a', pa'. split; [exact Hrun|]. split; [exact Hpa|].
    rewrite Htr. reflexivity.
Defined.

(** X19. [prss_share] called by a player that is not an inputter, with a
    connection to every inputter: it returns one share for each inputter
    (the share itself when there is one inputter), the program counter is
    incremented by one, and no frame is written to any transport. *)
Theorem prss_share_non_inputter prss recombine inputters field s q k :
  id s ∉ inputters ->
  connections_to inputters s ->
  read_pc s = q ++ [k] ->
  exists ds s',
    prss_share prss recombine inputters field None s
      = (Return (unpack_singleton ds), s') /\
    length ds = length inputters /\
    read_pc s' = q ++ [k + 1] /\
    same_setup s s'.
Proof.
  intros Hnot Hc Hpc. unfold prss_share.
  rewrite (inc_pc_wrapper_keeps _ s q k
             (keeps_pc_prss_share_body prss recombine inputters field None) Hpc).
  set (s0 := write_pc (q ++ [k + 1; 0]) s).
  assert (Hc0 : connections_to inputters s0) by exact Hc.
  destruct (prss_share_collect
              (fun player => prss (num_players s0) (id s0) field player (read_pc s0))
              field None inputters s0 Hc0) as (ds & s1 & Hds & Hs1 & Hlen).
  assert (Hbody : prss_share_body prss recombine inputters field None s0
                  = (Return (unpack_singleton ds), s1)).
  { unfold prss_share_body, bind at 1, get_self. cbn [fst snd].
    rewrite bool_decide_false by done.
    unfold assert. cbn [negb]. unfold bind at 1, ret at 1.
    unfold bind at 1, tuple_program_counter at 1. cbn [fst snd].
    unfold bind at 1, ret at 1. cbn [fst snd].
    unfold bind at 1. rewrite Hds. reflexivity. }
  rewrite Hbody. cbn [fst snd].
  exists ds, (write_pc (q ++ [k + 1]) s1).
  split; [done|]. split; [done|]. split; [apply read_write_pc|].
  apply (same_setup_trans s s0); [apply same_setup_write_pc|].
  apply (same_setup_trans s0 s1); [done | apply same_setup_write_pc].
Qed.

Lemma prss_share_non_inputter_witness :
  exists ds s',
    prss_share (fun _ _ _ _ _ => 0) (fun _ _ => 0) [2; 3] (GF 31) None example_runtime3
      = (Return (unpack_singleton ds), s') /\
    length ds = 2%nat /\
    read_pc s' = [1] /\
    same_setup example_runtime3 s'.
Proof.
  apply (prss_share_non_inputter (fun _ _ _ _ _ => 0) (fun _ _ => 0) [2; 3] (GF 31)
           example_runtime3 [] 0).
  - intros H. apply elem_of_cons in H as [H|H]; [discriminate H|].
    apply list_elem_of_singleton in H. discriminate H.
  - intros peer Hp _. apply elem_of_cons in Hp as [->|Hp];
      [|apply list_elem_of_singleton in Hp as ->]; by eexists.
  - reflexivity.
Defined.

(** X20. [prss_share] called by an inputter with its element: it returns
    one share for each inputter, and every other player gets one frame,
    with the same correction value (the element minus the recombined
    pseudo-random sharing) under the program counter of the call. *)
Theorem prss_share_broadcasts_correction prss recombine inputters field e s q k :
  id s ∈ inputters ->
  NoDup (players s) ->
  connections_to (players s) s ->
  connections_to inputters s ->
  read_pc s = q ++ [k] ->
  let pc := q ++ [k + 1; 0] in
  let all_shares :=
    map (fun player => (field_call field player,
                        prss (num_players s) player field (id s) pc))
        (players s) in
  let shared := recombine field (take (Z.to_nat (threshold s + 1)) all_shares) in
  let correction := fe_sub field e shared in
  exists ds s',
    prss_share prss recombine inputters field (Some e) s
      = (Return (unpack_singleton ds), s') /\
    length ds = length inputters /\
    read_pc s' = q ++ [k + 1] /\
    forall peer p,
      peer ∈ players s -> peer <> id s -> protocols s !! peer = Some p ->
      exists p', protocols s' !! peer = Some p' /\
                 transport p' = transport p ++ [(pc, "share"%string, DInt correction)].
Proof.
  intros Hin Hnd Hcp Hci Hpc pc all_shares shared correction. unfold prss_share.
  rewrite (inc_pc_wrapper_keeps _ s q k
             (keeps_pc_prss_share_body prss recombine inputters field (Some e)) Hpc).
  fold pc. set (s0 := write_pc pc s).
  assert (Hpc0 : read_pc s0 = pc) by apply read_write_pc.
  set (s1 := set_protocols
               (send_share_all (id s) (players s) pc correction (protocols s)) s0).
  assert (Hbody : exists ds s2,
             prss_share_body prss recombine inputters field (Some e) s0
               = (Return (unpack_singleton ds), s2) /\
             length ds = length inputters /\ same_setup s1 s2).
  { assert (Hc1 : connections_to inputters s1).
    { intros peer Hp Hne. apply send_share_all_is_Some. by apply Hci. }
    destruct (prss_share_collect
                (fun player => prss (num_players s) (id s) field player pc)
                field (Some correction) inputters s1 Hc1)
      as (ds & s2 & Hds & Hs2 & Hlen).
    exists ds, s2. split; [|done].
    unfold prss_share_body, bind at 1, get_self. cbn [fst snd].
    rewrite bool_decide_true by done.
    unfold assert. unfold bind at 1, ret at 1.
    unfold bind at 1, tuple_program_counter at 1. cbn [fst snd].
    unfold bind at 1. unfold bind at 1, tuple_program_counter at 1. cbn [fst snd].
    unfold bind at 1.
    rewrite (for_each_send_at (id s0) (players s0) (read_pc s0) _ s0 eq_refl Hcp).
    cbn [fst snd]. unfold ret at 1. cbn [fst snd].
    unfold bind at 1. rewrite !Hpc0.
    match type of Hds with
    | ?lhs = _ =>
        match goal with
        | |- context [collect inputters ?F ?st] =>
            change (collect inputters F st) with lhs
        end
    end.
    rewrite Hds. reflexivity. }
  destruct Hbody as (ds & s2 & Hbody & Hlen & Hs2).
  rewrite Hbody. cbn [fst snd].
  exists ds, (write_pc (q ++ [k + 1]) s2).
  split; [done|]. split; [done|]. split; [apply read_write_pc|].
  intros peer p Hpeer Hne Hp.
  destruct Hs2 as (_ & _ & _ & Htr).
  destruct (Htr peer (sendData pc "share" (DInt correction) p)) as (p' & Hp' & Ht).
  { apply (send_share_all_lookup (id s) (players s) pc correction
             (protocols s) peer p); done. }
  exists p'. split; [exact Hp'|]. by rewrite Ht.
Qed.

Lemma prss_share_broadcasts_correction_witness :
  exists ds s' p',
    prss_share (fun _ _ _ _ _ => 0) (fun _ _ => 4) [1] (GF 31) (Some 10) example_runtime3
      = (Return (unpack_singleton ds), s') /\
    protocols s' !! 2 = Some p' /\
    transport p' = [([1; 0], "share"%string, DInt 6)].
Proof.
  destruct (prss_share_broadcasts_correction (fun _ _ _ _ _ => 0) (fun _ _ => 4)
              [1] (GF 31) 10 example_runtime3 [] 0)
    as (ds & s' & Hrun & _ & _ & Hsend).
  - by left.
  - apply (bool_decide_unpack _). vm_compute. exact I.
  - intros peer Hp Hne.
    apply elem_of_cons in Hp as [->|Hp]; [done|].
    apply elem_of_cons in Hp as [->|Hp]; [by eexists|].
    apply list_elem_of_singleton in Hp as ->. by eexists.
  - intros peer Hp Hne. apply list_elem_of_singleton in Hp as ->. done.
  - reflexivity.
  - destruct (Hsend 2 (connected 2)) as (p' & Hp' & Ht).
    + apply (bool_decide_unpack _). vm_compute. exact I.
    + discriminate.
    + reflexivity.
    + exists ds, s', p'. split; [exact Hrun|]. split; [exact Hp'|].
      rewrite Ht. reflexivity.
Defined.

(** X21. A peer whose certificate does not carry the id it claims is
    identified all the same: [stringReceived] closes the connection, but
    [identify_peer] still runs, so the runtime gets the claimed id as a
    player, with the closed connection as its protocol, exactly as for a
    matching certificate; and when it was the last connection awaited,
    [protocols_ready] is called with that runtime. *)
Theorem certificate_mismatch_still_identifies n serial_number p f :
  n ∈ f_players f ->
  serial_number <> n ->
  exists f',
    identify_connection n (Some serial_number) p f
      = (Return true, set_peer_id n p, f') /\
    identify_connection n (Some n) p f = (Return false, set_peer_id n p, f') /\
    protocols (f_runtime f') !! n = Some (set_peer_id n p) /\
    n ∈ players (f_runtime f') /\
    needed_protocols f' = needed_protocols f - 1 /\
    (needed_protocols f = 1 ->
     protocols_ready f' = protocols_ready f ++ [f_runtime f']).
Proof.
  intros Hn Hne. unfold identify_connection, identify_peer.
  cbn [peer_id set_peer_id]. rewrite decide_True by done.
  assert ((serial_number =? n) = false) as -> by (by apply Z.eqb_neq).
  rewrite Z.eqb_refl. cbn [negb].
  assert (Hp : forall r, protocols (add_player n (set_peer_id n p) r) !! n
                         = Some (set_peer_id n p)).
  { intros r. unfold add_player. cbn [protocols]. by rewrite lookup_insert_eq. }
  assert (Hpl : forall r, n ∈ players (add_player n (set_peer_id n p) r)).
  { intros r. unfold add_player. cbn [players].
    case_decide; [done|]. apply elem_of_app. right. by left. }
  destruct (needed_protocols f - 1 =? 0) eqn:E.
  - eexists. split; [reflexivity|]. split; [reflexivity|].
    cbn [f_runtime needed_protocols protocols_ready].
    split; [apply Hp|]. split; [apply Hpl|]. done.
  - eexists. split; [reflexivity|]. split; [reflexivity|].
    cbn [f_runtime needed_protocols protocols_ready].
    split; [apply Hp|]. split; [apply Hpl|]. split; [done|].
    intros H1. rewrite H1 in E. done.
Qed.

Lemma certificate_mismatch_still_identifies_witness :
  exists f',
    identify_connection 2 (Some 7) (mkShareExchanger None ∅ [])
                        (Factory_init example_runtime [1; 2])
      = (Return true, connected 2, f') /\
    protocols_ready f' = [f_runtime f'] /\
    protocols (f_runtime f') !! 2 = Some (connected 2).
Proof.
  destruct (certificate_mismatch_still_identifies 2 7 (mkShareExchanger None ∅ [])
              (Factory_init example_runtime [1; 2]))
    as (f' & Hrun & _ & Hp & _ & _ & Hready).
  - apply (bool_decide_unpack _). vm_compute. exact I.
  - discriminate.
  - exists f'. split; [exact Hrun|]. split; [exact (Hready eq_refl) | exact Hp].
Defined.
